(** * FidoAdapter: protein inference orchestration

    A shallow embedding of the TOPP tool [TOPPFidoAdapter] (the second
    document of InstrumentVisualizer.h): accession sanitizing, the PSM graph
    and protein list writers, the run of the external engine with the parsing
    of its output, and the merging of identification runs in [main_].

    Conventions of the embedding.
    - [String] is [string]; [operator<] on strings is the byte-wise
      lexicographic order [String.ltb] of coqutil.
    - [double] is an IEEE 754 binary64 value, [spec_float] with precision 53
      and maximal exponent 1024, compared and subtracted by the operations of
      [SpecFloat].
    - [Size] is an unsigned 64-bit integer, an [N] whose increments wrap.
    - [std::set<String>] and [std::map<String, T>] are the sorted lists of
      coqutil's [SortedListString], iterated in key order.
    - Everything the tool does to the outside (log lines, files, the engine
      process, storing the result) is an [Event] appended to the history, and a
      function that can throw returns an [Outcome]. *)

From Stdlib Require Import List String Ascii ZArith NArith Bool Lia.
From Stdlib Require Import SpecFloat DecimalString DecimalN DecimalZ.
From Stdlib Require Import Sorted Permutation.
From coqutil Require Import Map.Interface Map.SortedListString.
From coqutil Require Map.SortedList Datatypes.String.
Import ListNotations.
Local Open Scope string_scope.

(* ===================================================================== *)
(** * Numbers *)

Definition double : Type := spec_float.

(** The literals [0.0] and [1.0]. *)
Definition d0 : double := S754_zero false.
Definition d1 : double := SFone 53 1024.

(** [a < b], [a > b], [a == b] and [a - b] on doubles. *)
Definition dlt (a b : double) : bool := SFltb a b.
Definition dgt (a b : double) : bool := SFltb b a.
Definition deq (a b : double) : bool := SFeqb a b.
Definition dsub (a b : double) : double := SFsub 53 1024 a b.

Definition is_nan (a : double) : bool :=
  match a with S754_nan => true | _ => false end.

(** [Size]: [++n] and [n += k] wrap at [2^64]. *)
Definition Size : Type := N.
Definition Size_modulus : N := 2 ^ 64.
Definition Size_add (n k : Size) : Size := ((n + k) mod Size_modulus)%N.
Definition Size_incr (n : Size) : Size := Size_add n 1%N.

(** [String(Size)] and [QString::number(int)]: decimal digits. *)
Definition String_of_Size (n : Size) : string :=
  NilEmpty.string_of_uint (N.to_uint n).
Definition String_of_Int (z : Z) : string :=
  NilEmpty.string_of_int (Z.to_int z).

(* ===================================================================== *)
(** * Strings *)

Definition str_empty (s : string) : bool :=
  match s with EmptyString => true | _ => false end.

(** [s.hasPrefix(p)] *)
Definition hasPrefix (s p : string) : bool := String.prefix p s.

(** [std::tolower] in the "C" locale. *)
Definition tolower (c : ascii) : ascii :=
  let n := nat_of_ascii c in
  if (65 <=? n)%nat && (n <=? 90)%nat then ascii_of_nat (n + 32) else c.

Fixpoint toLower (s : string) : string :=
  match s with
  | EmptyString => EmptyString
  | String c r => String (tolower c) (toLower r)
  end.

Fixpoint mem_char (c : ascii) (cs : string) : bool :=
  match cs with
  | EmptyString => false
  | String d r => Ascii.eqb c d || mem_char c r
  end.

(** [s.find_first_of(cs)]: [None] is [npos]. *)
Fixpoint find_first_of (cs s : string) : option nat :=
  match s with
  | EmptyString => None
  | String c r =>
      if mem_char c cs then Some 0%nat
      else option_map S (find_first_of cs r)
  end.

(** [s.substr(0, pos)]; with [npos] the whole string. *)
Definition substr0 (s : string) (pos : option nat) : string :=
  match pos with
  | None => s
  | Some n => String.substring 0 n s
  end.

(** [s.suffix(delim)]: what follows the last [delim]; [None] when [delim]
    does not occur (the library throws [ElementNotFound]). *)
Fixpoint suffix (delim : ascii) (s : string) : option string :=
  match s with
  | EmptyString => None
  | String c r =>
      match suffix delim r with
      | Some t => Some t
      | None => if Ascii.eqb c delim then Some r else None
      end
  end.

(** Modelled from the spec: [String::split] (CONCEPT/DATASTRUCTURES/String
    is not under src/), used here with the splitter "\n" only: the text is cut
    at every newline, one entry per line; an empty text gives no entry. *)
Fixpoint split_at (delim : ascii) (s : string) : list string :=
  match s with
  | EmptyString => [EmptyString]
  | String c r =>
      if Ascii.eqb c delim then EmptyString :: split_at delim r
      else match split_at delim r with
           | [] => [String c EmptyString]
           | h :: t => String c h :: t
           end
  end.

Definition newline : ascii := "010"%char.

Definition split_lines (s : string) : list string :=
  if str_empty s then [] else split_at newline s.

(** [QString::replace(before, after)] with a non-empty [before]: every
    occurrence, left to right, without overlap.  [skip] counts the characters
    of a match still to be dropped. *)
Fixpoint replace_from (before after s : string) (skip : nat) : string :=
  match s with
  | EmptyString => EmptyString
  | String c r =>
      match skip with
      | S k => replace_from before after r k
      | O =>
          if String.prefix before s
          then after ++ replace_from before after r (String.length before - 1)
          else String c (replace_from before after r 0)
      end
  end.

Definition replace (before after s : string) : string :=
  if str_empty before then s else replace_from before after s 0.

(** [QStringList::replaceInStrings(before, after)] *)
Definition replaceInStrings (before after : string) (l : list string)
  : list string :=
  List.map (replace before after) l.

(* ===================================================================== *)
(** * Containers *)

(** [std::sort] with the comparator [lt], as a stable insertion sort. *)
Section Sort.
Context {A : Type} (lt : A -> A -> bool).

Fixpoint sort_insert (x : A) (l : list A) : list A :=
  match l with
  | [] => [x]
  | y :: r => if lt x y then x :: l else y :: sort_insert x r
  end.

Definition sort (l : list A) : list A :=
  fold_left (fun acc x => sort_insert x acc) l [].
End Sort.

(** [std::set<String>] *)
Definition StringSet : Type := SortedListString.map unit.
Definition set_empty : StringSet := map.empty.
Definition set_insert (s : StringSet) (x : string) : StringSet :=
  map.put s x tt.
(** The elements in iteration order, [begin()] to [end()]. *)
Definition set_elements (s : StringSet) : list string :=
  List.map fst (SortedList.value s).

(** [std::map<String, T>], iterated in key order. *)
Definition map_entries {T} (m : SortedListString.map T) : list (string * T) :=
  SortedList.value m.

(** [boost::bimap<String, String>]: a left and a right view, each a set of
    unique keys; [insert] adds the pair only when neither its left nor its
    right key is taken. *)
Record StringBimap := {
  left : SortedListString.map string;
  right : SortedListString.map string
}.

Definition bimap_empty : StringBimap :=
  {| left := map.empty; right := map.empty |}.

Definition bimap_insert (b : StringBimap) (l r : string) : StringBimap :=
  match map.get (left b) l, map.get (right b) r with
  | None, None => {| left := map.put (left b) l r;
                     right := map.put (right b) r l |}
  | _, _ => b
  end.

(* ===================================================================== *)
(** * Data model *)

(** Modelled from the spec: [DataValue] and [MetaInfoInterface]
    (METADATA is not under src/): a meta value is absent, a string or a
    number; [toString] of an absent value is empty, and only a number
    converts to [double]. *)
Inductive DataValue :=
| EMPTY
| STRING_VALUE (s : string)
| DOUBLE_VALUE (d : double).

Definition MetaInfo : Type := list (string * DataValue).

Definition has_name (name : string) (kv : string * DataValue) : bool :=
  String.eqb (fst kv) name.

Definition metaValueExists (m : MetaInfo) (name : string) : bool :=
  existsb (has_name name) m.

Definition getMetaValue (m : MetaInfo) (name : string) : DataValue :=
  match find (has_name name) m with
  | Some (_, v) => v
  | None => EMPTY
  end.

Definition setMetaValue (m : MetaInfo) (name : string) (v : DataValue)
  : MetaInfo :=
  (name, v) :: filter (fun kv => negb (has_name name kv)) m.

Record PeptideHit := {
  ph_sequence : string;          (* getSequence(), as it is printed *)
  ph_score : double;             (* getScore() *)
  ph_meta : MetaInfo;
  ph_evidences : list string     (* protein accession of each PeptideEvidence *)
}.

(** [hit.extractProteinAccessions()]: the accessions as a [std::set]. *)
Definition extractProteinAccessions (hit : PeptideHit) : StringSet :=
  fold_left set_insert (ph_evidences hit) set_empty.

Record PeptideIdentification := {
  pi_identifier : string;
  pi_score_type : string;
  pi_higher_score_better : bool;
  pi_hits : list PeptideHit
}.

Definition ScoreMore (a b : PeptideHit) : bool := dgt (ph_score a) (ph_score b).
Definition ScoreLess (a b : PeptideHit) : bool := dlt (ph_score a) (ph_score b).

(** Modelled from the spec: [PeptideIdentification::sort] (METADATA is not
    under src/): the hits are put best score first, highest first when a
    higher score is better and lowest first otherwise. *)
Definition PeptideIdentification_sort (p : PeptideIdentification)
  : PeptideIdentification :=
  {| pi_identifier := pi_identifier p;
     pi_score_type := pi_score_type p;
     pi_higher_score_better := pi_higher_score_better p;
     pi_hits := sort (if pi_higher_score_better p then ScoreMore else ScoreLess)
                     (pi_hits p) |}.

Definition setIdentifier (p : PeptideIdentification) (id : string)
  : PeptideIdentification :=
  {| pi_identifier := id;
     pi_score_type := pi_score_type p;
     pi_higher_score_better := pi_higher_score_better p;
     pi_hits := pi_hits p |}.

Record ProteinHit := {
  accession : string;
  pr_score : double;
  pr_meta : MetaInfo
}.

Definition setScore (h : ProteinHit) (s : double) : ProteinHit :=
  {| accession := accession h; pr_score := s; pr_meta := pr_meta h |}.

Record ProteinGroup := {
  probability : double;
  accessions : list string
}.

(** [operator<] on [vector<String>]: [std::lexicographical_compare]. *)
Fixpoint list_ltb (a b : list string) : bool :=
  match a, b with
  | _, [] => false
  | [], _ :: _ => true
  | x :: a', y :: b' =>
      if String.ltb x y then true
      else if String.ltb y x then false
      else list_ltb a' b'
  end.

(** Modelled from the spec: [ProteinGroup::operator<] (METADATA is not under
    src/): the natural group ordering, by probability, then by accession
    list. *)
Definition ProteinGroup_lt (a b : ProteinGroup) : bool :=
  if dlt (probability a) (probability b) then true
  else if dlt (probability b) (probability a) then false
  else list_ltb (accessions a) (accessions b).

Record ProteinIdentification := {
  identifier : string;
  search_engine : string;
  score_type : string;
  higher_score_better : bool;
  hits : list ProteinHit;
  groups : list ProteinGroup;      (* getIndistinguishableProteins() *)
  meta : MetaInfo
}.

Definition with_hits (p : ProteinIdentification) (hs : list ProteinHit)
  : ProteinIdentification :=
  {| identifier := identifier p; search_engine := search_engine p;
     score_type := score_type p; higher_score_better := higher_score_better p;
     hits := hs; groups := groups p; meta := meta p |}.

Definition with_groups (p : ProteinIdentification) (gs : list ProteinGroup)
  : ProteinIdentification :=
  {| identifier := identifier p; search_engine := search_engine p;
     score_type := score_type p; higher_score_better := higher_score_better p;
     hits := hits p; groups := gs; meta := meta p |}.

Definition with_meta (p : ProteinIdentification) (name : string) (d : double)
  : ProteinIdentification :=
  {| identifier := identifier p; search_engine := search_engine p;
     score_type := score_type p; higher_score_better := higher_score_better p;
     hits := hits p; groups := groups p;
     meta := setMetaValue (meta p) name (DOUBLE_VALUE d) |}.

(** [p.findHit(acc)->setScore(s)]: the first hit with this accession gets
    the score; [None] when there is none and [end()] is dereferenced. *)
Fixpoint findHit_setScore (hs : list ProteinHit) (acc : string) (s : double)
  : option (list ProteinHit) :=
  match hs with
  | [] => None
  | h :: r =>
      if String.eqb (accession h) acc then Some (setScore h s :: r)
      else option_map (cons h) (findHit_setScore r acc s)
  end.

(* ===================================================================== *)
(** * Effects *)

(** An operand of [<<]. *)
Inductive Item :=
| Str (s : string)
| Dbl (d : double)
| Num (n : Size)
| Endl.

Inductive Stream :=
| LOG_ERROR | LOG_WARN | LOG_INFO | LOG_DEBUG
| File (path : string).

Inductive Event :=
| Open (path : string)                       (* ofstream f(path) *)
| Put (s : Stream) (items : list Item)       (* s << a << b ... *)
| Close (path : string)
| Load (path : string)                       (* IdXMLFile().load *)
| Mkpath (path : string)
| Start (exe : string) (args : list string)  (* QProcess::start *)
| Store (out : string) (proteins : list ProteinIdentification)
        (peptides : list PeptideIdentification)
| RemoveDir (path : string).

Inductive Exception :=
| MissingInformation (msg : string)
| ConversionError
| ElementNotFound.

(** How a call ends: it returns, it throws, it dereferences an [end()]
    iterator (a [find] that found nothing, or [[0]] of an empty vector), or
    the fuel of a loop of the embedding runs out. *)
Inductive Outcome (A : Type) :=
| Normal (a : A)
| Thrown (e : Exception)
| EndDereferenced
| OutOfFuel.
Arguments Normal {A} a.
Arguments Thrown {A} e.
Arguments EndDereferenced {A}.
Arguments OutOfFuel {A}.

Definition obind {A B} (o : Outcome A) (k : A -> Outcome B) : Outcome B :=
  match o with
  | Normal a => k a
  | Thrown e => Thrown e
  | EndDereferenced => EndDereferenced
  | OutOfFuel => OutOfFuel
  end.

(** A computation over the history of events. *)
Definition M (A : Type) : Type := list Event -> Outcome A * list Event.

Definition ret {A} (a : A) : M A := fun w => (Normal a, w).

Definition bind {A B} (m : M A) (k : A -> M B) : M B :=
  fun w =>
    match m w with
    | (Normal a, w') => k a w'
    | (Thrown e, w') => (Thrown e, w')
    | (EndDereferenced, w') => (EndDereferenced, w')
    | (OutOfFuel, w') => (OutOfFuel, w')
    end.

Definition emit (e : Event) : M unit := fun w => (Normal tt, (w ++ [e])%list).
Definition throw {A} (e : Exception) : M A := fun w => (Thrown e, w).
Definition end_dereferenced {A} : M A := fun w => (EndDereferenced, w).
Definition lift {A} (o : Outcome A) : M A := fun w => (o, w).
Definition history : M (list Event) := fun w => (Normal w, w).

Declare Scope fido_scope.
Delimit Scope fido_scope with fido.
Notation "x <- m ;; k" := (bind m (fun x => k))
  (at level 61, m at next level, right associativity) : fido_scope.
Notation "m ;;; k" := (bind m (fun _ => k))
  (at level 61, right associativity) : fido_scope.
Local Open Scope fido_scope.

Definition when (b : bool) (m : M unit) : M unit := if b then m else ret tt.

(** The scope of a local [ofstream] on the file [path]: when an exception
    leaves the scope, the destructor of the stream closes the file. *)
Definition ofstream_scope {A} (path : string) (m : M A) : M A :=
  fun w =>
    match m w with
    | (Thrown e, w') => (Thrown e, (w' ++ [Close path])%list)
    | r => r
    end.

(** What the tool takes from its environment. *)
Class Externals := {
  (** [std::istream >> double] on the unread characters, leading white space
      already skipped: the value and what is left unread, or [None] when no
      number can be read. *)
  istream_double : string -> option (double * string);
  (** [DataValue::toString] of a number. *)
  double_toString : double -> string;
  (** [QString::number(double)] *)
  QString_number : double -> string;
  File_isDirectory : string -> bool;
  QDir_separator : string;
  File_getTempDirectory : string;
  File_getUniqueName : string;
  QDir_toNativeSeparators : string -> string;
  (** [QProcess::start] followed by [waitForFinished(-1)], after the events
      so far: [None] when the wait returns [false], else the standard output
      and the standard error of the process. *)
  QProcess_run : string -> list string -> list Event -> option (string * string)
}.

Definition DataValue_toString `{Externals} (v : DataValue) : string :=
  match v with
  | EMPTY => EmptyString
  | STRING_VALUE s => s
  | DOUBLE_VALUE d => double_toString d
  end.

Definition DataValue_to_double (v : DataValue) : M double :=
  match v with
  | DOUBLE_VALUE d => ret d
  | _ => throw ConversionError
  end.

(* ===================================================================== *)
(** * Input streams *)

(** [std::isspace] in the "C" locale. *)
Definition isspace (c : ascii) : bool :=
  let n := nat_of_ascii c in
  (n =? 32)%nat || ((9 <=? n)%nat && (n <=? 13)%nat).

Fixpoint skipws (s : string) : string :=
  match s with
  | String c r => if isspace c then skipws r else s
  | EmptyString => s
  end.

(** The characters up to the next white space, and what follows them. *)
Fixpoint take_word (s : string) : string :=
  match s with
  | String c r => if isspace c then EmptyString else String c (take_word r)
  | EmptyString => EmptyString
  end.

Fixpoint drop_word (s : string) : string :=
  match s with
  | String c r => if isspace c then s else drop_word r
  | EmptyString => s
  end.

Record istream := {
  unread : string;
  eofbit : bool;
  failbit : bool
}.

Definition istringstream (s : string) : istream :=
  {| unread := s; eofbit := false; failbit := false |}.

Definition good (s : istream) : bool := negb (eofbit s) && negb (failbit s).

(** [while (line)]: the stream converts to [!fail()]. *)
Definition to_bool (s : istream) : bool := negb (failbit s).

(** [istream::sentry]: a stream that is not good fails; otherwise white
    space is skipped, and reaching the end sets [eofbit] and [failbit]. *)
Definition sentry (s : istream) : istream * bool :=
  if good s then
    let r := skipws (unread s) in
    if str_empty r
    then ({| unread := r; eofbit := true; failbit := true |}, false)
    else ({| unread := r; eofbit := false; failbit := false |}, true)
  else ({| unread := unread s; eofbit := eofbit s; failbit := true |}, false).

(** [s >> str]: on failure [str] keeps its value. *)
Definition extract_string (s : istream) (str : string) : string * istream :=
  let '(s, ok) := sentry s in
  if ok then
    let r := drop_word (unread s) in
    (take_word (unread s),
     {| unread := r; eofbit := str_empty r; failbit := false |})
  else (str, s).

(** [s >> val]: a failed sentry leaves [val]; a failed conversion stores
    zero. *)
Definition extract_double `{Externals} (s : istream) (val : double)
  : double * istream :=
  let '(s, ok) := sentry s in
  if ok then
    match istream_double (unread s) with
    | Some (d, r) =>
        (d, {| unread := r; eofbit := str_empty r; failbit := false |})
    | None => (d0, {| unread := unread s; eofbit := eofbit s; failbit := true |})
    end
  else (val, s).

(* ===================================================================== *)
(** * The tool *)

Definition nl : string := String newline EmptyString.
Definition dquote : string := String "034"%char EmptyString.

Definition is_nil {A} (l : list A) : bool :=
  match l with [] => true | _ => false end.

Record Options := {
  opt_in : string;
  opt_out : string;
  opt_exe : string;
  opt_prob_param : string;
  opt_separate_runs : bool;
  opt_keep_zero_group : bool;
  opt_no_cleanup : bool;
  opt_all_PSMs : bool;
  opt_group_level : bool;
  opt_accuracy : string;
  opt_log2_states : Z;
  opt_log2_states_precalc : Z;
  opt_prob_protein : double;
  opt_prob_peptide : double;
  opt_prob_spurious : double;
  debug_level_ : Z
}.

Section Tool.
Context `{Ext : Externals}.

(** The member [sanitized_accessions_]. *)
Variable sanitized_accessions_ : StringBimap.

(** ** [writePSMGraph_] *)

(** Lines 260-291: the score of the hit, the reason it is unsuitable (empty
    when it is suitable), and [warned_once]. *)
Definition resolve_score (prob_param : string) (pep : PeptideIdentification)
    (hit : PeptideHit) (warned_once : bool) : M (double * string * bool) :=
  if str_empty prob_param || negb (metaValueExists (ph_meta hit) prob_param)
  then
    let score := ph_score hit in
    if negb (pi_higher_score_better pep) then
      let score_type := toLower (pi_score_type pep) in
      if String.eqb score_type "posterior error probability"
         || hasPrefix score_type "consensus_"
      then
        when (negb warned_once)
          (emit (Put LOG_WARN
             [Str ("Warning: Scores of peptide hits seem to be posterior"
                   ++ " error probabilities. Converting to (positive) posterior"
                   ++ " probabilities."); Endl])) ;;;
        ret (dsub d1 score, EmptyString, true)
      else ret (score, "lower scores are better", warned_once)
    else ret (score, EmptyString, warned_once)
  else
    score <- DataValue_to_double (getMetaValue (ph_meta hit) prob_param) ;;
    ret (score, EmptyString, warned_once).

(** Lines 293-300. *)
Definition check_range (score : double) (error_reason : string) : string :=
  if dlt score d0 then "score < 0"
  else if dgt score d1 then "score > 1"
  else error_reason.

Definition unsuitable_msg (error_reason : string) : string :=
  "Error: Unsuitable score type for peptide-spectrum "
  ++ "matches detected (problem: " ++ error_reason ++ ")." ++ nl
  ++ "Fido requires "
  ++ "probabilities as scores, e.g. as produced by "
  ++ "IDPosteriorErrorProbability with the 'prob_correct' option.".

(** Lines 314-321: one "r" line for each non-empty accession. *)
Fixpoint write_accessions (graph_out : string) (accs : list string)
  : M unit :=
  match accs with
  | [] => ret tt
  | acc :: rest =>
      if str_empty acc then write_accessions graph_out rest
      else
        match map.get (left sanitized_accessions_) acc with
        | None => end_dereferenced
        | Some tok =>
            emit (Put (File graph_out) [Str "r "; Str tok; Endl]) ;;;
            write_accessions graph_out rest
        end
  end.

(** Lines 245-323: the loop over the peptide identifications; the
    identifications come back with the hits sorted where [sort] ran. *)
Fixpoint write_graph_loop (graph_out prob_param identifier : string)
    (peptides : list PeptideIdentification) (warned_once : bool)
  : M (list PeptideIdentification) :=
  match peptides with
  | [] => ret []
  | pep :: rest =>
      if (negb (str_empty identifier)
          && negb (String.eqb (pi_identifier pep) identifier))
         || is_nil (pi_hits pep)
      then
        rest' <- write_graph_loop graph_out prob_param identifier rest
                                  warned_once ;;
        ret (pep :: rest')
      else
        let pep := PeptideIdentification_sort pep in
        match pi_hits pep with
        | [] => end_dereferenced
        | hit :: _ =>
            if str_empty (ph_sequence hit)
               || is_nil (set_elements (extractProteinAccessions hit))
            then
              rest' <- write_graph_loop graph_out prob_param identifier rest
                                        warned_once ;;
              ret (pep :: rest')
            else
              r <- resolve_score prob_param pep hit warned_once ;;
              let '(score, error_reason, warned_once) := r in
              let error_reason := check_range score error_reason in
              if negb (str_empty error_reason) then
                let msg := unsuitable_msg error_reason in
                emit (Put LOG_ERROR [Str msg; Endl]) ;;;
                throw (MissingInformation msg)
              else
                emit (Put (File graph_out)
                          [Str "e "; Str (ph_sequence hit); Endl]) ;;;
                write_accessions graph_out
                  (set_elements (extractProteinAccessions hit)) ;;;
                emit (Put (File graph_out) [Str "p "; Dbl score; Endl]) ;;;
                rest' <- write_graph_loop graph_out prob_param identifier
                                          rest warned_once ;;
                ret (pep :: rest')
        end
  end.

(** Lines 243-324: [graph_out] is opened at line 243 and closed at line
    324, or by its destructor when line 309 or a conversion throws. *)
Definition writePSMGraph_ (peptides : list PeptideIdentification)
    (out_path prob_param identifier : string)
  : M (list PeptideIdentification) :=
  emit (Open out_path) ;;;
  peptides <- ofstream_scope out_path
                (write_graph_loop out_path prob_param identifier peptides
                                  false) ;;
  emit (Close out_path) ;;;
  ret peptides.

(** ** [writeProteinLists_] *)

Definition annotation_msg : string :=
  "Error: All protein hits must be annotated with target/"
  ++ "decoy meta data. Run PeptideIndexer with the 'annotate_proteins' "
  ++ "option to accomplish this.".

Definition no_targets_msg : string :=
  "Error: No target proteins found. Fido needs both targets "
  ++ "and decoys.".

Definition no_decoys_msg : string :=
  "Error: No decoy proteins found. Fido needs both targets "
  ++ "and decoys.".

(** Lines 334-357. *)
Fixpoint gather_target_decoy (hs : list ProteinHit)
    (targets decoys : StringSet) : M (StringSet * StringSet) :=
  match hs with
  | [] => ret (targets, decoys)
  | hit :: rest =>
      let target_decoy :=
        DataValue_toString (getMetaValue (pr_meta hit) "target_decoy") in
      match map.get (left sanitized_accessions_) (accession hit) with
      | None => end_dereferenced
      | Some sanitized =>
          if String.eqb target_decoy "target" then
            gather_target_decoy rest (set_insert targets sanitized) decoys
          else if String.eqb target_decoy "decoy" then
            gather_target_decoy rest targets (set_insert decoys sanitized)
          else
            emit (Put LOG_ERROR [Str annotation_msg; Endl]) ;;;
            throw (MissingInformation annotation_msg)
      end
  end.

(** Lines 379-383 and 385-389: the elements, " , " between them. *)
Fixpoint write_set (out : string) (first : bool) (elts : list string)
  : M unit :=
  match elts with
  | [] => ret tt
  | e :: rest =>
      when (negb first) (emit (Put (File out) [Str " , "])) ;;;
      emit (Put (File out) [Str e]) ;;;
      write_set out false rest
  end.

Definition writeProteinLists_ (protein : ProteinIdentification)
    (out_path : string) : M unit :=
  td <- gather_target_decoy (hits protein) set_empty set_empty ;;
  let '(targets, decoys) := td in
  if is_nil (set_elements targets) then
    emit (Put LOG_ERROR [Str no_targets_msg; Endl]) ;;;
    throw (MissingInformation no_targets_msg)
  else if is_nil (set_elements decoys) then
    emit (Put LOG_ERROR [Str no_decoys_msg; Endl]) ;;;
    throw (MissingInformation no_decoys_msg)
  else
    emit (Open out_path) ;;;
    emit (Put (File out_path) [Str "{ "]) ;;;
    write_set out_path true (set_elements targets) ;;;
    emit (Put (File out_path) [Str (" }" ++ nl ++ "{ ")]) ;;;
    write_set out_path true (set_elements decoys) ;;;
    emit (Put (File out_path) [Str " }"; Endl]) ;;;
    emit (Close out_path).

(** ** [runFido_] *)

(** What [runFido_] takes by reference and shares between its calls. *)
Record Shared := {
  peptides_ : list PeptideIdentification;
  fido_params_ : list string;
  prob_protein_ : double;
  prob_peptide_ : double;
  prob_spurious_ : double
}.

Record Parsed := {
  parsed_groups : list ProteinGroup;
  protein_counter : Size;
  zero_proteins : Size
}.

(** Lines 490-500: what one round of the loop does with [accession]; the
    result holds [accession], which line 498 overwrites. *)
Definition use_accession (keep_zero_group : bool)
    (group_probability : double) (accession : string) (zero : Size)
    (group_accessions : list string)
  : Outcome (string * Size * list string) :=
  if (1 <? String.length accession)%nat then
    let zero := if deq group_probability d0 then Size_incr zero else zero in
    if deq group_probability d0 && negb keep_zero_group then
      Normal (accession, zero, group_accessions)
    else
      match map.get (right sanitized_accessions_) accession with
      | None => EndDereferenced
      | Some original =>
          Normal (original, zero, (group_accessions ++ [original])%list)
      end
  else Normal (accession, zero, group_accessions).

(** Lines 487-501: [while (line)], reading one token each time.  The loop
    ends when an extraction has failed; [fuel] bounds the number of
    rounds. *)
Fixpoint read_accessions (fuel : nat) (keep_zero_group : bool)
    (group_probability : double) (line : istream) (accession : string)
    (zero : Size) (group_accessions : list string)
  : Outcome (Size * list string) :=
  if negb (to_bool line) then Normal (zero, group_accessions)
  else
    match fuel with
    | O => OutOfFuel
    | S fuel =>
        let '(accession, line) := extract_string line accession in
        obind (use_accession keep_zero_group group_probability accession
                             zero group_accessions)
          (fun r =>
             let '(accession, zero, group_accessions) := r in
             read_accessions fuel keep_zero_group group_probability line
                             accession zero group_accessions)
    end.

(** Lines 482-507: one line of the output. *)
Definition parse_line (keep_zero_group : bool) (text : string) (acc : Parsed)
  : Outcome Parsed :=
  let line := istringstream text in
  let '(group_probability, line) := extract_double line d0 in
  obind (read_accessions (S (String.length (unread line))) keep_zero_group
                         group_probability line EmptyString
                         (zero_proteins acc) [])
    (fun r =>
       let '(zero, group_accessions) := r in
       if negb (is_nil group_accessions) then
         Normal {| parsed_groups :=
                     (parsed_groups acc ++
                      [{| probability := group_probability;
                          accessions := sort String.ltb group_accessions |}])
                     %list;
                   protein_counter :=
                     Size_add (protein_counter acc)
                              (N.of_nat (List.length group_accessions));
                   zero_proteins := zero |}
       else
         Normal {| parsed_groups := parsed_groups acc;
                   protein_counter := protein_counter acc;
                   zero_proteins := zero |}).

(** Lines 475-509: all lines, then [sort(groups)]. *)
Fixpoint parse_lines (keep_zero_group : bool) (lines : list string)
    (acc : Parsed) : Outcome Parsed :=
  match lines with
  | [] => Normal acc
  | text :: rest =>
      obind (parse_line keep_zero_group text acc)
            (parse_lines keep_zero_group rest)
  end.

Definition parse_output (keep_zero_group : bool) (lines : list string)
  : Outcome Parsed :=
  obind (parse_lines keep_zero_group lines
           {| parsed_groups := []; protein_counter := 0%N;
              zero_proteins := 0%N |})
    (fun r =>
       Normal {| parsed_groups := sort ProteinGroup_lt (parsed_groups r);
                 protein_counter := protein_counter r;
                 zero_proteins := zero_proteins r |}).

(** Lines 457-459: [ss >> prob_protein >> prob_peptide >> prob_spurious]. *)
Definition read_probabilities (text : string) (sh : Shared) : Shared :=
  let ss := istringstream text in
  let '(a, ss) := extract_double ss (prob_protein_ sh) in
  let '(b, ss) := extract_double ss (prob_peptide_ sh) in
  let '(c, ss) := extract_double ss (prob_spurious_ sh) in
  {| peptides_ := peptides_ sh; fido_params_ := fido_params_ sh;
     prob_protein_ := a; prob_peptide_ := b; prob_spurious_ := c |}.

Definition with_peptides (sh : Shared) (ps : list PeptideIdentification)
  : Shared :=
  {| peptides_ := ps; fido_params_ := fido_params_ sh;
     prob_protein_ := prob_protein_ sh; prob_peptide_ := prob_peptide_ sh;
     prob_spurious_ := prob_spurious_ sh |}.

Definition with_fido_params (sh : Shared) (l : list string) : Shared :=
  {| peptides_ := peptides_ sh; fido_params_ := l;
     prob_protein_ := prob_protein_ sh; prob_peptide_ := prob_peptide_ sh;
     prob_spurious_ := prob_spurious_ sh |}.

(** A debug file written in one go (lines 438-441 and 468-471). *)
Definition write_text_file (path text : string) : M unit :=
  emit (Open path) ;;;
  emit (Put (File path) [Str text]) ;;;
  emit (Close path).

(** Lines 432-462: the standard error of the parameter search.  [None]
    stands for the [return false] of line 451. *)
Definition parse_params_output (opts : Options) (temp_dir num : string)
    (params_output : string) (sh : Shared) : M (option Shared) :=
  emit (Put LOG_INFO [Str "Fido parameter search:"; Endl]) ;;;
  when (1 <? debug_level_ opts)%Z
    (write_text_file (temp_dir ++ "fido_status" ++ num ++ ".txt")
                     params_output) ;;;
  let lines :=
    filter (fun l => negb (str_empty l)) (split_lines params_output) in
  match lines with
  | [] => ret (Some sh)
  | first :: _ =>
      if hasPrefix first "caught an exception" then
        emit (Put LOG_ERROR
                  [Str ("Error running Fido: '" ++ first ++ "'"); Endl]) ;;;
        ret None
      else
        when (hasPrefix first "Warning:")
             (emit (Put LOG_WARN [Str first; Endl])) ;;;
        let back := last lines EmptyString in
        if hasPrefix back "Using best gamma, alpha, beta =" then
          emit (Put LOG_INFO [Str back; Endl]) ;;;
          match suffix "="%char back with
          | None => throw ElementNotFound
          | Some text => ret (Some (read_probabilities text sh))
          end
        else ret (Some sh)
  end.

(** Line 404: the suffix of the file names. *)
Definition num_of (counter : Size) : string :=
  if (counter =? 0)%N then EmptyString else "." ++ String_of_Size counter.

(** Lines 403-417: the files for the engine; the paths replace the place
    holders in the shared arguments. *)
Definition generate_files (opts : Options) (protein : ProteinIdentification)
    (sh : Shared) (choose_params : bool) (temp_dir : string) (counter : Size)
  : M Shared :=
  emit (Put LOG_INFO [Str "Generating temporary files for Fido..."; Endl]) ;;;
  let num := num_of counter in
  let input_graph := temp_dir ++ "fido_input_graph" ++ num ++ ".txt" in
  let sh := with_fido_params sh
              (replaceInStrings "INPUT_GRAPH" input_graph (fido_params_ sh)) in
  peps <- writePSMGraph_ (peptides_ sh) input_graph (opt_prob_param opts)
                         (identifier protein) ;;
  let sh := with_peptides sh peps in
  if choose_params then
    let input_proteins := temp_dir ++ "fido_input_proteins" ++ num ++ ".txt" in
    let sh := with_fido_params sh
                (replaceInStrings "INPUT_PROTEINS" input_proteins
                                  (fido_params_ sh)) in
    writeProteinLists_ protein input_proteins ;;;
    emit (Put LOG_INFO
              [Str "Running Fido with parameter estimation..."; Endl]) ;;;
    ret sh
  else
    emit (Put LOG_INFO [Str "Running Fido with fixed parameters..."; Endl]) ;;;
    ret sh.

(** Lines 422-428: the wait has returned [false]. *)
Definition report_failure (exe : string) (fido_params : list string) : M unit :=
  let cmd := exe ++ " " ++ dquote
             ++ String.concat (dquote ++ " " ++ dquote) fido_params
             ++ dquote in
  emit (Put LOG_ERROR
            [Str ("Fatal error running Fido (command: '" ++ cmd ++ "')." ++ nl);
             Str "Does the Fido executable exist?"; Endl]).

(** Lines 430-520: the output of a process that has finished. *)
Definition read_results (opts : Options) (protein : ProteinIdentification)
    (sh : Shared) (choose_params : bool) (temp_dir : string)
    (keep_zero_group : bool) (counter : Size) (std_out std_err : string)
  : M (bool * ProteinIdentification * Shared) :=
  let num := num_of counter in
  r <- (if choose_params
        then parse_params_output opts temp_dir num std_err sh
        else ret (Some sh)) ;;
  match r with
  | None => ret (false, protein, sh)
  | Some sh =>
      emit (Put LOG_INFO
                [Str "Parsing Fido results and writing output..."; Endl]) ;;;
      when (1 <? debug_level_ opts)%Z
        (write_text_file (temp_dir ++ "fido_output" ++ num ++ ".txt")
                         std_out) ;;;
      parsed <- lift (parse_output keep_zero_group (split_lines std_out)) ;;
      let zero := zero_proteins parsed in
      let protein := with_groups protein (parsed_groups parsed) in
      let protein := with_meta protein "Fido_prob_protein" (prob_protein_ sh) in
      let protein := with_meta protein "Fido_prob_peptide" (prob_peptide_ sh) in
      let protein :=
        with_meta protein "Fido_prob_spurious" (prob_spurious_ sh) in
      emit (Put LOG_INFO
              [Str "Inferred "; Num (protein_counter parsed);
               Str " proteins in ";
               Num (N.of_nat (List.length (parsed_groups parsed)));
               Str " groups (";
               Str (if keep_zero_group && negb (zero =? 0)%N
                    then "including " else EmptyString);
               Num zero;
               Str " proteins with probability zero";
               Str (if keep_zero_group || (zero =? 0)%N
                    then ")." else " not included).");
               Endl]) ;;;
      ret (true, protein, sh)
  end.

(** Lines 396-521.  The result is the returned flag with the run and the
    arguments taken by reference as the call leaves them. *)
Definition runFido_ (opts : Options) (protein : ProteinIdentification)
    (sh : Shared) (choose_params : bool) (exe temp_dir : string)
    (keep_zero_group : bool) (counter : Size)
  : M (bool * ProteinIdentification * Shared) :=
  sh <- generate_files opts protein sh choose_params temp_dir counter ;;
  emit (Start exe (fido_params_ sh)) ;;;
  w <- history ;;
  match QProcess_run exe (fido_params_ sh) w with
  | None =>
      report_failure exe (fido_params_ sh) ;;;
      ret (false, protein, sh)
  | Some (std_out, std_err) =>
      read_results opts protein sh choose_params temp_dir keep_zero_group
                   counter std_out std_err
  end.

End Tool.

(** ** [main_] *)

Inductive ExitCodes :=
| EXECUTION_OK
| INPUT_FILE_EMPTY
| EXTERNAL_PROGRAM_ERROR.

Section Main.
Context `{Ext : Externals}.

(** Lines 563-572: the accessions of all protein hits of all runs. *)
Definition collect_accessions (proteins : list ProteinIdentification)
  : StringSet :=
  fold_left
    (fun accs prot =>
       fold_left (fun accs hit => set_insert accs (accession hit))
                 (hits prot) accs)
    proteins set_empty.

(** The characters of [" \t,{}"]. *)
Definition invalid_chars : string :=
  String " "%char (String "009"%char ",{}").

(** Lines 573-582. *)
Fixpoint sanitize_loop (accs : list string) (counter : Size)
    (sa : StringBimap) : StringBimap :=
  match accs with
  | [] => sa
  | it :: rest =>
      let pos := find_first_of invalid_chars it in
      let sanitized := substr0 it pos ++ "_" ++ String_of_Size counter in
      sanitize_loop rest (Size_incr counter) (bimap_insert sa it sanitized)
  end.

Definition sanitize (proteins : list ProteinIdentification) : StringBimap :=
  sanitize_loop (set_elements (collect_accessions proteins)) 1%N bimap_empty.

Definition choose_params_of (opts : Options) : bool :=
  deq (opt_prob_protein opts) d0 && deq (opt_prob_peptide opts) d0
  && deq (opt_prob_spurious opts) d0.

(** Lines 538-546. *)
Definition executable (opts : Options) : string :=
  let name := if choose_params_of opts then "FidoChooseParameters"
              else "Fido" in
  if str_empty (opt_exe opts) then name
  else if File_isDirectory (opt_exe opts)
       then opt_exe opts ++ QDir_separator ++ name
       else opt_exe opts.

Definition push_if (b : bool) (x : string) (l : list string) : list string :=
  if b then (l ++ [x])%list else l.

(** Lines 594-622: the arguments, with place holders for the paths. *)
Definition initial_fido_params (opts : Options) : list string :=
  let log2_states := opt_log2_states opts in
  let '(fido_params, log2_states) :=
    if choose_params_of opts then
      let l := push_if (opt_no_cleanup opts) "-p" [] in
      let l := push_if (opt_all_PSMs opts) "-a" l in
      let l := push_if (opt_group_level opts) "-g" l in
      let accuracy := opt_accuracy opts in
      let l :=
        if negb (str_empty accuracy) then
          if String.eqb accuracy "best" then (l ++ ["-c 1"])%list
          else if String.eqb accuracy "relaxed" then (l ++ ["-c 2"])%list
          else if String.eqb accuracy "sloppy" then (l ++ ["-c 3"])%list
          else l
        else l in
      let l := (l ++ ["INPUT_GRAPH"; "INPUT_PROTEINS"])%list in
      let log2_states_precalc := opt_log2_states_precalc opts in
      if negb (log2_states_precalc =? 0)%Z then
        ((l ++ [String_of_Int log2_states_precalc])%list,
         if (log2_states =? 0)%Z then 18%Z else log2_states)
      else (l, log2_states)
    else
      (["INPUT_GRAPH"; QString_number (opt_prob_protein opts);
        QString_number (opt_prob_peptide opts);
        QString_number (opt_prob_spurious opts)], log2_states) in
  if negb (log2_states =? 0)%Z
  then (fido_params ++ [String_of_Int log2_states])%list
  else fido_params.

(** Lines 628-637: the runs one after the other; [fido_success] is
    assigned by every call. *)
Fixpoint separate_runs_loop (sa : StringBimap) (opts : Options)
    (exe temp_dir : string) (proteins : list ProteinIdentification)
    (counter : Size) (sh : Shared) (fido_success : bool)
  : M (bool * list ProteinIdentification * Shared) :=
  match proteins with
  | [] => ret (fido_success, [], sh)
  | prot :: rest =>
      emit (Put LOG_INFO [Str "Protein identification run "; Num counter;
                          Str ":"; Endl]) ;;;
      r <- runFido_ sa opts prot sh (choose_params_of opts) exe temp_dir
                    (opt_keep_zero_group opts) counter ;;
      let '(fido_success, prot, sh) := r in
      r <- separate_runs_loop sa opts exe temp_dir rest (Size_incr counter)
                              sh fido_success ;;
      let '(fido_success, rest, sh) := r in
      ret (fido_success, prot :: rest, sh)
  end.

(** Lines 656-666: the map from accession to hit, filled from the last
    hit of the last run to the first hit of the first run.  The map holds
    pointers into [proteins], which is not changed before line 671 reads
    them, so it is given the hits themselves. *)
Definition build_hit_map (proteins : list ProteinIdentification)
  : SortedListString.map ProteinHit :=
  fold_left
    (fun hit_map prot =>
       fold_left (fun hit_map hit => map.put hit_map (accession hit) hit)
                 (rev (hits prot)) hit_map)
    (rev proteins) map.empty.

(** Lines 643-672: the run that holds the hits of all runs. *)
Definition merged_run (proteins : list ProteinIdentification)
  : ProteinIdentification :=
  {| identifier := EmptyString;
     search_engine := "Fido";
     score_type := "Posterior Probability";
     higher_score_better := true;
     hits := List.map snd (map_entries (build_hit_map proteins));
     groups := [];
     meta := [] |}.

(** Lines 682-686. *)
Fixpoint write_scores (hs : list ProteinHit) (accs : list string)
    (p : double) : M (list ProteinHit) :=
  match accs with
  | [] => ret hs
  | acc :: rest =>
      match findHit_setScore hs acc p with
      | None => end_dereferenced
      | Some hs => write_scores hs rest p
      end
  end.

(** Lines 678-687. *)
Fixpoint write_group_scores (hs : list ProteinHit) (gs : list ProteinGroup)
  : M (list ProteinHit) :=
  match gs with
  | [] => ret hs
  | g :: rest =>
      hs <- write_scores hs (accessions g) (probability g) ;;
      write_group_scores hs rest
  end.

(** Lines 524-721, after the options have been read; [proteins] and
    [peptides] are what [IdXMLFile().load] gives for the input file. *)
Definition main_ (opts : Options) (proteins : list ProteinIdentification)
    (peptides : list PeptideIdentification) : M ExitCodes :=
  let choose_params := choose_params_of opts in
  let exe := executable opts in
  emit (Put LOG_INFO [Str "Reading input data..."; Endl]) ;;;
  emit (Load (opt_in opts)) ;;;
  if is_nil proteins || is_nil peptides then
    emit (Put LOG_ERROR
              [Str "Error: Input file '"; Str (opt_in opts);
               Str "' should contain both protein and peptide data."; Endl]) ;;;
    ret INPUT_FILE_EMPTY
  else
    let sa := sanitize proteins in
    let temp_dir :=
      QDir_toNativeSeparators
        (File_getTempDirectory ++ "/" ++ File_getUniqueName ++ "/") in
    emit (Mkpath temp_dir) ;;;
    let sh := {| peptides_ := peptides;
                 fido_params_ := initial_fido_params opts;
                 prob_protein_ := opt_prob_protein opts;
                 prob_peptide_ := opt_prob_peptide opts;
                 prob_spurious_ := opt_prob_spurious opts |} in
    r <- (if opt_separate_runs opts then
            separate_runs_loop sa opts exe temp_dir proteins 1%N sh false
          else
            match proteins with
            | _ :: _ :: _ =>
                let all_proteins := merged_run proteins in
                let sh := with_peptides sh
                  (List.map (fun pep => setIdentifier pep EmptyString)
                            (peptides_ sh)) in
                r <- runFido_ sa opts all_proteins sh choose_params exe
                              temp_dir (opt_keep_zero_group opts) 0%N ;;
                let '(fido_success, all_proteins, sh) := r in
                hs <- write_group_scores (hits all_proteins)
                                         (groups all_proteins) ;;
                ret (fido_success, [with_hits all_proteins hs], sh)
            | prot :: rest =>
                r <- runFido_ sa opts prot sh choose_params exe temp_dir
                              (opt_keep_zero_group opts) 0%N ;;
                let '(fido_success, prot, sh) := r in
                ret (fido_success, prot :: rest, sh)
            | [] => end_dereferenced
            end) ;;
    let '(fido_success, proteins, sh) := r in
    emit (Store (opt_out opts) proteins (peptides_ sh)) ;;;
    (if (1 <? debug_level_ opts)%Z then
       emit (Put LOG_DEBUG
                 [Str "Keeping temporary files at '"; Str temp_dir;
                  Str "'. Set debug level to 0 or 1 to remove them."; Endl])
     else
       emit (Put LOG_INFO [Str "Removing temporary files..."; Endl]) ;;;
       emit (RemoveDir temp_dir) ;;;
       when (debug_level_ opts =? 1)%Z
         (emit (Put LOG_DEBUG
                    [Str ("Set debug level to 2 or higher to keep temporary "
                          ++ "files at '" ++ temp_dir ++ "'."); Endl]))) ;;;
    ret (if fido_success then EXECUTION_OK else EXTERNAL_PROGRAM_ERROR).

End Main.

(* ===================================================================== *)
(** * A small environment and input to run the tool on *)

Module Stub.

Definition digit (c : ascii) : option N :=
  let n := N_of_ascii c in
  if (48 <=? n)%N && (n <=? 57)%N then Some (n - 48)%N else None.

Fixpoint digits_of (s : string) (m : N) (n : nat) : N * nat * string :=
  match s with
  | String c r =>
      match digit c with
      | Some d => digits_of r (10 * m + d)%N (S n)
      | None => (m, n, s)
      end
  | EmptyString => (m, n, s)
  end.

Definition double_of_N (n : N) : double :=
  binary_normalize 53 1024 (Z.of_N n) 0 false.

(** Unsigned decimals [ddd] and [ddd.ddd], rounded once by the division;
    this is the value [strtod] gives as long as the digits and the power of
    ten are exact doubles, which is all the examples need. *)
Definition read_decimal (s : string) : option (double * string) :=
  let '(i, ni, r) := digits_of s 0%N 0%nat in
  match r with
  | String "."%char r' =>
      let '(m, nf, r'') := digits_of r' i 0%nat in
      if (ni + nf =? 0)%nat then None
      else Some (SFdiv 53 1024 (double_of_N m) (double_of_N (10 ^ N.of_nat nf)),
                 r'')
  | _ => if (ni =? 0)%nat then None else Some (double_of_N i, r)
  end.

Definition show_double (d : double) : string :=
  if deq d d0 then "0" else if deq d d1 then "1" else "#".

(** The tokens of the "r" lines written to [path] so far. *)
Fixpoint tokens_written (path : string) (w : list Event) : list string :=
  match w with
  | Put (File p) [Str "r "; Str tok; Endl] :: r =>
      if String.eqb p path then tok :: tokens_written path r
      else tokens_written path r
  | _ :: r => tokens_written path r
  | [] => []
  end.

(** An engine that puts every protein of its graph file (the first
    argument that is a path below "/tmp/") in a group of its own, with
    probability 0.5. *)
Definition engine (args : list string) (w : list Event) : string * string :=
  match find (fun a => String.prefix "/tmp/" a) args with
  | Some graph =>
      (String.concat EmptyString
         (List.map (fun tok => "0.5 { " ++ tok ++ " }" ++ nl)
                   (tokens_written graph w)),
       "Using best gamma, alpha, beta = 0.5 0.25 0.125")
  | None => (EmptyString, EmptyString)
  end.

Definition count_starts (w : list Event) : nat :=
  List.length (filter (fun e => match e with Start _ _ => true | _ => false end)
                      w).

(** The environment: the engine fails on the calls whose number (from 1)
    is in [failing]; on the other calls it prints [out] when given, and
    what [engine] computes otherwise. *)
Definition externals (failing : list nat) (out : option string) : Externals :=
  {| istream_double := read_decimal;
     double_toString := show_double;
     QString_number := show_double;
     File_isDirectory := fun _ => false;
     QDir_separator := "/";
     File_getTempDirectory := "/tmp";
     File_getUniqueName := "fido";
     QDir_toNativeSeparators := fun p => p;
     QProcess_run := fun exe args w =>
       if existsb (Nat.eqb (count_starts w)) failing then None
       else match out with
            | Some text => Some (text, EmptyString)
            | None => Some (engine args w)
            end |}.

Definition options (separate_runs : bool) (prob : double) : Options :=
  {| opt_in := "in.idXML"; opt_out := "out.idXML"; opt_exe := EmptyString;
     opt_prob_param := "Posterior Probability_score";
     opt_separate_runs := separate_runs; opt_keep_zero_group := false;
     opt_no_cleanup := false; opt_all_PSMs := false;
     opt_group_level := false; opt_accuracy := EmptyString;
     opt_log2_states := 0; opt_log2_states_precalc := 0;
     opt_prob_protein := prob; opt_prob_peptide := prob;
     opt_prob_spurious := prob; debug_level_ := 0 |}.

Definition half : double := S754_finite false 4503599627370496 (-53).

Definition protein_hit (acc label : string) : ProteinHit :=
  {| accession := acc; pr_score := d0;
     pr_meta := [("target_decoy", STRING_VALUE label)] |}.

Definition run (id : string) (hs : list ProteinHit) : ProteinIdentification :=
  {| identifier := id; search_engine := "engine"; score_type := "score";
     higher_score_better := true; hits := hs; groups := []; meta := [] |}.

Definition peptide (id seq : string) (score : double) (accs : list string)
  : PeptideIdentification :=
  {| pi_identifier := id; pi_score_type := "Posterior Probability";
     pi_higher_score_better := true;
     pi_hits := [{| ph_sequence := seq; ph_score := score; ph_meta := [];
                    ph_evidences := accs |}] |}.

(** Two runs, each with a target, a decoy and one peptide. *)
Definition two_runs : list ProteinIdentification :=
  [run "run1" [protein_hit "P1" "target"; protein_hit "D1" "decoy"];
   run "run2" [protein_hit "P2" "target"; protein_hit "D2" "decoy"]].

Definition two_peptides : list PeptideIdentification :=
  [peptide "run1" "AAK" half ["P1"]; peptide "run2" "CCK" half ["P2"]].

(** One run whose decoy carries no "target_decoy" value. *)
Definition unlabelled_run : list ProteinIdentification :=
  [run "run1" [protein_hit "P1" "target";
               {| accession := "D1"; pr_score := d0; pr_meta := [] |}]].

Definition one_peptide : list PeptideIdentification :=
  [peptide "run1" "AAK" half ["P1"]].

(** A peptide that refers to an accession no protein hit has. *)
Definition dangling_peptide : list PeptideIdentification :=
  [peptide "run1" "AAK" half ["Q9"]].

(** Posterior error probabilities, lower is better. *)
Definition pep_peptide (id seq : string) (score : double) (accs : list string)
  : PeptideIdentification :=
  {| pi_identifier := id; pi_score_type := "Posterior Error Probability";
     pi_higher_score_better := false;
     pi_hits := [{| ph_sequence := seq; ph_score := score; ph_meta := [];
                    ph_evidences := accs |}] |}.

Definition quarter : double := S754_finite false 4503599627370496 (-54).

(** What the engine prints for the two runs when it gives the decoys the
    probability zero. *)
Definition output_text : string :=
  "0.5 { P2_4 , P1_3 }" ++ nl ++ "0 { D2_2 , D1_1 }" ++ nl
  ++ "0.25 { P1_3 }" ++ nl.

Definition two_pep_peptides : list PeptideIdentification :=
  [pep_peptide "run1" "AAK" half ["P1"];
   pep_peptide "run1" "CCK" quarter ["P1"; "D1"]].

End Stub.

(* ===================================================================== *)
(** * Running the tool on the example *)

Definition is_start (e : Event) : bool :=
  match e with Start _ _ => true | _ => false end.

Definition stored_runs (e : Event) : list ProteinIdentification :=
  match e with Store _ proteins _ => proteins | _ => [] end.

(** C1 (evaluates the code where the claim fails).  Two runs are processed
    separately with the parameter search.  The graph of the second run is
    written to its own file, "fido_input_graph.2.txt", but the engine is
    started both times on the files of the first run: the place holders in
    the shared argument list are gone after the first call.  The group of
    the first run's protein ends up attached to the second run. *)
Theorem separate_runs_second_engine_call_reads_first_graph :
  let w := snd (@main_ (Stub.externals [] None) (Stub.options true d0)
                       Stub.two_runs Stub.two_peptides []) in
  In (Open "/tmp/fido/fido_input_graph.2.txt") w /\
  In (Put (File "/tmp/fido/fido_input_graph.2.txt")
          [Str "r "; Str "P2_4"; Endl]) w /\
  filter is_start w =
    [Start "FidoChooseParameters"
           ["/tmp/fido/fido_input_graph.1.txt";
            "/tmp/fido/fido_input_proteins.1.txt"];
     Start "FidoChooseParameters"
           ["/tmp/fido/fido_input_graph.1.txt";
            "/tmp/fido/fido_input_proteins.1.txt"]] /\
  List.map (fun r => (identifier r, List.map accessions (groups r)))
           (flat_map stored_runs w) =
    [("run1", [["P1"]]); ("run2", [["P1"]])].
Proof.
  vm_compute. repeat split; auto 40.
Qed.

(* ===================================================================== *)
(** * Comparing doubles *)

Lemma compare_cont_Eq_antisym (p q : positive) :
  Pos.compare_cont Eq p q = CompOpp (Pos.compare_cont Eq q p).
Proof. exact (Pos.compare_antisym q p). Qed.

Lemma SFcompare_antisym (a b : double) :
  SFcompare a b = option_map CompOpp (SFcompare b a).
Proof.
  destruct a as [sa|sa| |sa ma ea], b as [sb|sb| |sb mb eb];
    try destruct sa; try destruct sb; try reflexivity;
    unfold SFcompare, option_map; f_equal;
    rewrite (Z.compare_antisym ea eb), (compare_cont_Eq_antisym mb ma);
    destruct (Z.compare ea eb); cbn [CompOpp]; try reflexivity;
    destruct (Pos.compare_cont Eq ma mb); reflexivity.
Qed.

Lemma SFcompare_some (a b : double) :
  is_nan a = false -> is_nan b = false -> exists c, SFcompare a b = Some c.
Proof.
  destruct a as [sa|sa| |sa ma ea], b as [sb|sb| |sb mb eb];
    try discriminate; intros _ _; unfold SFcompare; eauto.
Qed.

(** For a score that is a number, lines 293-300 leave the reason untouched
    exactly when the score is in [[0, 1]], and name the bound otherwise. *)
Lemma check_range_spec (score : double) (reason : string) :
  is_nan score = false ->
  (SFleb d0 score && SFleb score d1 = true -> check_range score reason = reason)
  /\ (SFleb d0 score = false -> check_range score reason = "score < 0")
  /\ (SFleb d0 score = true -> SFleb score d1 = false ->
      check_range score reason = "score > 1").
Proof.
  intros Hnan. unfold check_range, dlt, dgt, SFltb, SFleb.
  destruct (SFcompare_some d0 score eq_refl Hnan) as [c0 H0].
  destruct (SFcompare_some score d1 Hnan eq_refl) as [c1 H1].
  rewrite (SFcompare_antisym score d0), (SFcompare_antisym d1 score), H0, H1.
  destruct c0, c1; cbn [option_map CompOpp andb]; repeat split; intros;
    congruence.
Qed.

(** C3 (evaluates the code where the claim fails).  A hit whose score is
    not a number passes both comparisons of lines 293-300, so it is encoded,
    with a "p" line holding the NaN, although the score is not in
    [[0, 1]]. *)
Theorem nan_score_is_encoded :
  let pep := Stub.peptide "run1" "AAK" S754_nan ["P1"] in
  writePSMGraph_ (sanitize Stub.two_runs) [pep] "graph.txt" EmptyString
                 EmptyString [] =
    (Normal [pep],
     [Open "graph.txt";
      Put (File "graph.txt") [Str "e "; Str "AAK"; Endl];
      Put (File "graph.txt") [Str "r "; Str "P1_3"; Endl];
      Put (File "graph.txt") [Str "p "; Dbl S754_nan; Endl];
      Close "graph.txt"])
  /\ SFleb d0 S754_nan = false /\ SFleb S754_nan d1 = false.
Proof.
  vm_compute. repeat split.
Qed.

(* ===================================================================== *)
(** * Sets and maps of strings *)

#[local] Existing Instance SortedListString.ok.

Definition str_lt (a b : string) : Prop := String.ltb a b = true.

Lemma str_lt_irrefl (a : string) : ~ str_lt a a.
Proof. unfold str_lt. rewrite String.ltb_antirefl. discriminate. Qed.

Lemma str_lt_trans (a b c : string) : str_lt a b -> str_lt b c -> str_lt a c.
Proof. apply String.ltb_trans. Qed.

Lemma fold_left_rev {A B} (f : A -> B -> A) (l : list B) (a : A) :
  fold_left f (rev l) a = fold_right (fun x acc => f acc x) a l.
Proof.
  induction l as [|x l IH]; cbn; [reflexivity|].
  now rewrite fold_left_app, IH.
Qed.

Section SortedEntries.
Context {T : Type}.

Let params := SortedListString.Build_parameters T.

Lemma lookup_In (l : list (string * T)) (k : string) (v : T) :
  @SortedList.sorted params l = true ->
  (In (k, v) l <-> @SortedList.lookup params l k = Some v).
Proof.
  induction l as [|[k1 v1] l IH]; intros Hs.
  - cbn. split; [tauto | discriminate].
  - destruct (@SortedList.sorted_cons params SortedListString.string_strict_order
                l k1 v1 Hs) as (Hs' & Hnone & _).
    rewrite (@SortedList.lookup_cons params).
    destruct (@SortedList.eqb params k k1) eqn:E.
    + apply (@SortedList.eqb_true params SortedListString.string_strict_order)
        in E. subst k1. split.
      * intros [H | H]; [inversion H; reflexivity|].
        apply IH in H; [|assumption]. rewrite H in Hnone. discriminate.
      * intros H. left. inversion H. reflexivity.
    + apply (@SortedList.eqb_false params SortedListString.string_strict_order)
        in E. rewrite <- (IH Hs'). split.
      * intros [H | H]; [inversion H; subst; contradiction | assumption].
      * now right.
Qed.

Lemma sorted_keys (l : list (string * T)) :
  @SortedList.sorted params l = true ->
  StronglySorted str_lt (List.map fst l).
Proof.
  intros Hs. apply Sorted_StronglySorted.
  { intros a b c. apply str_lt_trans. }
  induction l as [|[k1 v1] l IH]; cbn; [constructor|].
  destruct l as [|[k2 v2] l].
  - repeat constructor.
  - cbn in Hs. apply andb_true_iff in Hs. destruct Hs as [H12 Hs].
    constructor; [now apply IH | constructor; exact H12].
Qed.

Lemma entries_get (m : SortedListString.map T) (k : string) (v : T) :
  In (k, v) (map_entries m) <-> map.get m k = Some v.
Proof. apply lookup_In, SortedList._value_ok. Qed.

Lemma entries_sorted (m : SortedListString.map T) :
  StronglySorted str_lt (List.map fst (map_entries m)).
Proof. apply sorted_keys, SortedList._value_ok. Qed.

Lemma get_put (m : SortedListString.map T) (k k' : string) (v : T) :
  map.get (map.put m k v) k' = if String.eqb k k' then Some v else map.get m k'.
Proof.
  destruct (String.eqb_spec k k') as [->|Hne].
  - apply map.get_put_same.
  - apply map.get_put_diff. congruence.
Qed.

End SortedEntries.

Lemma set_elements_In (s : StringSet) (x : string) :
  In x (set_elements s) <-> map.get s x = Some tt.
Proof.
  unfold set_elements. rewrite in_map_iff. split.
  - intros ([k []] & <- & H). now apply entries_get in H.
  - intros H. exists (x, tt). split; [reflexivity | now apply entries_get].
Qed.

Lemma set_elements_sorted (s : StringSet) :
  StronglySorted str_lt (set_elements s).
Proof. apply entries_sorted. Qed.

Lemma set_insert_In (s : StringSet) (y x : string) :
  In x (set_elements (set_insert s y)) <-> y = x \/ In x (set_elements s).
Proof.
  rewrite !set_elements_In. unfold set_insert. rewrite get_put.
  destruct (String.eqb_spec y x); intuition congruence.
Qed.

Lemma set_empty_In (x : string) : ~ In x (set_elements set_empty).
Proof. intros H. exact H. Qed.

Lemma fold_set_insert_In (l : list string) (s : StringSet) (x : string) :
  In x (set_elements (fold_left set_insert l s)) <->
  In x l \/ In x (set_elements s).
Proof.
  revert s. induction l as [|y l IH]; intros s; cbn [fold_left In].
  - tauto.
  - rewrite IH, set_insert_In. tauto.
Qed.

Lemma StronglySorted_lt_NoDup (l : list string) :
  StronglySorted str_lt l -> NoDup l.
Proof.
  induction 1 as [|a l Hs IH Hall]; constructor; [|assumption].
  intros Hin. rewrite Forall_forall in Hall.
  exact (str_lt_irrefl a (Hall a Hin)).
Qed.

(* ===================================================================== *)
(** * Merging the runs *)

Definition has_accession (acc : string) (h : ProteinHit) : bool :=
  String.eqb (accession h) acc.

(** The map of lines 656-666 is the map filled from the hits of all runs in
    forward order, where a hit never replaces an earlier one. *)
Lemma build_hit_map_fold (proteins : list ProteinIdentification) :
  build_hit_map proteins =
  fold_right (fun hit (m : SortedListString.map ProteinHit) =>
                map.put m (accession hit) hit)
             map.empty (flat_map hits proteins).
Proof.
  unfold build_hit_map. rewrite fold_left_rev.
  induction proteins as [|p ps IH]; cbn [fold_right flat_map]; [reflexivity|].
  rewrite fold_left_rev, fold_right_app, IH. reflexivity.
Qed.

Lemma get_fold_put (l : list ProteinHit) (k : string) :
  map.get (fold_right (fun hit (m : SortedListString.map ProteinHit) =>
                         map.put m (accession hit) hit)
                      map.empty l) k
  = find (has_accession k) l.
Proof.
  induction l as [|h l IH]; cbn [fold_right find].
  - apply map.get_empty.
  - rewrite get_put, IH. reflexivity.
Qed.

Lemma get_build_hit_map (proteins : list ProteinIdentification) (k : string) :
  map.get (build_hit_map proteins) k =
  find (has_accession k) (flat_map hits proteins).
Proof. rewrite build_hit_map_fold. apply get_fold_put. Qed.

Lemma merged_entries_key (proteins : list ProteinIdentification) k h :
  In (k, h) (map_entries (build_hit_map proteins)) -> accession h = k.
Proof.
  intros H. apply entries_get in H. rewrite get_build_hit_map in H.
  apply find_some in H. destruct H as [_ H]. now apply String.eqb_eq in H.
Qed.

Lemma merged_accessions (proteins : list ProteinIdentification) :
  List.map accession (hits (merged_run proteins)) =
  List.map fst (map_entries (build_hit_map proteins)).
Proof.
  cbn [merged_run hits]. rewrite map_map. apply map_ext_in.
  intros [k h] H. cbn. now apply merged_entries_key in H.
Qed.

Lemma pooled_merge_hits_first (proteins : list ProteinIdentification)
    (h : ProteinHit) :
  In h (hits (merged_run proteins)) <->
  find (has_accession (accession h)) (flat_map hits proteins) = Some h.
Proof.
  cbn [merged_run hits]. rewrite in_map_iff. split.
  - intros ([k h'] & Heq & Hin). cbn in Heq. subst h'.
    pose proof (merged_entries_key _ _ _ Hin) as Hk. subst k.
    apply entries_get in Hin. now rewrite get_build_hit_map in Hin.
  - intros H. exists (accession h, h). split; [reflexivity|].
    apply entries_get. now rewrite get_build_hit_map.
Qed.

(** C4.  The run that pools several runs has its hits in strictly ascending
    order of accession, so one hit for each accession; a hit is in the pooled
    run exactly when it is the first hit with its accession in the hits of
    all runs taken in forward order; and every accession of a hit of some run
    is there. *)
Theorem pooled_merge_keeps_first_hit (proteins : list ProteinIdentification) :
  let merged := hits (merged_run proteins) in
  let all := flat_map hits proteins in
  StronglySorted str_lt (List.map accession merged)
  /\ (forall h, In h merged <-> find (has_accession (accession h)) all = Some h)
  /\ (forall h, In h all -> In (accession h) (List.map accession merged)).
Proof.
  cbv zeta. split; [|split].
  - rewrite merged_accessions. apply entries_sorted.
  - apply pooled_merge_hits_first.
  - intros h Hin.
    destruct (find (has_accession (accession h)) (flat_map hits proteins))
      as [h0|] eqn:E.
    + pose proof (find_some _ _ E) as [_ Hacc].
      apply String.eqb_eq in Hacc. rewrite <- Hacc.
      apply in_map. apply pooled_merge_hits_first. now rewrite Hacc.
    + exfalso. apply (find_none _ _ E) in Hin.
      unfold has_accession in Hin. now rewrite String.eqb_refl in Hin.
Qed.

(* ===================================================================== *)
(** * Sanitized accessions *)

(** ** The decimal counter *)

Definition is_digit (c : ascii) : bool :=
  let n := nat_of_ascii c in (48 <=? n)%nat && (n <=? 57)%nat.

Fixpoint all_digits (s : string) : bool :=
  match s with
  | EmptyString => true
  | String c r => is_digit c && all_digits r
  end.

Lemma string_of_uint_digits (d : Decimal.uint) :
  all_digits (NilEmpty.string_of_uint d) = true.
Proof. induction d; cbn; auto. Qed.

Lemma String_of_Size_digits (n : Size) : all_digits (String_of_Size n) = true.
Proof. apply string_of_uint_digits. Qed.

Lemma String_of_Size_inj (n m : Size) :
  String_of_Size n = String_of_Size m -> n = m.
Proof.
  unfold String_of_Size. intros H.
  apply DecimalN.Unsigned.to_uint_inj.
  apply (f_equal NilEmpty.uint_of_string) in H.
  rewrite !NilEmpty.usu in H. congruence.
Qed.

Lemma all_digits_underscore (p r : string) :
  all_digits (p ++ String "_"%char r) = false.
Proof.
  induction p as [|c p IH]; cbn [append all_digits]; [reflexivity|].
  rewrite IH. apply andb_false_r.
Qed.

(** Two tokens that are equal end in the same counter: the counter is what
    follows the last underscore. *)
Lemma token_counter (p p' d d' : string) :
  all_digits d = true -> all_digits d' = true ->
  p ++ String "_"%char d = p' ++ String "_"%char d' -> d = d'.
Proof.
  intros Hd Hd'. revert p'.
  induction p as [|c p IH]; intros [|c' p'] H; cbn [append] in H.
  - congruence.
  - injection H as _ H. rewrite H, all_digits_underscore in Hd. discriminate.
  - injection H as _ H. rewrite <- H, all_digits_underscore in Hd'.
    discriminate.
  - injection H as _ H. exact (IH _ H).
Qed.

(** The token lines 578-580 make for the accession [it] and the counter. *)
Definition token (it : string) (counter : Size) : string :=
  substr0 it (find_first_of invalid_chars it) ++ "_" ++ String_of_Size counter.

Lemma token_inj_counter (a b : string) (n m : Size) :
  token a n = token b m -> n = m.
Proof.
  intros H. apply String_of_Size_inj.
  exact (token_counter _ _ _ _ (String_of_Size_digits n)
                       (String_of_Size_digits m) H).
Qed.

(** ** The prefix *)

Fixpoint no_char_of (cs s : string) : bool :=
  match s with
  | EmptyString => true
  | String c r => negb (mem_char c cs) && no_char_of cs r
  end.

Definition starts_with_char_of (cs s : string) : bool :=
  match s with
  | EmptyString => true
  | String c _ => mem_char c cs
  end.

(** [substr(0, find_first_of(cs))] is the longest prefix without a character
    of [cs]. *)
Lemma valid_prefix_spec (cs s : string) :
  exists rest,
    s = substr0 s (find_first_of cs s) ++ rest
    /\ no_char_of cs (substr0 s (find_first_of cs s)) = true
    /\ starts_with_char_of cs rest = true.
Proof.
  induction s as [|c s (rest & Heq & Hno & Hst)]; cbn.
  - exists EmptyString. auto.
  - destruct (mem_char c cs) eqn:E; cbn.
    + exists (String c s). cbn. rewrite E. auto.
    + destruct (find_first_of cs s) as [n|]; cbn in *.
      * exists rest. rewrite E. cbn. split; [congruence | auto].
      * exists rest. rewrite E. cbn. split; [congruence | auto].
Qed.

(** ** The bimap *)

Definition bimap_ok (b : StringBimap) : Prop :=
  forall l r, map.get (left b) l = Some r <-> map.get (right b) r = Some l.

Lemma bimap_empty_ok : bimap_ok bimap_empty.
Proof.
  intros l r. cbn [bimap_empty left right]. rewrite !map.get_empty.
  split; discriminate.
Qed.

Lemma bimap_insert_ok (b : StringBimap) (l r : string) :
  bimap_ok b -> bimap_ok (bimap_insert b l r).
Proof.
  intros Hok. unfold bimap_insert.
  destruct (map.get (left b) l) eqn:El; [exact Hok|].
  destruct (map.get (right b) r) eqn:Er; [exact Hok|].
  intros l' r'. cbn [left right]. rewrite !get_put.
  destruct (String.eqb_spec l l') as [<-|Hl], (String.eqb_spec r r') as [<-|Hr].
  - split; reflexivity.
  - split; intros H.
    + injection H as H. contradiction.
    + apply Hok in H. rewrite El in H. discriminate.
  - split; intros H.
    + apply Hok in H. rewrite Er in H. discriminate.
    + injection H as H. contradiction.
  - apply Hok.
Qed.

Lemma sanitize_loop_ok (accs : list string) (c : Size) (sa : StringBimap) :
  bimap_ok sa -> bimap_ok (sanitize_loop accs c sa).
Proof.
  revert c sa. induction accs as [|it rest IH]; intros c sa H; cbn.
  - exact H.
  - apply IH, bimap_insert_ok, H.
Qed.

Lemma sanitize_ok (proteins : list ProteinIdentification) :
  bimap_ok (sanitize proteins).
Proof. apply sanitize_loop_ok, bimap_empty_ok. Qed.

(** The right keys of [sa] are tokens with a counter below [c]. *)
Definition counters_below (c : N) (sa : StringBimap) : Prop :=
  forall t a, map.get (right sa) t = Some a ->
              exists it k, t = token it k /\ (k < c)%N.

Lemma Size_incr_small (c : Size) :
  (c + 1 < Size_modulus)%N -> Size_incr c = (c + 1)%N.
Proof. intros H. unfold Size_incr, Size_add. now apply N.mod_small. Qed.

Lemma sanitize_loop_spec (accs : list string) :
  forall (c : Size) (sa : StringBimap),
    NoDup accs ->
    (forall a, In a accs -> map.get (left sa) a = None) ->
    (c + N.of_nat (List.length accs) <= Size_modulus)%N ->
    counters_below c sa ->
    let sa' := sanitize_loop accs c sa in
    (forall i a, nth_error accs i = Some a ->
                 map.get (left sa') a = Some (token a (c + N.of_nat i)%N))
    /\ (forall x, ~ In x accs -> map.get (left sa') x = map.get (left sa) x).
Proof.
  induction accs as [|it rest IH]; intros c sa Hnd Hfresh Hbound Hbelow.
  - cbn. split; [intros [|i] a H; discriminate | reflexivity].
  - cbn [sanitize_loop]. fold (token it c).
    inversion Hnd as [|? ? Hnotin Hnd']; subst.
    assert (Hl : map.get (left sa) it = None) by (apply Hfresh; now left).
    assert (Hr : map.get (right sa) (token it c) = None).
    { destruct (map.get (right sa) (token it c)) as [a|] eqn:E; [|reflexivity].
      destruct (Hbelow _ _ E) as (it' & k & Ht & Hk).
      apply token_inj_counter in Ht. lia. }
    set (sa1 := bimap_insert sa it (token it c)).
    assert (Hsa1 : sa1 = {| left := map.put (left sa) it (token it c);
                            right := map.put (right sa) (token it c) it |}).
    { unfold sa1, bimap_insert. now rewrite Hl, Hr. }
    assert (Hkeep : forall x, ~ In x rest ->
              map.get (left (sanitize_loop rest (Size_incr c) sa1)) x
              = map.get (left sa1) x
              /\ forall i a, nth_error rest i = Some a ->
                   map.get (left (sanitize_loop rest (Size_incr c) sa1)) a
                   = Some (token a (c + 1 + N.of_nat i)%N)).
    { intros x Hx. destruct rest as [|it2 rest2].
      - cbn. split; [reflexivity | intros [|i] a H; discriminate].
      - assert (Hc : (c + 1 < Size_modulus)%N).
        { cbn [List.length] in Hbound. lia. }
        rewrite (Size_incr_small c Hc).
        destruct (IH (c + 1)%N sa1 Hnd') as [H1 H2].
        + intros a Ha. rewrite Hsa1. cbn [left]. rewrite get_put.
          destruct (String.eqb_spec it a) as [->|]; [contradiction|].
          apply Hfresh. now right.
        + cbn [List.length] in Hbound |- *. lia.
        + intros t a. rewrite Hsa1. cbn [right]. rewrite get_put.
          destruct (String.eqb_spec (token it c) t) as [<-|].
          * intros _. exists it, c. split; [reflexivity | lia].
          * intros Hg. destruct (Hbelow _ _ Hg) as (it' & k & Ht & Hk).
            exists it', k. split; [assumption | lia].
        + split; [now apply H2 | exact H1]. }
    split.
    + intros [|i] a H; cbn in H.
      * injection H as <-. destruct (Hkeep it Hnotin) as [-> _].
        rewrite Hsa1. cbn [left]. rewrite get_put, String.eqb_refl.
        now rewrite N.add_0_r.
      * destruct (Hkeep it Hnotin) as [_ H2]. rewrite (H2 _ _ H).
        do 2 f_equal. lia.
    + intros x Hx. cbn [In] in Hx.
      destruct (Hkeep x) as [-> _]; [tauto|].
      rewrite Hsa1. cbn [left]. rewrite get_put.
      destruct (String.eqb_spec it x); [tauto | reflexivity].
Qed.

Lemma collect_accessions_In (proteins : list ProteinIdentification)
    (x : string) :
  In x (set_elements (collect_accessions proteins)) <->
  exists hit, In hit (flat_map hits proteins) /\ accession hit = x.
Proof.
  unfold collect_accessions.
  assert (Hhits : forall hs s,
            In x (set_elements
                    (fold_left (fun accs hit => set_insert accs (accession hit))
                               hs s)) <->
            (exists hit, In hit hs /\ accession hit = x)
            \/ In x (set_elements s)).
  { induction hs as [|h hs IH]; intros s; cbn [fold_left].
    - split; [now right | intros [(h & [] & _) | H]; exact H].
    - rewrite IH, set_insert_In. split.
      + intros [(h' & Hin & Hacc) | [Hacc | Hs]].
        * left. exists h'. split; [now right | assumption].
        * left. exists h. split; [now left | assumption].
        * now right.
      + intros [(h' & [<- | Hin] & Hacc) | Hs]; eauto. }
  assert (Hruns : forall ps s,
            In x (set_elements
                    (fold_left
                       (fun accs prot =>
                          fold_left
                            (fun accs hit => set_insert accs (accession hit))
                            (hits prot) accs) ps s)) <->
            (exists hit, In hit (flat_map hits ps) /\ accession hit = x)
            \/ In x (set_elements s)).
  { induction ps as [|p ps IH]; intros s; cbn [fold_left flat_map].
    - split; [now right | intros [(h & [] & _) | H]; exact H].
    - rewrite IH, Hhits. split.
      + intros [(h & Hin & Hacc) | [(h & Hin & Hacc) | Hs]].
        * left. exists h. split; [apply in_or_app; now right | assumption].
        * left. exists h. split; [apply in_or_app; now left | assumption].
        * now right.
      + intros [(h & Hin & Hacc) | Hs]; [|tauto].
        apply in_app_or in Hin. destruct Hin; eauto. }
  rewrite Hruns. split; [intros [H | H]; [exact H | destruct H] | now left].
Qed.

(** C2.  The accessions of all protein hits are put in a sorted set; the
    accession at position [i] gets the token made of its prefix before the
    first space, tab, comma or brace, an underscore and the counter [i + 1];
    the token is mapped back to the accession; and no two accessions have
    the same token.  The set has fewer than [2^64] accessions, so the
    counter does not wrap. *)
Theorem sanitize_round_trip (proteins : list ProteinIdentification) :
  let accs := set_elements (collect_accessions proteins) in
  let sa := sanitize proteins in
  (N.of_nat (List.length accs) < Size_modulus)%N ->
  StronglySorted str_lt accs
  /\ (forall A, In A accs <->
                exists hit, In hit (flat_map hits proteins) /\ accession hit = A)
  /\ (forall i A, nth_error accs i = Some A ->
        let tok := substr0 A (find_first_of invalid_chars A) ++ "_"
                   ++ String_of_Size (N.of_nat i + 1)%N in
        map.get (left sa) A = Some tok /\ map.get (right sa) tok = Some A)
  /\ (forall A B tok, map.get (left sa) A = Some tok ->
                      map.get (left sa) B = Some tok -> A = B).
Proof.
  cbv zeta. intros Hlen.
  pose proof (set_elements_sorted (collect_accessions proteins)) as Hsorted.
  pose proof (sanitize_ok proteins) as Hok.
  split; [exact Hsorted|]. split; [apply collect_accessions_In|]. split.
  - intros i A Hnth.
    destruct (sanitize_loop_spec (set_elements (collect_accessions proteins))
                1%N bimap_empty) as [H _].
    + now apply StronglySorted_lt_NoDup.
    + intros a _. apply map.get_empty.
    + lia.
    + intros t a H. cbn [bimap_empty right] in H.
      rewrite map.get_empty in H. discriminate.
    + specialize (H i A Hnth). fold (sanitize proteins) in H.
      unfold token in H. rewrite (N.add_comm (N.of_nat i) 1).
      split; [exact H | now apply Hok].
  - intros A B tok HA HB. apply Hok in HA. apply Hok in HB. congruence.
Qed.

(** The example of C2: the four accessions of the two runs. *)
Lemma sanitize_round_trip_witness :
  let accs := set_elements (collect_accessions Stub.two_runs) in
  let sa := sanitize Stub.two_runs in
  (N.of_nat (List.length accs) < Size_modulus)%N
  /\ accs = ["D1"; "D2"; "P1"; "P2"]
  /\ map.get (left sa) "P1" = Some "P1_3"
  /\ map.get (right sa) "P1_3" = Some "P1".
Proof.
  assert (H : (N.of_nat (List.length
                 (set_elements (collect_accessions Stub.two_runs)))
               < Size_modulus)%N) by (vm_compute; reflexivity).
  split; [exact H|]. split; [reflexivity|].
  destruct (sanitize_round_trip Stub.two_runs H) as (_ & _ & Htok & _).
  exact (Htok 2%nat "P1" eq_refl).
Defined.

(* ===================================================================== *)
(** * Reasoning about computations *)

(** A failed outcome, at another result type. *)
Definition fail_as {A B} (o : Outcome A) : Outcome B :=
  match o with
  | Thrown e => Thrown e
  | EndDereferenced => EndDereferenced
  | _ => OutOfFuel
  end.

Definition is_normal {A} (o : Outcome A) : bool :=
  match o with Normal _ => true | _ => false end.

Definition is_thrown {A} (o : Outcome A) : bool :=
  match o with Thrown _ => true | _ => false end.

(** The call returns or throws: no iterator at [end()] is dereferenced and
    no fuel runs out. *)
Definition defined {A} (o : Outcome A) : bool :=
  match o with Normal _ | Thrown _ => true | _ => false end.

(** What a call returned, for the examples. *)
Definition returned {A} (d : A) (r : Outcome A * list Event) : A :=
  match fst r with Normal a => a | _ => d end.

Lemma bind_unfold {A B} (m : M A) (k : A -> M B) (w : list Event) :
  bind m k w =
  match fst (m w) with
  | Normal a => k a (snd (m w))
  | o => (fail_as o, snd (m w))
  end.
Proof. unfold bind. destruct (m w) as [[a|e| |] w1]; reflexivity. Qed.

(** [post m Q]: from every history, [m] appends events [evs] and ends with
    an outcome [o] such that [Q o evs]. *)
Definition post {A} (m : M A) (Q : Outcome A -> list Event -> Prop) : Prop :=
  forall w, exists evs, snd (m w) = (w ++ evs)%list /\ Q (fst (m w)) evs.

Lemma post_weaken {A} (m : M A) (Q Q' : Outcome A -> list Event -> Prop) :
  post m Q -> (forall o evs, Q o evs -> Q' o evs) -> post m Q'.
Proof.
  intros H HQ w. destruct (H w) as (evs & E & q). eauto.
Qed.

Lemma post_run {A} (m : M A) (Q : Outcome A -> list Event -> Prop)
    (w : list Event) :
  post m Q -> exists o evs, m w = (o, (w ++ evs)%list) /\ Q o evs.
Proof.
  intros H. destruct (H w) as (evs & E & q).
  exists (fst (m w)), evs. split; [|exact q].
  rewrite <- E. apply surjective_pairing.
Qed.

Lemma post_ret {A} (a : A) (Q : Outcome A -> list Event -> Prop) :
  Q (Normal a) [] -> post (ret a) Q.
Proof. intros q w. exists []. cbn. now rewrite app_nil_r. Qed.

Lemma post_emit (e : Event) (Q : Outcome unit -> list Event -> Prop) :
  Q (Normal tt) [e] -> post (emit e) Q.
Proof. intros q w. exists [e]. cbn. auto. Qed.

Lemma post_throw {A} (e : Exception) (Q : Outcome A -> list Event -> Prop) :
  Q (Thrown e) [] -> post (throw e) Q.
Proof. intros q w. exists []. cbn. now rewrite app_nil_r. Qed.

Lemma post_end {A} (Q : Outcome A -> list Event -> Prop) :
  Q EndDereferenced [] -> post end_dereferenced Q.
Proof. intros q w. exists []. cbn. now rewrite app_nil_r. Qed.

Lemma post_lift {A} (o : Outcome A) (Q : Outcome A -> list Event -> Prop) :
  Q o [] -> post (lift o) Q.
Proof. intros q w. exists []. cbn. now rewrite app_nil_r. Qed.

Lemma post_bind {A B} (m : M A) (k : A -> M B)
    (Q1 : Outcome A -> list Event -> Prop)
    (Q : Outcome B -> list Event -> Prop) :
  post m Q1 ->
  (forall a evs1, Q1 (Normal a) evs1 ->
                  post (k a) (fun o evs2 => Q o (evs1 ++ evs2)%list)) ->
  (forall o evs1, is_normal o = false -> Q1 o evs1 -> Q (fail_as o) evs1) ->
  post (bind m k) Q.
Proof.
  intros Hm Hk Hfail w. destruct (Hm w) as (evs1 & E1 & q1).
  rewrite bind_unfold. destruct (fst (m w)) as [a|e| |] eqn:Eo.
  - destruct (Hk a evs1 q1 (snd (m w))) as (evs2 & E2 & q2).
    exists (evs1 ++ evs2)%list. split; [|exact q2].
    rewrite E2, E1. symmetry. apply app_assoc.
  - exists evs1. split; [exact E1 | exact (Hfail (Thrown e) _ eq_refl q1)].
  - exists evs1. split; [exact E1 | exact (Hfail EndDereferenced _ eq_refl q1)].
  - exists evs1. split; [exact E1 | exact (Hfail OutOfFuel _ eq_refl q1)].
Qed.

(** [m ;;; k] after an [emit]. *)
Lemma post_emit_then {B} (e : Event) (k : M B)
    (Q : Outcome B -> list Event -> Prop) :
  post k (fun o evs => Q o (e :: evs)) -> post (bind (emit e) (fun _ => k)) Q.
Proof.
  intros H. eapply post_bind with (Q1 := fun o evs => o = Normal tt /\ evs = [e]).
  - apply post_emit. auto.
  - intros [] evs1 [_ ->]. exact H.
  - intros o evs1 Ho [-> _]. discriminate.
Qed.

Lemma post_when (b : bool) (m : M unit)
    (Q : Outcome unit -> list Event -> Prop) :
  (b = true -> post m Q) -> (b = false -> Q (Normal tt) []) -> post (when b m) Q.
Proof.
  destruct b; cbn; intros H1 H2; [now apply H1 | apply post_ret; now apply H2].
Qed.

(** The scope of a stream: what the body appends, and the closing of the
    file when the body throws. *)
Lemma post_scope {A} (path : string) (m : M A)
    (Q Q' : Outcome A -> list Event -> Prop) :
  post m Q ->
  (forall o evs, is_thrown o = false -> Q o evs -> Q' o evs) ->
  (forall e evs, Q (Thrown e) evs -> Q' (Thrown e) (evs ++ [Close path])%list) ->
  post (ofstream_scope path m) Q'.
Proof.
  intros H Hsame Hthrown w. destruct (H w) as (evs & E & q).
  unfold ofstream_scope. destruct (m w) as [[a|e| |] w1]; cbn [fst snd] in *.
  - exists evs. split; [exact E | now apply Hsame].
  - exists (evs ++ [Close path])%list. split; [|now apply Hthrown].
    rewrite E. symmetry. apply app_assoc.
  - exists evs. split; [exact E | now apply Hsame].
  - exists evs. split; [exact E | now apply Hsame].
Qed.

Lemma post_scope_returns {A} (path : string) (m : M A)
    (Q : Outcome A -> list Event -> Prop) :
  post m Q -> (forall o evs, Q o evs -> is_thrown o = false) ->
  post (ofstream_scope path m) Q.
Proof.
  intros H Hq. eapply post_scope; [exact H | auto |].
  intros e evs q. discriminate (Hq _ _ q).
Qed.

Lemma scope_normal {A} (path : string) (m : M A) (w w' : list Event) (a : A) :
  ofstream_scope path m w = (Normal a, w') <-> m w = (Normal a, w').
Proof.
  unfold ofstream_scope. destruct (m w) as [[b|e| |] w1];
    split; intros H; first [exact H | discriminate H].
Qed.

Lemma scope_thrown {A} (path : string) (m : M A) (w w' : list Event)
    (e : Exception) :
  m w = (Thrown e, w') ->
  ofstream_scope path m w = (Thrown e, (w' ++ [Close path])%list).
Proof. unfold ofstream_scope. now intros ->. Qed.

(** ** What the events are *)

Definition is_log (e : Event) : bool :=
  match e with
  | Put LOG_ERROR _ | Put LOG_WARN _ | Put LOG_INFO _ | Put LOG_DEBUG _ => true
  | _ => false
  end.

(** A log line, or the file [path] opened, written or closed. *)
Definition log_or_file (path : string) (e : Event) : bool :=
  match e with
  | Put (File p) _ | Open p | Close p => String.eqb p path
  | Put _ _ => true
  | _ => false
  end.

Lemma log_or_file_not_start (path : string) (e : Event) :
  log_or_file path e = true -> is_start e = false.
Proof. destruct e; cbn; congruence. Qed.

Lemma is_log_log_or_file (path : string) (e : Event) :
  is_log e = true -> log_or_file path e = true.
Proof. destruct e as [| [] | | | | | | ]; cbn; congruence. Qed.

Definition all_events (P : Event -> bool) (evs : list Event) : Prop :=
  forallb P evs = true.

Lemma all_events_app (P : Event -> bool) (e1 e2 : list Event) :
  all_events P (e1 ++ e2) <-> all_events P e1 /\ all_events P e2.
Proof. unfold all_events. rewrite forallb_app. apply andb_true_iff. Qed.

Lemma all_events_cons (P : Event -> bool) (e : Event) (evs : list Event) :
  all_events P (e :: evs) <-> P e = true /\ all_events P evs.
Proof. unfold all_events. cbn [forallb]. apply andb_true_iff. Qed.

Lemma all_events_In (P : Event -> bool) (evs : list Event) :
  all_events P evs <-> forall e, In e evs -> P e = true.
Proof. apply forallb_forall. Qed.

Lemma all_events_weaken (P Q : Event -> bool) (evs : list Event) :
  (forall e, P e = true -> Q e = true) -> all_events P evs -> all_events Q evs.
Proof. rewrite !all_events_In. auto. Qed.

(* ===================================================================== *)
(** * The lookups of the writers *)

Definition is_some {A} (o : option A) : bool :=
  match o with Some _ => true | None => false end.

(** The accession is empty, or it is a left key of the bimap. *)
Definition registered (sa : StringBimap) (acc : string) : bool :=
  str_empty acc || is_some (map.get (left sa) acc).

Definition hit_registered (sa : StringBimap) (hit : PeptideHit) : bool :=
  forallb (registered sa) (ph_evidences hit).

Definition peptides_registered (sa : StringBimap)
    (peps : list PeptideIdentification) : bool :=
  forallb (fun pep => forallb (hit_registered sa) (pi_hits pep)) peps.

Lemma write_accessions_post (sa : StringBimap) (path : string)
    (accs : list string) :
  forallb (registered sa) accs = true ->
  post (write_accessions sa path accs)
       (fun o evs => o = Normal tt /\ all_events (log_or_file path) evs).
Proof.
  induction accs as [|acc rest IH]; intros H; cbn [write_accessions].
  - apply post_ret. split; reflexivity.
  - cbn in H. apply andb_true_iff in H. destruct H as [Hacc Hrest].
    unfold registered in Hacc. destruct (str_empty acc); [now apply IH|].
    destruct (map.get (left sa) acc) as [tok|]; [|discriminate Hacc].
    apply post_emit_then.
    eapply post_weaken; [apply IH, Hrest|].
    intros o evs [-> Hall]. split; [reflexivity|].
    unfold all_events in *. cbn. now rewrite String.eqb_refl.
Qed.

(** ** Sorting keeps the elements *)

Lemma sort_insert_perm {A} (lt : A -> A -> bool) (x : A) (l : list A) :
  Permutation (x :: l) (sort_insert lt x l).
Proof.
  induction l as [|y l IH]; cbn; [reflexivity|].
  destruct (lt x y); [reflexivity|].
  rewrite perm_swap. now constructor.
Qed.

Lemma sort_perm {A} (lt : A -> A -> bool) (l : list A) :
  Permutation l (sort lt l).
Proof.
  unfold sort.
  assert (H : forall acc, Permutation (acc ++ l)
                (fold_left (fun acc x => sort_insert lt x acc) l acc)).
  { induction l as [|x l IH]; intros acc; cbn [fold_left].
    - now rewrite app_nil_r.
    - rewrite <- IH. rewrite <- Permutation_middle.
      apply (Permutation_app_tail l (sort_insert_perm lt x acc)). }
  exact (H []).
Qed.

Lemma sorted_hits_In (pep : PeptideIdentification) (hit : PeptideHit) :
  In hit (pi_hits (PeptideIdentification_sort pep)) <-> In hit (pi_hits pep).
Proof.
  cbn [PeptideIdentification_sort pi_hits]. split; intros H.
  - eapply Permutation_in; [symmetry; apply sort_perm | exact H].
  - eapply Permutation_in; [apply sort_perm | exact H].
Qed.

Lemma extract_subset (hit : PeptideHit) (x : string) :
  In x (set_elements (extractProteinAccessions hit)) -> In x (ph_evidences hit).
Proof.
  unfold extractProteinAccessions. rewrite fold_set_insert_In.
  intros [H | H]; [exact H | destruct H].
Qed.

Lemma extract_registered (sa : StringBimap) (hit : PeptideHit) :
  hit_registered sa hit = true ->
  forallb (registered sa) (set_elements (extractProteinAccessions hit)) = true.
Proof.
  unfold hit_registered. rewrite !forallb_forall.
  intros H x Hx. apply H, extract_subset, Hx.
Qed.

(** ** Calls that return or throw, and touch one file only *)

Definition safe {A} (path : string) (m : M A) : Prop :=
  post m (fun o evs => defined o = true /\ all_events (log_or_file path) evs).

Lemma safe_ret {A} (path : string) (a : A) : safe path (ret a).
Proof. apply post_ret. split; reflexivity. Qed.

Lemma safe_throw {A} (path : string) (e : Exception) :
  safe path (@throw A e).
Proof. apply post_throw. split; reflexivity. Qed.

Lemma safe_emit (path : string) (e : Event) :
  log_or_file path e = true -> safe path (emit e).
Proof.
  intros H. apply post_emit. split; [reflexivity|].
  unfold all_events. cbn. now rewrite H.
Qed.

Lemma safe_bind {A B} (path : string) (m : M A) (k : A -> M B) :
  safe path m -> (forall a, safe path (k a)) -> safe path (bind m k).
Proof.
  intros Hm Hk. eapply post_bind; [exact Hm | |].
  - intros a evs1 [_ H1]. eapply post_weaken; [apply Hk|].
    intros o evs2 [Ho H2]. split; [exact Ho|].
    apply all_events_app. now split.
  - intros [a|e| |] evs1 Hn [Ho H1]; try discriminate. now split.
Qed.

Lemma safe_when (path : string) (b : bool) (m : M unit) :
  safe path m -> safe path (when b m).
Proof. destruct b; cbn; [auto | intros _; apply safe_ret]. Qed.

Lemma safe_scope {A} (path : string) (m : M A) :
  safe path m -> safe path (ofstream_scope path m).
Proof.
  intros H. eapply post_scope; [exact H | |].
  - intros o evs _ q. exact q.
  - intros e evs [_ Hall]. split; [reflexivity|].
    apply all_events_app. split; [exact Hall|].
    apply all_events_cons. split; [cbn; apply String.eqb_refl | reflexivity].
Qed.

Ltac safe_step :=
  first [ apply safe_ret | apply safe_throw
        | apply safe_emit; cbn; rewrite ?String.eqb_refl; reflexivity
        | apply safe_when
        | apply safe_bind; [|intros ?] ].

Lemma resolve_score_safe (path prob_param : string)
    (pep : PeptideIdentification) (hit : PeptideHit) (warned_once : bool) :
  safe path (resolve_score prob_param pep hit warned_once).
Proof.
  unfold resolve_score.
  destruct (str_empty prob_param || negb (metaValueExists (ph_meta hit) prob_param)).
  - destruct (negb (pi_higher_score_better pep)); [|apply safe_ret].
    destruct (String.eqb (toLower (pi_score_type pep)) "posterior error probability"
              || hasPrefix (toLower (pi_score_type pep)) "consensus_");
      repeat safe_step.
  - unfold DataValue_to_double.
    destruct (getMetaValue (ph_meta hit) prob_param); repeat safe_step.
Qed.

Lemma write_accessions_safe (sa : StringBimap) (path : string)
    (accs : list string) :
  forallb (registered sa) accs = true -> safe path (write_accessions sa path accs).
Proof.
  intros H. eapply post_weaken; [apply write_accessions_post, H|].
  intros o evs [-> Hall]. now split.
Qed.

Lemma write_graph_loop_safe (sa : StringBimap)
    (path prob_param identifier : string)
    (peps : list PeptideIdentification) :
  peptides_registered sa peps = true ->
  forall warned_once,
    safe path (write_graph_loop sa path prob_param identifier peps warned_once).
Proof.
  induction peps as [|pep rest IH]; intros Hreg warned; cbn [write_graph_loop].
  - apply safe_ret.
  - cbn in Hreg. apply andb_true_iff in Hreg. destruct Hreg as [Hpep Hrest].
    specialize (IH Hrest).
    destruct ((negb (str_empty identifier)
               && negb (String.eqb (pi_identifier pep) identifier))
              || is_nil (pi_hits pep)) eqn:Eskip.
    { apply safe_bind; [apply IH | intros; apply safe_ret]. }
    destruct (pi_hits (PeptideIdentification_sort pep)) as [|hit hs] eqn:Ehits.
    { exfalso. apply orb_false_iff in Eskip. destruct Eskip as [_ Hnil].
      destruct (pi_hits pep) as [|h0 l0] eqn:E0; [discriminate|].
      assert (Hin : In h0 (pi_hits (PeptideIdentification_sort pep))).
      { apply sorted_hits_In. rewrite E0. now left. }
      rewrite Ehits in Hin. destruct Hin. }
    assert (Hhit : hit_registered sa hit = true).
    { rewrite forallb_forall in Hpep. apply Hpep, sorted_hits_In.
      rewrite Ehits. now left. }
    destruct (str_empty (ph_sequence hit)
              || is_nil (set_elements (extractProteinAccessions hit))).
    { apply safe_bind; [apply IH | intros; apply safe_ret]. }
    apply safe_bind; [apply resolve_score_safe|].
    intros [[score reason] warned'].
    destruct (negb (str_empty (check_range score reason))).
    { repeat safe_step. }
    apply safe_bind; [safe_step|]. intros _.
    apply safe_bind; [apply write_accessions_safe, extract_registered, Hhit|].
    intros _. apply safe_bind; [safe_step|]. intros _.
    apply safe_bind; [apply IH | intros; apply safe_ret].
Qed.

Lemma writePSMGraph_safe (sa : StringBimap)
    (peps : list PeptideIdentification) (path prob_param identifier : string) :
  peptides_registered sa peps = true ->
  safe path (writePSMGraph_ sa peps path prob_param identifier).
Proof.
  intros H. unfold writePSMGraph_.
  apply safe_bind; [safe_step|]. intros _.
  apply safe_bind; [now apply safe_scope, write_graph_loop_safe|].
  intros peps'.
  repeat safe_step.
Qed.

(* ===================================================================== *)
(** * Missing target/decoy annotation *)

Lemma metaValue_missing (m : MetaInfo) (name : string) :
  metaValueExists m name = false -> getMetaValue m name = EMPTY.
Proof.
  unfold metaValueExists, getMetaValue.
  induction m as [|kv m IH]; cbn; [reflexivity|].
  destruct (has_name name kv); [discriminate | exact IH].
Qed.

Lemma append_eqb_l (p a b : string) :
  String.eqb (p ++ a) (p ++ b) = String.eqb a b.
Proof.
  induction p as [|c p IH]; cbn; [reflexivity|].
  now rewrite Ascii.eqb_refl.
Qed.

Lemma graph_is_not_protein_list (temp_dir num : string) :
  String.eqb (temp_dir ++ "fido_input_proteins" ++ num ++ ".txt")
             (temp_dir ++ "fido_input_graph" ++ num ++ ".txt") = false.
Proof. rewrite append_eqb_l. reflexivity. Qed.

Lemma writePSMGraph_post (sa : StringBimap)
    (peps : list PeptideIdentification) (path prob_param identifier : string) :
  peptides_registered sa peps = true ->
  post (writePSMGraph_ sa peps path prob_param identifier)
       (fun o evs => defined o = true /\ all_events (log_or_file path) evs
                     /\ In (Open path) evs).
Proof.
  intros H. unfold writePSMGraph_. apply post_emit_then.
  eapply post_weaken.
  - apply (safe_bind path);
      [apply safe_scope, write_graph_loop_safe, H
      | intros; repeat safe_step].
  - intros o evs [Ho Hall]. split; [exact Ho|]. split; [|now left].
    unfold all_events in *. cbn. now rewrite String.eqb_refl.
Qed.

Section ProteinLists.
Context `{Ext : Externals}.

(** The text lines 340-344 compare with "target" and "decoy". *)
Definition target_decoy_of (h : ProteinHit) : string :=
  DataValue_toString (getMetaValue (pr_meta h) "target_decoy").

Definition labelled (h : ProteinHit) : bool :=
  String.eqb (target_decoy_of h) "target"
  || String.eqb (target_decoy_of h) "decoy".

Definition lacks_annotation (h : ProteinHit) : bool :=
  negb (metaValueExists (pr_meta h) "target_decoy").

Lemma lacks_annotation_not_labelled (h : ProteinHit) :
  lacks_annotation h = true -> labelled h = false.
Proof.
  unfold lacks_annotation, labelled, target_decoy_of. intros H.
  apply negb_true_iff in H. now rewrite (metaValue_missing _ _ H).
Qed.

Definition hits_registered (sa : StringBimap) (hs : list ProteinHit) : bool :=
  forallb (fun h => is_some (map.get (left sa) (accession h))) hs.

Lemma gather_target_decoy_post (sa : StringBimap) (hs : list ProteinHit) :
  hits_registered sa hs = true ->
  forall targets decoys,
    post (gather_target_decoy sa hs targets decoys)
         (fun o evs => defined o = true /\ all_events is_log evs
                       /\ (forallb labelled hs = false -> is_thrown o = true)).
Proof.
  induction hs as [|h hs IH]; intros Hreg targets decoys;
    cbn [gather_target_decoy].
  - apply post_ret. repeat split. discriminate.
  - unfold hits_registered in Hreg. cbn [forallb] in Hreg.
    apply andb_true_iff in Hreg. destruct Hreg as [Hh Hhs].
    destruct (map.get (left sa) (accession h)) as [tok|]; [|discriminate Hh].
    cbn [forallb]. fold (target_decoy_of h).
    destruct (String.eqb (target_decoy_of h) "target") eqn:E1.
    { replace (labelled h) with true by (unfold labelled; now rewrite E1).
      now apply IH. }
    destruct (String.eqb (target_decoy_of h) "decoy") eqn:E2.
    { replace (labelled h) with true by (unfold labelled; now rewrite E1, E2).
      now apply IH. }
    apply post_emit_then, post_throw. repeat split.
Qed.

Lemma write_set_safe (path : string) (elts : list string) :
  forall first, safe path (write_set path first elts).
Proof.
  induction elts as [|e rest IH]; intros first; cbn [write_set];
    repeat safe_step. apply IH.
Qed.

Lemma writeProteinLists_post (sa : StringBimap)
    (protein : ProteinIdentification) (path : string) :
  hits_registered sa (hits protein) = true ->
  post (writeProteinLists_ sa protein path)
       (fun o evs => defined o = true /\ all_events (log_or_file path) evs
                     /\ (forallb labelled (hits protein) = false ->
                         is_thrown o = true /\ all_events is_log evs)).
Proof.
  intros Hreg. unfold writeProteinLists_.
  eapply post_bind; [apply gather_target_decoy_post, Hreg | |].
  - intros [targets decoys] evs1 (_ & Hlog & Hlab).
    assert (Hall : forallb labelled (hits protein) = true).
    { destruct (forallb labelled (hits protein)); [reflexivity|].
      discriminate (Hlab eq_refl). }
    eapply post_weaken with
      (Q := fun o evs => defined o = true /\ all_events (log_or_file path) evs).
    + destruct (is_nil (set_elements targets)); [repeat safe_step|].
      destruct (is_nil (set_elements decoys)); [repeat safe_step|].
      repeat (safe_step; try apply write_set_safe).
    + intros o evs2 [Ho H2]. split; [exact Ho|]. split.
      * apply all_events_app. split; [|exact H2].
        exact (all_events_weaken _ _ _ (is_log_log_or_file path) Hlog).
      * rewrite Hall. discriminate.
  - intros [a|e| |] evs1 Hn (Ho & Hlog & Hlab); try discriminate.
    split; [reflexivity|]. split; [|intros _; now split].
    exact (all_events_weaken _ _ _ (is_log_log_or_file path) Hlog).
Qed.

(** The result of a call, with [f] applied to the run it hands back. *)
Definition on_run (f : ProteinIdentification -> ProteinIdentification)
    (r : Outcome (bool * ProteinIdentification * Shared) * list Event)
  : Outcome (bool * ProteinIdentification * Shared) * list Event :=
  match r with
  | (Normal (flag, p, sh), w) => (Normal (flag, f p, sh), w)
  | _ => r
  end.

Lemma on_run_bind {A} (f : ProteinIdentification -> ProteinIdentification)
    (m : M A) (k k' : A -> M (bool * ProteinIdentification * Shared))
    (w : list Event) :
  (forall a w1, k' a w1 = on_run f (k a w1)) ->
  bind m k' w = on_run f (bind m k w).
Proof.
  intros H. unfold bind. destruct (m w) as [[a|e| |] w1];
    [apply H | reflexivity..].
Qed.

(** With fixed probabilities [runFido_] does not read the protein hits of
    the run: it does for a run with other hits what it does for the run, and
    hands those hits back. *)
Lemma fixed_probabilities_ignore_hits (sa : StringBimap) (opts : Options)
    (protein : ProteinIdentification) (hs : list ProteinHit) (sh : Shared)
    (exe temp_dir : string) (keep_zero_group : bool) (counter : Size)
    (w : list Event) :
  runFido_ sa opts (with_hits protein hs) sh false exe temp_dir keep_zero_group
           counter w
  = on_run (fun p => with_hits p hs)
           (runFido_ sa opts protein sh false exe temp_dir keep_zero_group
                     counter w).
Proof.
  unfold runFido_.
  change (generate_files sa opts (with_hits protein hs) sh false temp_dir
                         counter)
    with (generate_files sa opts protein sh false temp_dir counter).
  apply on_run_bind. intros sh1 w1.
  apply on_run_bind. intros _ w2.
  apply on_run_bind. intros w0 w3.
  destruct (QProcess_run exe (fido_params_ sh1) w0) as [[std_out std_err]|].
  - unfold read_results. cbv beta iota zeta.
    apply on_run_bind. intros [sh2|] w4; [|reflexivity].
    apply on_run_bind. intros _ w5.
    apply on_run_bind. intros _ w6.
    apply on_run_bind. intros parsed w7.
    apply on_run_bind. intros _ w8. reflexivity.
  - apply on_run_bind. intros _ w4. reflexivity.
Qed.

(** C9, as amended.  With the parameter search, a run that has a protein hit
    without the target/decoy value makes [runFido_] throw, provided that the
    accessions that are looked up are registered: those of the peptide hits
    and those of the protein hits of the run.  By then the graph file of the
    run has been opened; the protein list file has not, and the engine has
    not been started: every event of the call is a log line or an event on
    the graph file.  With fixed probabilities the protein hits are not read:
    the call does the same, with the same events and the same outcome,
    whatever hits the run has, and hands them back. *)
Theorem missing_annotation_throws_before_engine
    (sa : StringBimap) (opts : Options) (protein : ProteinIdentification)
    (sh : Shared) (exe temp_dir : string) (keep_zero_group : bool)
    (counter : Size) (w : list Event) :
  peptides_registered sa (peptides_ sh) = true ->
  hits_registered sa (hits protein) = true ->
  existsb lacks_annotation (hits protein) = true ->
  let graph := temp_dir ++ "fido_input_graph" ++ num_of counter ++ ".txt" in
  let list_ := temp_dir ++ "fido_input_proteins" ++ num_of counter ++ ".txt" in
  (exists e evs,
     runFido_ sa opts protein sh true exe temp_dir keep_zero_group counter w
     = (Thrown e, (w ++ evs)%list)
     /\ In (Open graph) evs
     /\ all_events (log_or_file graph) evs
     /\ forall ev, In ev evs -> is_start ev = false /\ ev <> Open list_)
  /\ (forall hs,
        runFido_ sa opts (with_hits protein hs) sh false exe temp_dir
                 keep_zero_group counter w
        = on_run (fun p => with_hits p hs)
                 (runFido_ sa opts protein sh false exe temp_dir
                           keep_zero_group counter w)).
Proof.
  intros Hpeps Hhits Hlacks graph list_.
  split; [|intros hs; apply fixed_probabilities_ignore_hits].
  assert (Hlab : forallb labelled (hits protein) = false).
  { apply existsb_exists in Hlacks. destruct Hlacks as (h & Hin & Hl).
    apply not_true_is_false. intros Hall. rewrite forallb_forall in Hall.
    specialize (Hall h Hin).
    rewrite (lacks_annotation_not_labelled h Hl) in Hall. discriminate. }
  assert (Hgen : post (generate_files sa opts protein sh true temp_dir counter)
                   (fun o evs => is_thrown o = true /\ In (Open graph) evs
                                 /\ all_events (log_or_file graph) evs)).
  { unfold generate_files. apply post_emit_then.
    eapply post_bind; [apply (writePSMGraph_post sa), Hpeps | |].
    - intros peps evs1 (_ & Hall1 & Hopen).
      eapply post_bind; [apply (writeProteinLists_post sa), Hhits | |].
      + intros [] evs2 (_ & _ & Hthrown). destruct (Hthrown Hlab). discriminate.
      + intros [a|e| |] evs2 Hn (Ho & _ & Hthrown); try discriminate.
        destruct (Hthrown Hlab) as [_ Hlog]. split; [reflexivity|].
        split; [right; apply in_or_app; now left|].
        apply all_events_cons. split; [reflexivity|].
        apply all_events_app. split; [exact Hall1|].
        exact (all_events_weaken _ _ _ (is_log_log_or_file graph) Hlog).
    - intros [a|e| |] evs1 Hn (Ho & Hall1 & Hopen); try discriminate.
      split; [reflexivity|]. split; [now right|].
      apply all_events_cons. now split. }
  destruct (post_run _ _ w Hgen) as (o & evs & Hrun & Hthrown & Hopen & Hall).
  destruct o as [a|e| |]; try discriminate.
  exists e, evs. split.
  { unfold runFido_, bind at 1. now rewrite Hrun. }
  split; [exact Hopen|]. split; [exact Hall|].
  intros ev Hev. rewrite all_events_In in Hall.
  specialize (Hall ev Hev). split; [now apply log_or_file_not_start in Hall|].
  intros ->. cbn in Hall. unfold graph, list_ in Hall.
  now rewrite graph_is_not_protein_list in Hall.
Qed.

End ProteinLists.

(** The example of C9: the decoy of the run has no "target_decoy" value. *)
Lemma missing_annotation_witness :
  let Ext := Stub.externals [] None in
  let sa := sanitize Stub.unlabelled_run in
  let opts := Stub.options false d0 in
  let protein := hd (Stub.run "run1" []) Stub.unlabelled_run in
  let sh := {| peptides_ := Stub.one_peptide;
               fido_params_ := ["INPUT_GRAPH"; "INPUT_PROTEINS"];
               prob_protein_ := d0; prob_peptide_ := d0;
               prob_spurious_ := d0 |} in
  (exists e evs,
     @runFido_ Ext sa opts protein sh true "FidoChooseParameters" "/tmp/fido/"
               false 0%N []
     = (Thrown e, ([] ++ evs)%list)
     /\ In (Open "/tmp/fido/fido_input_graph.txt") evs
     /\ all_events (log_or_file "/tmp/fido/fido_input_graph.txt") evs
     /\ forall ev, In ev evs ->
          is_start ev = false
          /\ ev <> Open "/tmp/fido/fido_input_proteins.txt")
  /\ (forall hs,
        @runFido_ Ext sa opts (with_hits protein hs) sh false
                  "FidoChooseParameters" "/tmp/fido/" false 0%N []
        = on_run (fun p => with_hits p hs)
                 (@runFido_ Ext sa opts protein sh false
                            "FidoChooseParameters" "/tmp/fido/" false 0%N [])).
Proof.
  intros Ext sa opts protein sh.
  apply (@missing_annotation_throws_before_engine Ext sa opts protein sh
           "FidoChooseParameters" "/tmp/fido/" false 0%N []);
    vm_compute; reflexivity.
Defined.

(** C9, as it is stated, fails.  With the parameter search the tool throws,
    but the graph file has been written and closed before; with fixed
    probabilities the annotation is not read at all, and the engine runs. *)
Lemma missing_annotation_counterexample :
  let r := @main_ (Stub.externals [] None) (Stub.options false d0)
                  Stub.unlabelled_run Stub.one_peptide [] in
  let r' := @main_ (Stub.externals [] None) (Stub.options false Stub.half)
                   Stub.unlabelled_run Stub.one_peptide [] in
  (is_thrown (fst r) = true
   /\ In (Put (File "/tmp/fido/fido_input_graph.txt")
              [Str "p "; Dbl Stub.half; Endl]) (snd r)
   /\ In (Close "/tmp/fido/fido_input_graph.txt") (snd r))
  /\ (fst r' = Normal EXECUTION_OK /\ existsb is_start (snd r') = true).
Proof.
  vm_compute. repeat split; auto 20.
Qed.

(* ===================================================================== *)
(** * Every lookup of the writers finds its accession *)

Lemma sanitize_registers (proteins : list ProteinIdentification) :
  (N.of_nat (List.length (set_elements (collect_accessions proteins)))
   < Size_modulus)%N ->
  forall hit, In hit (flat_map hits proteins) ->
    is_some (map.get (left (sanitize proteins)) (accession hit)) = true.
Proof.
  intros Hlen hit Hin.
  assert (Hacc : In (accession hit)
                    (set_elements (collect_accessions proteins))).
  { apply collect_accessions_In. eauto. }
  apply In_nth_error in Hacc. destruct Hacc as [i Hi].
  destruct (sanitize_loop_spec (set_elements (collect_accessions proteins))
              1%N bimap_empty) as [H _].
  - apply StronglySorted_lt_NoDup, set_elements_sorted.
  - intros a _. apply map.get_empty.
  - lia.
  - intros t a H. cbn [bimap_empty right] in H.
    rewrite map.get_empty in H. discriminate.
  - unfold sanitize. now rewrite (H i _ Hi).
Qed.

(** Every accession a peptide hit refers to is empty or the accession of a
    protein hit of some run. *)
Definition refers_to_hits (proteins : list ProteinIdentification)
    (peps : list PeptideIdentification) : bool :=
  forallb
    (fun pep =>
       forallb
         (fun hit =>
            forallb
              (fun acc =>
                 str_empty acc
                 || existsb (String.eqb acc)
                            (List.map accession (flat_map hits proteins)))
              (ph_evidences hit))
         (pi_hits pep))
    peps.

Lemma refers_to_hits_registered (proteins : list ProteinIdentification)
    (peps : list PeptideIdentification) :
  (N.of_nat (List.length (set_elements (collect_accessions proteins)))
   < Size_modulus)%N ->
  refers_to_hits proteins peps = true ->
  peptides_registered (sanitize proteins) peps = true.
Proof.
  intros Hlen. unfold refers_to_hits, peptides_registered, hit_registered.
  rewrite !forallb_forall. intros H pep Hpep.
  specialize (H pep Hpep). rewrite !forallb_forall in *.
  intros hit Hhit. specialize (H hit Hhit). rewrite !forallb_forall in *.
  intros acc Hacc. specialize (H acc Hacc). unfold registered.
  destruct (str_empty acc); [reflexivity|]. cbn [orb] in *.
  apply existsb_exists in H. destruct H as (a & Ha & Heq).
  apply String.eqb_eq in Heq. subst a.
  apply in_map_iff in Ha. destruct Ha as (h & <- & Hh).
  now apply sanitize_registers.
Qed.

Lemma merged_hits_In (proteins : list ProteinIdentification) (h : ProteinHit) :
  In h (hits (merged_run proteins)) -> In h (flat_map hits proteins).
Proof.
  intros H. apply (pooled_merge_hits_first proteins) in H.
  now apply find_some in H.
Qed.

Section Lookups.
Context `{Ext : Externals}.

(** C10, as amended.  The bimap is built from the accessions of all protein
    hits.  Then the protein list writer finds every accession it looks up,
    for each run and for the pooled run; and the graph writer does, when
    every accession a peptide hit refers to is the accession of some protein
    hit.  Either call returns or throws; [end()] is never dereferenced. *)
Theorem writer_lookups_succeed (proteins : list ProteinIdentification)
    (peps : list PeptideIdentification) :
  (N.of_nat (List.length (set_elements (collect_accessions proteins)))
   < Size_modulus)%N ->
  refers_to_hits proteins peps = true ->
  let sa := sanitize proteins in
  (forall path prob_param identifier w,
     defined (fst (writePSMGraph_ sa peps path prob_param identifier w)) = true)
  /\ (forall run path w,
        In run proteins \/ run = merged_run proteins ->
        defined (fst (writeProteinLists_ sa run path w)) = true).
Proof.
  intros Hlen Hrefs sa. split.
  - intros path prob_param identifier w.
    destruct (writePSMGraph_safe sa peps path prob_param identifier
                (refers_to_hits_registered _ _ Hlen Hrefs) w)
      as (evs & _ & Hdef & _).
    exact Hdef.
  - intros run path w Hrun.
    assert (Hreg : hits_registered sa (hits run) = true).
    { apply forallb_forall. intros h Hh. apply sanitize_registers; [exact Hlen|].
      destruct Hrun as [Hrun | ->].
      - apply in_flat_map. eauto.
      - now apply merged_hits_In. }
    destruct (writeProteinLists_post sa run path Hreg w)
      as (evs & _ & Hdef & _).
    exact Hdef.
Qed.

End Lookups.

(** The example of C10: the two runs and their peptides. *)
Lemma writer_lookups_succeed_witness :
  (forall path prob_param identifier w,
     defined (fst (writePSMGraph_ (sanitize Stub.two_runs) Stub.two_peptides
                                  path prob_param identifier w)) = true)
  /\ (forall run path w,
        In run Stub.two_runs \/ run = merged_run Stub.two_runs ->
        defined (fst (@writeProteinLists_ (Stub.externals [] None)
                        (sanitize Stub.two_runs) run path w)) = true).
Proof.
  apply (@writer_lookups_succeed (Stub.externals [] None));
    vm_compute; reflexivity.
Defined.

(** C10, as it is stated, fails: the bimap holds the accessions of all
    protein hits, but a peptide hit refers to "Q9", which no protein hit
    has, and the graph writer dereferences [end()]. *)
Lemma writer_lookups_counterexample :
  fst (@main_ (Stub.externals [] None) (Stub.options false d0)
              Stub.two_runs Stub.dangling_peptide [])
  = EndDereferenced
  /\ map.get (left (sanitize Stub.two_runs)) "Q9" = None
  /\ List.map accession (flat_map hits Stub.two_runs) = ["P1"; "D1"; "P2"; "D2"].
Proof.
  vm_compute. repeat split.
Qed.

(* ===================================================================== *)
(** * Posterior error probabilities *)

(** Lines 248-258: the hit of the identification that is encoded, if any. *)
Definition encoded_hit (identifier : string) (pep : PeptideIdentification)
  : option PeptideHit :=
  if (negb (str_empty identifier)
      && negb (String.eqb (pi_identifier pep) identifier))
     || is_nil (pi_hits pep)
  then None
  else
    match pi_hits (PeptideIdentification_sort pep) with
    | [] => None
    | hit :: _ =>
        if str_empty (ph_sequence hit)
           || is_nil (set_elements (extractProteinAccessions hit))
        then None
        else Some hit
    end.

Definition encoded_hits (identifier : string)
    (peps : list PeptideIdentification) : list PeptideHit :=
  flat_map (fun pep => match encoded_hit identifier pep with
                       | Some hit => [hit]
                       | None => []
                       end) peps.

(** Lower scores are better, the score type is "posterior error
    probability" or begins with "consensus_" (in any case of letters), and
    the hit has no value of the alternate score field. *)
Definition is_error_probability (prob_param : string)
    (pep : PeptideIdentification) (hit : PeptideHit) : bool :=
  negb (pi_higher_score_better pep)
  && (String.eqb (toLower (pi_score_type pep)) "posterior error probability"
      || hasPrefix (toLower (pi_score_type pep)) "consensus_")
  && (str_empty prob_param || negb (metaValueExists (ph_meta hit) prob_param)).

(** Neither comparison of lines 293-300 holds. *)
Definition passes_range_check (score : double) : bool :=
  negb (dlt score d0) && negb (dgt score d1).

Definition for_encoded_hits (identifier : string)
    (P : PeptideIdentification -> PeptideHit -> bool)
    (peps : list PeptideIdentification) : bool :=
  forallb (fun pep => match encoded_hit identifier pep with
                      | Some hit => P pep hit
                      | None => true
                      end) peps.

(** The numbers of the "p" lines, and the warnings, among the events. *)
Definition p_value (e : Event) : list double :=
  match e with
  | Put (File _) [Str tag; Dbl d; Endl] =>
      if String.eqb tag "p " then [d] else []
  | _ => []
  end.

Definition p_values (evs : list Event) : list double := flat_map p_value evs.

Definition is_warning (e : Event) : bool :=
  match e with Put LOG_WARN _ => true | _ => false end.

Definition warnings (evs : list Event) : nat :=
  List.length (filter is_warning evs).

Lemma p_values_app (e1 e2 : list Event) :
  p_values (e1 ++ e2) = (p_values e1 ++ p_values e2)%list.
Proof. apply flat_map_app. Qed.

Lemma warnings_app (e1 e2 : list Event) :
  warnings (e1 ++ e2) = (warnings e1 + warnings e2)%nat.
Proof. unfold warnings. now rewrite filter_app, length_app. Qed.

Definition is_r_line (path : string) (e : Event) : bool :=
  match e with
  | Put (File p) [Str tag; Str _; Endl] =>
      String.eqb tag "r " && String.eqb p path
  | _ => false
  end.

Lemma r_line_silent (path : string) (e : Event) :
  is_r_line path e = true -> p_value e = [] /\ is_warning e = false.
Proof.
  destruct e as [| s items | | | | | |]; try discriminate.
  destruct s; try discriminate.
  destruct items as [|[x| | |] [|[y| | |] [|[| | |] [|]]]]; try discriminate.
  now split.
Qed.

Lemma r_lines_silent (path : string) (evs : list Event) :
  all_events (is_r_line path) evs -> p_values evs = [] /\ warnings evs = 0%nat.
Proof.
  induction evs as [|e evs IH]; [now split|].
  intros H. apply all_events_cons in H. destruct H as [He Hevs].
  destruct (IH Hevs) as [IHp IHw].
  destruct (r_line_silent _ _ He) as [Hp Hw].
  unfold warnings, p_values in *. cbn [flat_map filter].
  rewrite Hp, Hw, IHp. now split.
Qed.

Lemma write_accessions_r_lines (sa : StringBimap) (path : string)
    (accs : list string) :
  forallb (registered sa) accs = true ->
  post (write_accessions sa path accs)
       (fun o evs => o = Normal tt /\ all_events (is_r_line path) evs).
Proof.
  induction accs as [|acc rest IH]; intros H; cbn [write_accessions].
  - apply post_ret. split; reflexivity.
  - cbn [forallb] in H. apply andb_true_iff in H. destruct H as [Hacc Hrest].
    unfold registered in Hacc. destruct (str_empty acc); [now apply IH|].
    destruct (map.get (left sa) acc) as [tok|]; [|discriminate Hacc].
    apply post_emit_then.
    eapply post_weaken; [apply IH, Hrest|].
    intros o evs [-> Hall]. split; [reflexivity|].
    apply all_events_cons. split; [|exact Hall].
    cbn. apply String.eqb_refl.
Qed.

Definition warning_line : Event :=
  Put LOG_WARN
      [Str ("Warning: Scores of peptide hits seem to be posterior"
            ++ " error probabilities. Converting to (positive) posterior"
            ++ " probabilities."); Endl].

Lemma resolve_error_probability (prob_param : string)
    (pep : PeptideIdentification) (hit : PeptideHit) (warned_once : bool) :
  is_error_probability prob_param pep hit = true ->
  post (resolve_score prob_param pep hit warned_once)
       (fun o evs =>
          o = Normal (dsub d1 (ph_score hit), EmptyString, true)
          /\ evs = if warned_once then [] else [warning_line]).
Proof.
  unfold is_error_probability, resolve_score. intros H.
  apply andb_true_iff in H. destruct H as [H Hparam].
  apply andb_true_iff in H. destruct H as [Hlow Htype].
  rewrite Hparam, Hlow, Htype.
  destruct warned_once; cbn [negb when].
  - eapply post_bind with (Q1 := fun o evs => o = Normal tt /\ evs = []).
    + now apply post_ret.
    + intros [] evs1 [_ ->]. now apply post_ret.
    + intros o evs1 Hn [-> _]. discriminate.
  - apply post_emit_then, post_ret. now split.
Qed.

Lemma check_range_passes (score : double) (reason : string) :
  passes_range_check score = true -> check_range score reason = reason.
Proof.
  unfold passes_range_check, check_range. intros H.
  apply andb_true_iff in H. destruct H as [H0 H1].
  apply negb_true_iff in H0, H1. now rewrite H0, H1.
Qed.

Section ErrorProbabilities.
Variable sa : StringBimap.
Variables path prob_param identifier : string.

Definition converted (hit : PeptideHit) : double := dsub d1 (ph_score hit).

Lemma write_graph_loop_converts (peps : list PeptideIdentification) :
  for_encoded_hits identifier (is_error_probability prob_param) peps = true ->
  for_encoded_hits identifier
    (fun _ hit => passes_range_check (converted hit) && hit_registered sa hit)
    peps = true ->
  forall warned_once,
    post (write_graph_loop sa path prob_param identifier peps warned_once)
         (fun o evs =>
            is_normal o = true
            /\ p_values evs = List.map converted (encoded_hits identifier peps)
            /\ warnings evs =
               if warned_once || is_nil (encoded_hits identifier peps)
               then 0%nat else 1%nat).
Proof.
  induction peps as [|pep rest IH]; intros Hkind Hok warned;
    cbn [write_graph_loop].
  - apply post_ret. rewrite orb_true_r. repeat split.
  - unfold for_encoded_hits in Hkind, Hok. cbn [forallb] in Hkind, Hok.
    apply andb_true_iff in Hkind, Hok.
    destruct Hkind as [Hkind1 Hkind], Hok as [Hok1 Hok].
    specialize (IH Hkind Hok).
    unfold encoded_hits. cbn [flat_map]. fold (encoded_hits identifier rest).
    assert (Hskip : forall pep',
      post (rest' <- write_graph_loop sa path prob_param identifier rest warned ;;
            ret (pep' :: rest'))
        (fun o evs =>
           is_normal o = true
           /\ p_values evs = List.map converted (encoded_hits identifier rest)
           /\ warnings evs =
              if warned || is_nil (encoded_hits identifier rest)
              then 0%nat else 1%nat)).
    { intros pep'. eapply post_bind; [apply IH | |].
      - intros rest' evs1 (_ & Hp & Hw). apply post_ret.
        rewrite app_nil_r. repeat split; assumption.
      - intros [a|e| |] evs1 Hn (Ho & _); discriminate. }
    destruct (encoded_hit identifier pep) as [hit0|] eqn:Eenc;
      unfold encoded_hit in Eenc;
      destruct ((negb (str_empty identifier)
                 && negb (String.eqb (pi_identifier pep) identifier))
                || is_nil (pi_hits pep)) eqn:Efilter;
      try discriminate Eenc; try (now apply Hskip);
      (destruct (pi_hits (PeptideIdentification_sort pep)) as [|hit hs] eqn:Ehits;
       [ try discriminate Eenc |
         destruct (str_empty (ph_sequence hit)
                   || is_nil (set_elements (extractProteinAccessions hit)));
         try discriminate Eenc; try (now apply Hskip) ]).
    2:{ exfalso. apply orb_false_iff in Efilter. destruct Efilter as [_ Hnil].
        destruct (pi_hits pep) as [|h0 l0] eqn:E0; [discriminate|].
        assert (Hin : In h0 (pi_hits (PeptideIdentification_sort pep))).
        { apply sorted_hits_In. rewrite E0. now left. }
        rewrite Ehits in Hin. destruct Hin. }
    injection Eenc as <-.
    clear Hskip. apply andb_true_iff in Hok1. destruct Hok1 as [Hrange Hreg].
    eapply post_bind;
      [apply (resolve_error_probability _ _ _ warned Hkind1) | |].
    2:{ intros o evs1 Hn [-> _]. discriminate. }
    intros r evs1 [Hr Hevs1]. injection Hr as ->. cbv beta iota.
    rewrite (check_range_passes _ _ Hrange). cbn [str_empty negb].
    apply post_emit_then.
    eapply post_bind;
      [apply (write_accessions_r_lines sa path), extract_registered, Hreg | |].
    2:{ intros o evs2 Hn [-> _]. discriminate. }
    intros [] evs2 [_ Hr2]. destruct (r_lines_silent _ _ Hr2) as [Hp2 Hw2].
    apply post_emit_then.
    eapply post_bind; [apply (IH true) | |].
    2:{ intros [a|e| |] evs3 Hn (Ho & _); discriminate. }
    intros rest' evs3 (_ & Hp3 & Hw3). apply post_ret.
    rewrite app_nil_r. split; [reflexivity|].
    cbn [app List.map is_nil orb]. rewrite orb_false_r. split.
    + rewrite p_values_app.
      change (p_values (?a :: evs2 ++ ?b :: evs3))
        with (p_values ([a] ++ evs2 ++ [b] ++ evs3)).
      rewrite !p_values_app, Hp2, Hp3. subst evs1.
      destruct warned; reflexivity.
    + rewrite warnings_app.
      change (warnings (?a :: evs2 ++ ?b :: evs3))
        with (warnings ([a] ++ evs2 ++ [b] ++ evs3)).
      rewrite !warnings_app, Hw2, Hw3. subst evs1.
      destruct warned; reflexivity.
Qed.

(** C7.  In a batch where every encoded hit has a posterior error
    probability (lower is better, score type "posterior error probability"
    or "consensus_...", no alternate score) the "p" lines hold [1 - score] of
    the encoded hits, in their order, and the warning is logged once if there
    is such a hit, whatever their number.  The converted scores pass the
    range check and the accessions are registered, so the call returns. *)
Theorem error_probabilities_are_converted
    (peps : list PeptideIdentification) (w : list Event) :
  for_encoded_hits identifier (is_error_probability prob_param) peps = true ->
  for_encoded_hits identifier
    (fun _ hit => passes_range_check (converted hit) && hit_registered sa hit)
    peps = true ->
  exists peps' evs,
    writePSMGraph_ sa peps path prob_param identifier w
    = (Normal peps', (w ++ evs)%list)
    /\ p_values evs
       = List.map (fun hit => dsub d1 (ph_score hit))
                  (encoded_hits identifier peps)
    /\ warnings evs = if is_nil (encoded_hits identifier peps)
                      then 0%nat else 1%nat.
Proof.
  intros Hkind Hok.
  assert (H : post (writePSMGraph_ sa peps path prob_param identifier)
                (fun o evs =>
                   is_normal o = true
                   /\ p_values evs
                      = List.map converted (encoded_hits identifier peps)
                   /\ warnings evs = if is_nil (encoded_hits identifier peps)
                                     then 0%nat else 1%nat)).
  { unfold writePSMGraph_. apply post_emit_then.
    eapply post_bind;
      [apply post_scope_returns;
       [apply (write_graph_loop_converts peps Hkind Hok false)
       | intros [a|e| |] evs1 (Ho & _); first [reflexivity | discriminate Ho]]
      | |].
    - intros peps' evs1 (_ & Hp & Hw). apply post_emit_then, post_ret.
      split; [reflexivity|].
      change (Open path :: evs1 ++ [Close path])
        with ([Open path] ++ evs1 ++ [Close path])%list.
      rewrite !p_values_app, !warnings_app, Hp, Hw. cbn.
      rewrite app_nil_r, Nat.add_0_r. now split.
    - intros [a|e| |] evs1 Hn (Ho & _); discriminate. }
  destruct (post_run _ _ w H) as ([peps'|e| |] & evs & Hrun & Ho & Hp & Hw);
    try discriminate.
  exists peps', evs. auto.
Qed.

End ErrorProbabilities.

(** The example of C7: two hits with posterior error probabilities 0.5 and
    0.25 give the "p" lines 0.5 and 0.75 and one warning. *)
Lemma error_probabilities_witness :
  exists peps' evs,
    writePSMGraph_ (sanitize Stub.two_runs) Stub.two_pep_peptides "graph.txt"
                   "Posterior Probability_score" "run1" []
    = (Normal peps', ([] ++ evs)%list)
    /\ p_values evs
       = List.map (fun hit => dsub d1 (ph_score hit))
                  (encoded_hits "run1" Stub.two_pep_peptides)
    /\ warnings evs = if is_nil (encoded_hits "run1" Stub.two_pep_peptides)
                      then 0%nat else 1%nat.
Proof.
  apply error_probabilities_are_converted; vm_compute; reflexivity.
Defined.

(* ===================================================================== *)
(** * The outcome of separate runs *)

Lemma bind_normal_inv {A B} (m : M A) (k : A -> M B) (w w' : list Event)
    (b : B) :
  bind m k w = (Normal b, w') ->
  exists a w1, m w = (Normal a, w1) /\ k a w1 = (Normal b, w').
Proof.
  unfold bind. destruct (m w) as [[a|e| |] w1]; try discriminate. eauto.
Qed.

(** ** Calls that start no process *)

Definition not_start (e : Event) : bool := negb (is_start e).

Definition quiet {A} (m : M A) : Prop :=
  post m (fun _ evs => all_events not_start evs).

Lemma quiet_ret {A} (a : A) : quiet (ret a).
Proof. now apply post_ret. Qed.

Lemma quiet_throw {A} (e : Exception) : quiet (@throw A e).
Proof. now apply post_throw. Qed.

Lemma quiet_end {A} : quiet (@end_dereferenced A).
Proof. now apply post_end. Qed.

Lemma quiet_lift {A} (o : Outcome A) : quiet (lift o).
Proof. now apply post_lift. Qed.

Lemma quiet_emit (e : Event) : is_start e = false -> quiet (emit e).
Proof.
  intros H. apply post_emit. apply all_events_cons.
  unfold not_start. now rewrite H.
Qed.

Lemma quiet_bind {A B} (m : M A) (k : A -> M B) :
  quiet m -> (forall a, quiet (k a)) -> quiet (bind m k).
Proof.
  intros Hm Hk. eapply post_bind; [exact Hm | |].
  - intros a evs1 H1. eapply post_weaken; [apply Hk|].
    intros o evs2 H2. apply all_events_app. now split.
  - intros o evs1 _ H1. exact H1.
Qed.

Lemma quiet_when (b : bool) (m : M unit) : quiet m -> quiet (when b m).
Proof. destruct b; cbn; [auto | intros _; apply quiet_ret]. Qed.

Lemma quiet_scope {A} (path : string) (m : M A) :
  quiet m -> quiet (ofstream_scope path m).
Proof.
  intros H. eapply post_scope; [exact H | auto |].
  intros e evs Hall. apply all_events_app. split; [exact Hall | reflexivity].
Qed.

Ltac quiet_step :=
  first [ apply quiet_ret | apply quiet_throw | apply quiet_end
        | apply quiet_lift | apply quiet_emit; reflexivity
        | apply quiet_when | apply quiet_scope
        | apply quiet_bind; [|intros ?]
        | match goal with
          | |- quiet (match ?x with _ => _ end) => destruct x
          end ].

Lemma safe_quiet {A} (path : string) (m : M A) : safe path m -> quiet m.
Proof.
  intros H. eapply post_weaken; [exact H|].
  intros o evs [_ Hall]. eapply all_events_weaken; [|exact Hall].
  intros e He. unfold not_start. now rewrite (log_or_file_not_start _ _ He).
Qed.

Lemma write_accessions_quiet (sa : StringBimap) (path : string)
    (accs : list string) : quiet (write_accessions sa path accs).
Proof.
  induction accs as [|acc rest IH]; cbn [write_accessions];
    repeat quiet_step; exact IH.
Qed.

Lemma write_graph_loop_quiet (sa : StringBimap)
    (path prob_param identifier : string)
    (peps : list PeptideIdentification) :
  forall warned_once,
    quiet (write_graph_loop sa path prob_param identifier peps warned_once).
Proof.
  induction peps as [|pep rest IH]; intros warned; cbn [write_graph_loop].
  - apply quiet_ret.
  - repeat first [ apply IH | apply write_accessions_quiet
                 | apply (safe_quiet path), resolve_score_safe
                 | quiet_step ].
Qed.

Lemma writePSMGraph_quiet (sa : StringBimap)
    (peps : list PeptideIdentification) (path prob_param identifier : string) :
  quiet (writePSMGraph_ sa peps path prob_param identifier).
Proof.
  unfold writePSMGraph_.
  repeat first [ apply write_graph_loop_quiet | quiet_step ].
Qed.

Section Runs.
Context `{Ext : Externals}.

Lemma gather_target_decoy_quiet (sa : StringBimap) (hs : list ProteinHit) :
  forall targets decoys, quiet (gather_target_decoy sa hs targets decoys).
Proof.
  induction hs as [|h hs IH]; intros targets decoys;
    cbn [gather_target_decoy]; repeat first [ apply IH | quiet_step ].
Qed.

Lemma writeProteinLists_quiet (sa : StringBimap)
    (protein : ProteinIdentification) (path : string) :
  quiet (writeProteinLists_ sa protein path).
Proof.
  unfold writeProteinLists_.
  repeat first [ apply gather_target_decoy_quiet
               | apply (safe_quiet path), write_set_safe
               | quiet_step ].
Qed.

Lemma generate_files_quiet (sa : StringBimap) (opts : Options)
    (protein : ProteinIdentification) (sh : Shared) (choose_params : bool)
    (temp_dir : string) (counter : Size) :
  quiet (generate_files sa opts protein sh choose_params temp_dir counter).
Proof.
  unfold generate_files.
  repeat first [ apply writePSMGraph_quiet | apply writeProteinLists_quiet
               | quiet_step ].
Qed.

Lemma write_text_file_quiet (path text : string) :
  quiet (write_text_file path text).
Proof. unfold write_text_file. repeat quiet_step. Qed.

Lemma parse_params_output_quiet (opts : Options) (temp_dir num : string)
    (params_output : string) (sh : Shared) :
  quiet (parse_params_output opts temp_dir num params_output sh).
Proof.
  unfold parse_params_output.
  repeat first [ apply write_text_file_quiet | quiet_step ].
Qed.

Lemma read_results_quiet (sa : StringBimap) (opts : Options)
    (protein : ProteinIdentification) (sh : Shared) (choose_params : bool)
    (temp_dir : string) (keep_zero_group : bool) (counter : Size)
    (std_out std_err : string) :
  quiet (read_results sa opts protein sh choose_params temp_dir keep_zero_group
                      counter std_out std_err).
Proof.
  unfold read_results.
  repeat first [ apply parse_params_output_quiet | apply write_text_file_quiet
               | quiet_step ].
Qed.

Definition count_starts (evs : list Event) : nat :=
  List.length (filter is_start evs).

Lemma count_starts_app (e1 e2 : list Event) :
  count_starts (e1 ++ e2) = (count_starts e1 + count_starts e2)%nat.
Proof. unfold count_starts. now rewrite filter_app, length_app. Qed.

Lemma count_starts_quiet (evs : list Event) :
  all_events not_start evs -> count_starts evs = 0%nat.
Proof.
  unfold count_starts. induction evs as [|e evs IH]; [reflexivity|].
  intros H. apply all_events_cons in H. destruct H as [He Hevs].
  cbn [filter]. unfold not_start in He. apply negb_true_iff in He.
  rewrite He. now apply IH.
Qed.

Lemma quiet_run {A} (m : M A) (w w' : list Event) (o : Outcome A) :
  quiet m -> m w = (o, w') ->
  exists evs, w' = (w ++ evs)%list /\ count_starts evs = 0%nat.
Proof.
  intros H E. destruct (H w) as (evs & Hs & Hall). rewrite E in Hs.
  exists evs. split; [exact Hs | now apply count_starts_quiet].
Qed.

(** A call whose engine does not finish logs the error and returns
    [false]; it does not throw. *)
Lemma engine_failure_returns_false (sa : StringBimap) (opts : Options)
    (protein : ProteinIdentification) (sh sh' : Shared) (choose_params : bool)
    (exe temp_dir : string) (keep_zero_group : bool) (counter : Size)
    (w w1 : list Event) :
  generate_files sa opts protein sh choose_params temp_dir counter w
  = (Normal sh', w1) ->
  QProcess_run exe (fido_params_ sh')
               (w1 ++ [Start exe (fido_params_ sh')])%list = None ->
  exists error_line,
    runFido_ sa opts protein sh choose_params exe temp_dir keep_zero_group
             counter w
    = (Normal (false, protein, sh'),
       (w1 ++ [Start exe (fido_params_ sh'); Put LOG_ERROR error_line])%list).
Proof.
  intros Hgen Hrun. unfold runFido_, bind at 1. rewrite Hgen.
  unfold bind at 1, emit. unfold bind at 1, history. rewrite Hrun.
  unfold report_failure, bind, emit, ret. eexists.
  rewrite <- app_assoc. reflexivity.
Qed.

(** A call that returns has started the engine once. *)
Lemma runFido_starts_once (sa : StringBimap) (opts : Options)
    (protein : ProteinIdentification) (sh : Shared) (choose_params : bool)
    (exe temp_dir : string) (keep_zero_group : bool) (counter : Size)
    (w w' : list Event) r :
  runFido_ sa opts protein sh choose_params exe temp_dir keep_zero_group
           counter w = (Normal r, w') ->
  exists evs, w' = (w ++ evs)%list /\ count_starts evs = 1%nat.
Proof.
  unfold runFido_. intros H.
  apply bind_normal_inv in H. destruct H as (sh1 & w1 & Hgen & H).
  destruct (quiet_run _ _ _ _ (generate_files_quiet _ _ _ _ _ _ _) Hgen)
    as (evs1 & -> & Hc1).
  unfold bind at 1, emit in H. unfold bind at 1, history in H.
  assert (Hrest : exists evs2,
            w' = (((w ++ evs1) ++ [Start exe (fido_params_ sh1)]) ++ evs2)%list
            /\ count_starts evs2 = 0%nat).
  { destruct (QProcess_run exe (fido_params_ sh1)
                ((w ++ evs1) ++ [Start exe (fido_params_ sh1)])%list)
      as [[std_out std_err]|].
    - exact (quiet_run _ _ _ _ (read_results_quiet _ _ _ _ _ _ _ _ _ _) H).
    - refine (quiet_run _ _ _ _ _ H). unfold report_failure.
      repeat quiet_step. }
  destruct Hrest as (evs2 & -> & Hc2).
  exists (evs1 ++ [Start exe (fido_params_ sh1)] ++ evs2)%list. split.
  - now rewrite <- !app_assoc.
  - rewrite !count_starts_app, Hc1, Hc2. reflexivity.
Qed.

Lemma last_cons_default {A} (l : list A) (x d : A) :
  List.last (x :: l) d = List.last l x.
Proof.
  revert x d. induction l as [|y l IH]; intros x d; [reflexivity|].
  change (List.last (x :: y :: l) d) with (List.last (y :: l) d).
  now rewrite !IH.
Qed.

Section Loop.
Variable sa : StringBimap.
Variable opts : Options.
Variables exe temp_dir : string.

(** The calls of [runFido_] for the runs, one after the other: each call
    follows the log line of its run and starts from the counter, the shared
    arguments and the history that the call before has left.  Every call
    returns, with [true] or with [false]; [results] holds the flag and the
    run that each call hands back. *)
Inductive calls_return
  : list ProteinIdentification -> Size -> Shared -> list Event ->
    list (bool * ProteinIdentification) -> Shared -> list Event -> Prop :=
| no_call (c : Size) (sh : Shared) (w : list Event) :
    calls_return [] c sh w [] sh w
| call_returns (prot : ProteinIdentification)
    (rest : list ProteinIdentification) (c : Size) (sh : Shared)
    (w : list Event) (flag : bool) (prot' : ProteinIdentification)
    (sh1 : Shared) (w1 : list Event)
    (results : list (bool * ProteinIdentification)) (sh' : Shared)
    (w' : list Event) :
    runFido_ sa opts prot sh (choose_params_of opts) exe temp_dir
             (opt_keep_zero_group opts) c
             (w ++ [Put LOG_INFO [Str "Protein identification run "; Num c;
                                  Str ":"; Endl]])%list
    = (Normal (flag, prot', sh1), w1) ->
    calls_return rest (Size_incr c) sh1 w1 results sh' w' ->
    calls_return (prot :: rest) c sh w ((flag, prot') :: results) sh' w'.

(** When every call returns, the loop over the runs goes through all of
    them, whatever the flags: it returns the flag of the last call, the runs
    as the calls hand them back, and the shared arguments as the last call
    leaves them. *)
Lemma separate_runs_loop_calls (proteins : list ProteinIdentification)
    (c : Size) (sh : Shared) (w : list Event)
    (results : list (bool * ProteinIdentification)) (sh' : Shared)
    (w' : list Event) :
  calls_return proteins c sh w results sh' w' ->
  forall fido_success,
    separate_runs_loop sa opts exe temp_dir proteins c sh fido_success w
    = (Normal (List.last (List.map fst results) fido_success,
               List.map snd results, sh'), w').
Proof.
  intros H.
  induction H as [c sh w
                 |prot rest c sh w flag prot' sh1 w1 results sh' w' Hrun _ IH];
    intros fido_success.
  - reflexivity.
  - cbn [separate_runs_loop]. unfold bind at 1, emit. unfold bind at 1.
    rewrite Hrun. unfold bind at 1. rewrite (IH flag). unfold ret.
    cbn [List.map fst snd]. now rewrite last_cons_default.
Qed.

(** The calls start the engine once for every run, and hand back one result
    for every run. *)
Lemma calls_start_once (proteins : list ProteinIdentification)
    (c : Size) (sh : Shared) (w : list Event)
    (results : list (bool * ProteinIdentification)) (sh' : Shared)
    (w' : list Event) :
  calls_return proteins c sh w results sh' w' ->
  List.length results = List.length proteins
  /\ exists evs, w' = (w ++ evs)%list
                 /\ count_starts evs = List.length proteins.
Proof.
  intros H.
  induction H as [c sh w
                 |prot rest c sh w flag prot' sh1 w1 results sh' w' Hrun _ IH].
  - split; [reflexivity|]. exists []. now rewrite app_nil_r.
  - destruct IH as [Hlen (evs2 & -> & Hc2)].
    split; [cbn [List.length]; now rewrite Hlen|].
    destruct (runFido_starts_once _ _ _ _ _ _ _ _ _ _ _ _ Hrun)
      as (evs1 & -> & Hc1).
    eexists. rewrite <- !app_assoc. split; [reflexivity|].
    rewrite !count_starts_app, Hc1, Hc2. reflexivity.
Qed.

End Loop.

(** C8.  The runs are processed separately.  Every call of [runFido_],
    taken from the state the call before has left, returns, some with
    [false]: a call whose engine does not finish returns [false], it does not
    throw.  Then [main_] returns: it has gone through all the runs and
    started the engine once for each of them, it stores the runs as the calls
    have handed them back, and its exit code is decided by the flag of the
    call for the last run alone, whatever the flags of the calls before. *)
Theorem separate_runs_report_last_outcome (opts : Options)
    (init : list ProteinIdentification) (last : ProteinIdentification)
    (peps : list PeptideIdentification) (w w1 : list Event)
    (results : list (bool * ProteinIdentification)) (flag : bool)
    (last' : ProteinIdentification) (sh1 : Shared) :
  opt_separate_runs opts = true ->
  is_nil peps = false ->
  let sa := sanitize (init ++ [last]) in
  let temp_dir :=
    QDir_toNativeSeparators
      (File_getTempDirectory ++ "/" ++ File_getUniqueName ++ "/") in
  let sh := {| peptides_ := peps;
               fido_params_ := initial_fido_params opts;
               prob_protein_ := opt_prob_protein opts;
               prob_peptide_ := opt_prob_peptide opts;
               prob_spurious_ := opt_prob_spurious opts |} in
  calls_return sa opts (executable opts) temp_dir (init ++ [last]) 1%N sh
    (w ++ [Put LOG_INFO [Str "Reading input data..."; Endl];
           Load (opt_in opts); Mkpath temp_dir])%list
    (results ++ [(flag, last')]) sh1 w1 ->
  (exists cleanup,
      main_ opts (init ++ [last]) peps w
      = (Normal (if flag then EXECUTION_OK else EXTERNAL_PROGRAM_ERROR),
         (w1 ++ Store (opt_out opts) (List.map snd results ++ [last'])
                      (peptides_ sh1)
             :: cleanup)%list)
      /\ count_starts cleanup = 0%nat)
  /\ List.length results = List.length init
  /\ (exists evs, w1 = (w ++ evs)%list
                  /\ count_starts evs = List.length (init ++ [last]))
  /\ (forall protein sh sh' counter v v1,
        generate_files sa opts protein sh (choose_params_of opts) temp_dir
                       counter v = (Normal sh', v1) ->
        QProcess_run (executable opts) (fido_params_ sh')
                     (v1 ++ [Start (executable opts) (fido_params_ sh')])%list
        = None ->
        exists v',
          runFido_ sa opts protein sh (choose_params_of opts) (executable opts)
                   temp_dir (opt_keep_zero_group opts) counter v
          = (Normal (false, protein, sh'), v')).
Proof.
  intros Hsep Hpeps sa temp_dir sh Hcalls.
  split; [|split; [|split]].
  - pose proof (separate_runs_loop_calls _ _ _ _ _ _ _ _ _ _ _ Hcalls false)
      as Hloop.
    rewrite !map_app in Hloop. cbn [List.map fst snd] in Hloop.
    rewrite last_last in Hloop.
    unfold main_.
    set (clean_up := if (1 <? debug_level_ opts)%Z then _ else _).
    assert (Hclean : exists cleanup,
              forall v, clean_up v = (Normal tt, (v ++ cleanup)%list)
                        /\ count_starts cleanup = 0%nat).
    { unfold clean_up. destruct (1 <? debug_level_ opts)%Z.
      - eexists. intros v. split; reflexivity.
      - destruct (debug_level_ opts =? 1)%Z; eexists; intros v;
          unfold bind, emit, when, ret; rewrite <- ?app_assoc;
          (split; [reflexivity|]); reflexivity. }
    destruct Hclean as (cleanup & Hclean).
    exists cleanup. split; [|apply (Hclean [])].
    unfold bind at 1, emit. unfold bind at 1, emit.
    replace (is_nil (init ++ [last])) with false
      by (destruct init; reflexivity).
    rewrite Hpeps. cbn [orb]. unfold bind at 1, emit. rewrite Hsep.
    fold sa temp_dir sh. unfold bind at 1.
    rewrite <- !app_assoc. cbn [app].
    rewrite Hloop. unfold bind at 1, emit. unfold bind at 1.
    destruct (Hclean (w1 ++ [Store (opt_out opts)
                               (List.map snd results ++ [last'])
                               (peptides_ sh1)])%list) as [-> _].
    unfold ret. now rewrite <- app_assoc.
  - destruct (calls_start_once _ _ _ _ _ _ _ _ _ _ _ Hcalls) as [Hlen _].
    rewrite !length_app in Hlen. cbn [List.length] in Hlen. lia.
  - destruct (calls_start_once _ _ _ _ _ _ _ _ _ _ _ Hcalls)
      as [_ (evs & -> & Hc)].
    eexists. rewrite <- app_assoc. split; [reflexivity|].
    rewrite count_starts_app, Hc. reflexivity.
  - intros protein sh0 sh' counter v v1 Hgen Hrun.
    destruct (engine_failure_returns_false _ _ _ _ _ _ _ _
                (opt_keep_zero_group opts) _ _ _ Hgen Hrun) as [l Hl].
    eauto.
Qed.

End Runs.

(** The example of C8: the engine fails for the first of two runs and works
    for the second.  Both calls return, the first with [false]; the tool
    stores both runs and reports success. *)
Lemma separate_runs_witness :
  let Ext := Stub.externals [1%nat] None in
  let opts := Stub.options true d0 in
  let sa := sanitize Stub.two_runs in
  let run1 := Stub.run "run1" [Stub.protein_hit "P1" "target";
                               Stub.protein_hit "D1" "decoy"] in
  let run2 := Stub.run "run2" [Stub.protein_hit "P2" "target";
                               Stub.protein_hit "D2" "decoy"] in
  let sh0 := {| peptides_ := Stub.two_peptides;
                fido_params_ := @initial_fido_params Ext opts;
                prob_protein_ := d0; prob_peptide_ := d0;
                prob_spurious_ := d0 |} in
  let run_line c :=
    Put LOG_INFO [Str "Protein identification run "; Num c; Str ":"; Endl] in
  let call1 :=
    @runFido_ Ext sa opts run1 sh0 true "FidoChooseParameters" "/tmp/fido/"
              false 1%N
              [Put LOG_INFO [Str "Reading input data..."; Endl];
               Load "in.idXML"; Mkpath "/tmp/fido/"; run_line 1%N] in
  let r1 := returned (true, run1, sh0) call1 in
  let call2 :=
    @runFido_ Ext sa opts run2 (snd r1) true "FidoChooseParameters"
              "/tmp/fido/" false 2%N (snd call1 ++ [run_line 2%N])%list in
  let r2 := returned (false, run2, sh0) call2 in
  (fst (fst r1) = false /\ fst (fst r2) = true)
  /\ (exists cleanup,
        @main_ Ext opts [run1; run2] Stub.two_peptides []
        = (Normal (if fst (fst r2) then EXECUTION_OK
                   else EXTERNAL_PROGRAM_ERROR),
           (snd call2
              ++ Store "out.idXML" [snd (fst r1); snd (fst r2)]
                       (peptides_ (snd r2))
              :: cleanup)%list)
        /\ count_starts cleanup = 0%nat)
  /\ (exists evs, snd call2 = ([] ++ evs)%list /\ count_starts evs = 2%nat).
Proof.
  intros Ext opts sa run1 run2 sh0 run_line call1 r1 call2 r2.
  split; [split; vm_compute; reflexivity|].
  destruct (@separate_runs_report_last_outcome Ext opts [run1] run2
              Stub.two_peptides [] (snd call2)
              [(fst (fst r1), snd (fst r1))] (fst (fst r2)) (snd (fst r2))
              (snd r2) eq_refl eq_refl)
    as (H1 & _ & H2 & _).
  - apply call_returns with (sh1 := snd r1) (w1 := snd call1);
      [vm_compute; reflexivity|].
    apply call_returns with (sh1 := snd r2) (w1 := snd call2);
      [vm_compute; reflexivity | apply no_call].
  - split; [exact H1 | exact H2].
Defined.

(* ===================================================================== *)
(** * The tokens of a line *)

(** The words of a text: its maximal runs of characters that are not white
    space.  [cur] is the word being read. *)
Fixpoint words_from (s cur : string) : list string :=
  match s with
  | EmptyString => if str_empty cur then [] else [cur]
  | String c r =>
      if isspace c then
        if str_empty cur then words_from r EmptyString
        else cur :: words_from r EmptyString
      else words_from r (cur ++ String c EmptyString)
  end.

Definition words (s : string) : list string := words_from s EmptyString.

Lemma append_empty_r (s : string) : s ++ EmptyString = s.
Proof. induction s; cbn; congruence. Qed.

Lemma append_assoc (a b c : string) : (a ++ b) ++ c = a ++ b ++ c.
Proof. induction a; cbn; congruence. Qed.

Lemma append_char_not_empty (s : string) (c : ascii) :
  str_empty (s ++ String c EmptyString) = false.
Proof. destruct s; reflexivity. Qed.

Lemma words_from_word (s cur : string) :
  str_empty cur = false ->
  words_from s cur = (cur ++ take_word s) :: words (drop_word s).
Proof.
  revert cur. induction s as [|c r IH]; intros cur Hcur;
    cbn [words_from take_word drop_word].
  - now rewrite Hcur, append_empty_r.
  - destruct (isspace c) eqn:Ec.
    + rewrite Hcur, append_empty_r. unfold words. cbn [words_from].
      now rewrite Ec.
    + rewrite (IH _ (append_char_not_empty cur c)), append_assoc. reflexivity.
Qed.

Lemma words_skipws (s : string) : words s = words (skipws s).
Proof.
  induction s as [|c r IH]; [reflexivity|].
  cbn [skipws]. destruct (isspace c) eqn:Ec; [|reflexivity].
  unfold words. cbn [words_from]. rewrite Ec. exact IH.
Qed.

Lemma skipws_head (s : string) (c : ascii) (r : string) :
  skipws s = String c r -> isspace c = false.
Proof.
  induction s as [|d s IH]; cbn [skipws]; [discriminate|].
  destruct (isspace d) eqn:Ed; [exact IH|].
  intros H. injection H as <- _. exact Ed.
Qed.

Lemma words_blank (s : string) : str_empty (skipws s) = true -> words s = [].
Proof.
  intros H. rewrite words_skipws. destruct (skipws s); [reflexivity|discriminate].
Qed.

Lemma words_next (s : string) :
  str_empty (skipws s) = false ->
  words s = take_word (skipws s) :: words (drop_word (skipws s)).
Proof.
  intros H. rewrite words_skipws.
  destruct (skipws s) as [|c r] eqn:E; [discriminate|].
  pose proof (skipws_head _ _ _ E) as Hc.
  unfold words at 1. cbn [words_from take_word drop_word]. rewrite Hc.
  cbn [append]. now rewrite (words_from_word r (String c EmptyString) eq_refl).
Qed.

Lemma skipws_length (s : string) :
  (String.length (skipws s) <= String.length s)%nat.
Proof.
  induction s as [|c r IH]; cbn [skipws]; [lia|].
  destruct (isspace c); cbn [String.length]; lia.
Qed.

Lemma drop_word_length (s : string) :
  (String.length (drop_word s) <= String.length s)%nat.
Proof.
  induction s as [|c r IH]; cbn [drop_word]; [lia|].
  destruct (isspace c); cbn [String.length]; lia.
Qed.

Lemma next_word_shorter (s : string) :
  str_empty (skipws s) = false ->
  (String.length (drop_word (skipws s)) < String.length s)%nat.
Proof.
  intros H. pose proof (skipws_length s) as Hlen.
  destruct (skipws s) as [|c r] eqn:E; [discriminate|].
  pose proof (skipws_head _ _ _ E) as Hc.
  cbn [drop_word]. rewrite Hc.
  pose proof (drop_word_length r). cbn [String.length] in Hlen. lia.
Qed.

(** ** Reading the tokens *)

(** The stream after a successful extraction that left [r] unread. *)
Definition stream_at (r : string) : istream :=
  {| unread := r; eofbit := str_empty r; failbit := false |}.

Lemma extract_string_end (r str : string) :
  str_empty (skipws r) = true ->
  fst (extract_string (stream_at r) str) = str
  /\ failbit (snd (extract_string (stream_at r) str)) = true.
Proof.
  intros H. unfold extract_string, sentry, stream_at, good.
  cbn [eofbit failbit unread negb andb].
  destruct (str_empty r); cbn [negb andb]; [now split|].
  rewrite H. now split.
Qed.

Lemma extract_string_next (r str : string) :
  str_empty (skipws r) = false ->
  extract_string (stream_at r) str
  = (take_word (skipws r), stream_at (drop_word (skipws r))).
Proof.
  intros H. unfold extract_string, sentry, stream_at, good.
  cbn [eofbit failbit unread negb andb].
  destruct (str_empty r) eqn:Er.
  - destruct r; [discriminate H | discriminate Er].
  - cbn [negb andb]. now rewrite H.
Qed.

Lemma obind_ext {A B} (o : Outcome A) (k k' : A -> Outcome B) :
  (forall a, k a = k' a) -> obind o k = obind o k'.
Proof. intros H. destruct o; cbn; auto. Qed.

Section Tokens.
Variable sa : StringBimap.
Variable keep_zero_group : bool.
Variable p : double.

(** The rounds of the loop of lines 487-501 on the words of the line: one
    round for each word, and a last round in which the extraction fails and
    [accession] keeps its value. *)
Fixpoint use_words (ws : list string) (accession : string) (zero : Size)
    (group_accessions : list string) : Outcome (Size * list string) :=
  match ws with
  | [] =>
      obind (use_accession sa keep_zero_group p accession zero group_accessions)
            (fun r => let '(_, zero, group_accessions) := r in
                      Normal (zero, group_accessions))
  | w :: ws' =>
      obind (use_accession sa keep_zero_group p w zero group_accessions)
            (fun r => let '(accession, zero, group_accessions) := r in
                      use_words ws' accession zero group_accessions)
  end.

Lemma read_accessions_failed (fuel : nat) (line : istream) (accession : string)
    (zero : Size) (g : list string) :
  failbit line = true ->
  read_accessions sa fuel keep_zero_group p line accession zero g
  = Normal (zero, g).
Proof.
  intros H. destruct fuel; cbn [read_accessions]; unfold to_bool;
    now rewrite H.
Qed.

(** With a round of fuel for every character and one more, the loop makes
    the rounds of [use_words]: the fuel does not run out. *)
Lemma read_accessions_words (fuel : nat) :
  forall (r accession : string) (zero : Size) (g : list string),
    (String.length r < fuel)%nat ->
    read_accessions sa fuel keep_zero_group p (stream_at r) accession zero g
    = use_words (words r) accession zero g.
Proof.
  induction fuel as [|fuel IH]; intros r accession zero g Hfuel; [lia|].
  cbn [read_accessions]. unfold to_bool at 1. cbn [stream_at failbit negb].
  destruct (str_empty (skipws r)) eqn:E.
  - destruct (extract_string_end r accession E) as [H1 H2].
    destruct (extract_string (stream_at r) accession) as [a line].
    cbn [fst snd] in H1, H2. subst a.
    rewrite (words_blank r E). cbn [use_words]. apply obind_ext.
    intros [[a z] g']. now apply read_accessions_failed.
  - rewrite (extract_string_next r accession E), (words_next r E).
    cbn [use_words]. apply obind_ext. intros [[a z] g'].
    apply IH. pose proof (next_word_shorter r E). lia.
Qed.

End Tokens.

(* ===================================================================== *)
(** * Groups with probability zero *)

(** A token that line 490 takes for an accession. *)
Definition is_accession_token (t : string) : bool :=
  (1 <? String.length t)%nat.

Definition Size_of_nat (n : nat) : Size := (N.of_nat n mod Size_modulus)%N.

Lemma Size_incr_of_nat (n : nat) : Size_incr (Size_of_nat n) = Size_of_nat (S n).
Proof.
  unfold Size_incr, Size_add, Size_of_nat.
  rewrite N.Div0.add_mod_idemp_l. f_equal. lia.
Qed.

Lemma Size_of_nat_small (n : nat) :
  (N.of_nat n < Size_modulus)%N -> Size_of_nat n = N.of_nat n.
Proof. apply N.mod_small. Qed.

(** The line ends with a token that is no accession, the closing brace. *)
Definition closed (ws : list string) (accession : string) : bool :=
  negb (is_accession_token (List.last ws accession)).

Lemma closed_cons (w : string) (ws : list string) (accession : string) :
  closed (w :: ws) accession = closed ws w.
Proof. unfold closed. now rewrite last_cons_default. Qed.

Lemma closed_nonempty (w : string) (ws : list string) (a b : string) :
  closed (w :: ws) a = closed (w :: ws) b.
Proof. now rewrite !closed_cons. Qed.

Section ZeroGroups.
Context `{Ext : Externals}.
Variable sa : StringBimap.

Definition known (t : string) : bool := is_some (map.get (right sa) t).

(** The accession a token stands for. *)
Definition original (t : string) : list string :=
  match map.get (right sa) t with
  | Some o => [o]
  | None => []
  end.

Lemma use_words_closed (keep_zero_group : bool) (p : double)
    (ws : list string) :
  forall (accession : string) (n : nat) (g : list string),
    closed ws accession = true ->
    (deq p d0 && negb keep_zero_group = false ->
     forallb known (filter is_accession_token ws) = true) ->
    use_words sa keep_zero_group p ws accession (Size_of_nat n) g
    = Normal
        (Size_of_nat
           (n + if deq p d0
                then List.length (filter is_accession_token ws) else 0),
         if deq p d0 && negb keep_zero_group then g
         else (g ++ flat_map original (filter is_accession_token ws))%list).
Proof.
  induction ws as [|w ws IH]; intros accession n g Hclosed Hknown;
    cbn [use_words filter].
  - unfold closed in Hclosed. cbn [List.last] in Hclosed.
    apply negb_true_iff in Hclosed. unfold is_accession_token in Hclosed.
    unfold use_accession. rewrite Hclosed. cbn [obind flat_map List.length].
    rewrite app_nil_r.
    destruct (deq p d0); cbn [andb]; rewrite Nat.add_0_r;
      destruct (negb keep_zero_group); reflexivity.
  - rewrite closed_cons in Hclosed.
    unfold use_accession. fold (is_accession_token w).
    destruct (is_accession_token w) eqn:Ew.
    + destruct ws as [|w2 ws2].
      { unfold closed in Hclosed. cbn [List.last] in Hclosed.
        rewrite Ew in Hclosed. discriminate. }
      set (ws := w2 :: ws2) in *.
      assert (Hzero : (if deq p d0 then Size_incr (Size_of_nat n)
                       else Size_of_nat n)
                      = Size_of_nat (if deq p d0 then S n else n)).
      { destruct (deq p d0); [apply Size_incr_of_nat | reflexivity]. }
      rewrite Hzero.
      destruct (deq p d0 && negb keep_zero_group) eqn:Edrop.
      * apply andb_true_iff in Edrop. destruct Edrop as [Hd Hk].
        cbn [obind].
        rewrite (IH w _ g Hclosed) by discriminate.
        rewrite Hd. cbn [List.length]. do 3 f_equal. lia.
      * specialize (Hknown eq_refl). cbn [filter] in Hknown.
        rewrite Ew in Hknown. cbn [forallb] in Hknown. apply andb_true_iff in Hknown.
        destruct Hknown as [Hw Hrest]. unfold known in Hw.
        cbn [flat_map].
        destruct (map.get (right sa) w) as [o|] eqn:Eg; [|discriminate Hw].
        replace (original w) with [o] by (unfold original; now rewrite Eg).
        cbn [obind].
        rewrite (IH o _ _) by
          (try (unfold ws; rewrite (closed_nonempty w2 ws2 o w));
           auto).
        cbn [List.length]. rewrite <- app_assoc. cbn [app].
        do 3 f_equal. destruct (deq p d0); lia.
    + cbn [obind].
      assert (Hknown' : deq p d0 && negb keep_zero_group = false ->
                forallb known (filter is_accession_token ws) = true).
      { intros Hd. specialize (Hknown Hd). cbn [filter] in Hknown.
        now rewrite Ew in Hknown. }
      rewrite (IH w n g Hclosed Hknown'). reflexivity.
Qed.

(** The probability of a line and what follows it, when it can be read. *)
Definition line_parts (text : string) : option (double * string) :=
  if str_empty (skipws text) then None else istream_double (skipws text).

Lemma extract_double_some (text : string) (p : double) (rest : string) :
  line_parts text = Some (p, rest) ->
  extract_double (istringstream text) d0 = (p, stream_at rest).
Proof.
  unfold line_parts, extract_double, sentry, istringstream, good.
  cbn [eofbit failbit unread negb andb].
  destruct (str_empty (skipws text)); [discriminate|].
  cbn [eofbit failbit unread]. intros ->. reflexivity.
Qed.

Lemma extract_double_none (text : string) :
  line_parts text = None ->
  failbit (snd (extract_double (istringstream text) d0)) = true.
Proof.
  unfold line_parts, extract_double, sentry, istringstream, good.
  cbn [eofbit failbit unread negb andb].
  destruct (str_empty (skipws text)); [reflexivity|].
  cbn [eofbit failbit unread]. intros ->. reflexivity.
Qed.

(** The tokens of the line that stand for accessions. *)
Definition accession_tokens (text : string) : list string :=
  match line_parts text with
  | Some (_, rest) => filter is_accession_token (words rest)
  | None => []
  end.

(** The probability of the line compares equal to [0.0]. *)
Definition zero_line (text : string) : bool :=
  match line_parts text with
  | Some (p, _) => deq p d0
  | None => false
  end.

Definition closed_line (text : string) : bool :=
  match line_parts text with
  | Some (_, rest) => closed (words rest) EmptyString
  | None => true
  end.

Definition tokens_known (text : string) : bool :=
  forallb known (accession_tokens text).

(** The group a line gives: its probability with the accessions of its
    tokens, sorted. *)
Definition group_of (keep_zero_group : bool) (text : string)
  : list ProteinGroup :=
  match line_parts text with
  | Some (p, _) =>
      if deq p d0 && negb keep_zero_group then []
      else
        let accs := flat_map original (accession_tokens text) in
        if is_nil accs then []
        else [{| probability := p; accessions := sort String.ltb accs |}]
  | None => []
  end.

Definition zero_count (lines : list string) : nat :=
  List.length (flat_map accession_tokens (filter zero_line lines)).

Lemma parse_line_spec (keep_zero_group : bool) (text : string) (acc : Parsed)
    (n : nat) :
  closed_line text = true -> tokens_known text = true ->
  zero_proteins acc = Size_of_nat n ->
  exists pc,
    parse_line sa keep_zero_group text acc
    = Normal {| parsed_groups :=
                  (parsed_groups acc ++ group_of keep_zero_group text)%list;
                protein_counter := pc;
                zero_proteins :=
                  Size_of_nat
                    (n + if zero_line text
                         then List.length (accession_tokens text) else 0) |}.
Proof.
  unfold closed_line, tokens_known, accession_tokens, zero_line, group_of,
    parse_line.
  intros Hclosed Hknown Hzero.
  destruct (line_parts text) as [[p rest]|] eqn:E.
  - rewrite (extract_double_some _ _ _ E).
    rewrite read_accessions_words by (cbn [stream_at unread]; lia).
    rewrite Hzero, (use_words_closed _ _ _ _ _ _ Hclosed (fun _ => Hknown)).
    cbn [obind]. unfold accession_tokens. rewrite E.
    destruct (deq p d0 && negb keep_zero_group); cbn [is_nil negb app].
    + eexists. rewrite app_nil_r. reflexivity.
    + destruct (flat_map original (filter is_accession_token (words rest)));
        cbn [is_nil negb]; eexists; rewrite ?app_nil_r; reflexivity.
  - pose proof (extract_double_none _ E) as Hfail.
    destruct (extract_double (istringstream text) d0) as [p line].
    cbn [snd] in Hfail. rewrite read_accessions_failed by exact Hfail.
    cbn [obind is_nil negb]. eexists. rewrite app_nil_r, Nat.add_0_r, Hzero.
    reflexivity.
Qed.

Lemma zero_count_cons (text : string) (lines : list string) :
  zero_count (text :: lines)
  = ((if zero_line text then List.length (accession_tokens text) else 0)
     + zero_count lines)%nat.
Proof.
  unfold zero_count. cbn [filter]. destruct (zero_line text); [|reflexivity].
  cbn [flat_map]. now rewrite length_app.
Qed.

Lemma parse_lines_spec (keep_zero_group : bool) (lines : list string) :
  forall (acc : Parsed) (n : nat),
    forallb closed_line lines = true -> forallb tokens_known lines = true ->
    zero_proteins acc = Size_of_nat n ->
    exists pc,
      parse_lines sa keep_zero_group lines acc
      = Normal {| parsed_groups :=
                    (parsed_groups acc
                     ++ flat_map (group_of keep_zero_group) lines)%list;
                  protein_counter := pc;
                  zero_proteins := Size_of_nat (n + zero_count lines) |}.
Proof.
  induction lines as [|text lines IH]; intros acc n Hclosed Hknown Hzero;
    cbn [parse_lines flat_map].
  - exists (protein_counter acc). unfold zero_count. cbn.
    rewrite app_nil_r, Nat.add_0_r, <- Hzero. now destruct acc.
  - cbn [forallb] in Hclosed, Hknown. apply andb_true_iff in Hclosed, Hknown.
    destruct Hclosed as [Hc1 Hc], Hknown as [Hk1 Hk].
    destruct (parse_line_spec keep_zero_group text acc n Hc1 Hk1 Hzero)
      as [pc1 ->].
    cbn [obind].
    match goal with
    | |- context [parse_lines _ _ _ ?a] =>
        destruct (IH a (n + (if zero_line text
                             then List.length (accession_tokens text) else 0))
                     Hc Hk eq_refl) as [pc ->]
    end.
    exists pc. cbn [parsed_groups]. rewrite zero_count_cons, <- app_assoc.
    do 3 f_equal. lia.
Qed.

Lemma parse_output_spec (keep_zero_group : bool) (lines : list string) :
  forallb closed_line lines = true -> forallb tokens_known lines = true ->
  exists pc,
    parse_output sa keep_zero_group lines
    = Normal {| parsed_groups :=
                  sort ProteinGroup_lt (flat_map (group_of keep_zero_group) lines);
                protein_counter := pc;
                zero_proteins := Size_of_nat (zero_count lines) |}.
Proof.
  intros Hclosed Hknown. unfold parse_output.
  destruct (parse_lines_spec keep_zero_group lines
              {| parsed_groups := []; protein_counter := 0%N;
                 zero_proteins := 0%N |} 0 Hclosed Hknown eq_refl) as [pc ->].
  exists pc. reflexivity.
Qed.

Lemma original_known (ts : list string) :
  forallb known ts = true ->
  List.length (flat_map original ts) = List.length ts.
Proof.
  induction ts as [|t ts IH]; [reflexivity|]. cbn [forallb flat_map].
  intros H. apply andb_true_iff in H. destruct H as [Ht Hts].
  unfold known in Ht. unfold original at 1.
  destruct (map.get (right sa) t); [|discriminate Ht].
  cbn [app List.length]. now rewrite IH.
Qed.

(** C5.  Every line of the output ends with a token that is no accession
    (the closing brace), and its tokens are sanitized accessions.  When the
    zero group is not kept, no group of the result has a probability equal to
    zero; when it is kept, a line with probability zero that lists an
    accession gives its group, with the accessions the tokens stand for, like
    any other line.  Either way the count of proteins with probability zero
    is the number of accession tokens on the lines with probability zero. *)
Theorem zero_groups_dropped_or_kept (lines : list string) :
  forallb closed_line lines = true ->
  forallb tokens_known lines = true ->
  (N.of_nat (zero_count lines) < Size_modulus)%N ->
  (exists r,
      parse_output sa false lines = Normal r
      /\ zero_proteins r = N.of_nat (zero_count lines)
      /\ forall g, In g (parsed_groups r) -> deq (probability g) d0 = false)
  /\ (exists r,
        parse_output sa true lines = Normal r
        /\ zero_proteins r = N.of_nat (zero_count lines)
        /\ forall text p rest,
             In text lines -> line_parts text = Some (p, rest) ->
             deq p d0 = true -> accession_tokens text <> [] ->
             In {| probability := p;
                   accessions :=
                     sort String.ltb
                          (flat_map original (accession_tokens text)) |}
                (parsed_groups r)).
Proof.
  intros Hclosed Hknown Hbound. split.
  - destruct (parse_output_spec false lines Hclosed Hknown) as [pc ->].
    eexists. split; [reflexivity|]. cbn [zero_proteins parsed_groups].
    split; [now apply Size_of_nat_small|].
    intros g Hg.
    apply (Permutation_in _ (Permutation_sym (sort_perm _ _))) in Hg.
    apply in_flat_map in Hg. destruct Hg as (text & _ & Hg).
    unfold group_of in Hg. destruct (line_parts text) as [[p rest]|]; [|destruct Hg].
    destruct (deq p d0) eqn:Ep; [destruct Hg|]. cbn [andb] in Hg.
    destruct (is_nil _); [destruct Hg|].
    destruct Hg as [<- | []]. exact Ep.
  - destruct (parse_output_spec true lines Hclosed Hknown) as [pc ->].
    eexists. split; [reflexivity|]. cbn [zero_proteins parsed_groups].
    split; [now apply Size_of_nat_small|].
    intros text p rest Hin Hparts Hp Htoks.
    apply (Permutation_in _ (sort_perm _ _)).
    apply in_flat_map. exists text. split; [exact Hin|].
    unfold group_of. rewrite Hparts, andb_false_r.
    rewrite forallb_forall in Hknown. specialize (Hknown text Hin).
    pose proof (original_known _ Hknown) as Hlen.
    destruct (flat_map original (accession_tokens text)) as [|o os] eqn:Eo.
    + destruct (accession_tokens text); [contradiction | discriminate Hlen].
    + cbn [is_nil]. now left.
Qed.

End ZeroGroups.

(* ===================================================================== *)
(** * The order of the groups *)

(** ** Sorting *)

(** [b] does not come before [a]. *)
Definition not_after {A} (lt : A -> A -> bool) (a b : A) : Prop :=
  lt b a = false.

Section Sorted.
Context {A : Type} (lt : A -> A -> bool) (P : A -> Prop).
Hypothesis lt_asym : forall x y, P x -> P y -> lt x y = true -> lt y x = false.
Hypothesis le_trans :
  forall x y z, P x -> P y -> P z ->
                lt y x = false -> lt z y = false -> lt z x = false.

Lemma sort_insert_sorted (x : A) (l : list A) :
  P x -> Forall P l ->
  StronglySorted (not_after lt) l ->
  StronglySorted (not_after lt) (sort_insert lt x l).
Proof.
  intros Hx Hl Hs. induction Hs as [|y r Hs IH Hy]; cbn [sort_insert].
  - repeat constructor.
  - inversion Hl as [|? ? Py Pr]; subst.
    destruct (lt x y) eqn:E.
    + constructor; [now constructor|].
      constructor; [exact (lt_asym _ _ Hx Py E)|].
      rewrite Forall_forall in Hy, Pr |- *. intros z Hz.
      exact (le_trans x y z Hx Py (Pr z Hz) (lt_asym _ _ Hx Py E) (Hy z Hz)).
    + constructor; [now apply IH|].
      rewrite Forall_forall in Hy |- *. intros z Hz.
      apply (Permutation_in _ (Permutation_sym (sort_insert_perm lt x r))) in Hz.
      destruct Hz as [<- | Hz]; [exact E | now apply Hy].
Qed.

Lemma sort_sorted (l : list A) :
  Forall P l -> StronglySorted (not_after lt) (sort lt l).
Proof.
  unfold sort.
  assert (H : forall acc, Forall P acc -> Forall P l ->
                          StronglySorted (not_after lt) acc ->
                          StronglySorted (not_after lt)
                            (fold_left (fun acc x => sort_insert lt x acc) l acc)).
  { induction l as [|x l IH]; intros acc Pacc Pl Hs; cbn [fold_left].
    - exact Hs.
    - inversion Pl as [|? ? Px Pl']; subst. apply IH; [|exact Pl'|].
      + rewrite Forall_forall in Pacc |- *. intros z Hz.
        apply (Permutation_in _ (Permutation_sym (sort_insert_perm lt x acc)))
          in Hz.
        destruct Hz as [<- | Hz]; [exact Px | now apply Pacc].
      + now apply sort_insert_sorted. }
  intros Pl. apply H; [constructor | exact Pl | constructor].
Qed.

End Sorted.

(** ** Strings and lists of strings *)

Lemma str_lt_asym (x y : string) :
  String.ltb x y = true -> String.ltb y x = false.
Proof.
  intros H. destruct (String.ltb y x) eqn:E; [|reflexivity].
  pose proof (String.ltb_trans _ _ _ H E) as Hxx.
  now rewrite String.ltb_antirefl in Hxx.
Qed.

Lemma str_le_trans (x y z : string) :
  String.ltb y x = false -> String.ltb z y = false -> String.ltb z x = false.
Proof.
  intros Hyx Hzy. destruct (String.ltb z x) eqn:E; [|reflexivity].
  destruct (String.ltb x y) eqn:Exy.
  - now rewrite (String.ltb_trans _ _ _ E Exy) in Hzy.
  - rewrite (String.ltb_total _ _ Exy Hyx) in E. congruence.
Qed.

Lemma sort_strings_sorted (l : list string) :
  StronglySorted (not_after String.ltb) (sort String.ltb l).
Proof.
  apply (sort_sorted String.ltb (fun _ => True)).
  - intros x y _ _. apply str_lt_asym.
  - intros x y z _ _ _. apply str_le_trans.
  - apply Forall_forall. auto.
Qed.

Lemma list_ltb_irrefl (a : list string) : list_ltb a a = false.
Proof.
  induction a as [|x a IH]; [reflexivity|]. cbn [list_ltb].
  now rewrite String.ltb_antirefl.
Qed.

Lemma list_ltb_trans (a : list string) :
  forall b c, list_ltb a b = true -> list_ltb b c = true -> list_ltb a c = true.
Proof.
  induction a as [|x a IH]; intros [|y b] [|z c]; cbn [list_ltb];
    try discriminate; try reflexivity.
  destruct (String.ltb x y) eqn:Exy.
  - intros _. destruct (String.ltb y z) eqn:Eyz.
    + intros _. now rewrite (String.ltb_trans _ _ _ Exy Eyz).
    + destruct (String.ltb z y) eqn:Ezy; [discriminate|].
      intros _. rewrite <- (String.ltb_total _ _ Eyz Ezy). now rewrite Exy.
  - destruct (String.ltb y x) eqn:Eyx; [discriminate|].
    pose proof (String.ltb_total _ _ Exy Eyx) as ->.
    intros Hab. destruct (String.ltb y z); [reflexivity|].
    destruct (String.ltb z y); [discriminate|]. now apply IH.
Qed.

Lemma list_ltb_total (a : list string) :
  forall b, list_ltb a b = false -> list_ltb b a = false -> a = b.
Proof.
  induction a as [|x a IH]; intros [|y b]; cbn [list_ltb];
    try discriminate; try reflexivity.
  destruct (String.ltb x y) eqn:Exy; [discriminate|].
  destruct (String.ltb y x) eqn:Eyx; [discriminate|].
  pose proof (String.ltb_total _ _ Exy Eyx) as ->.
  intros H1 H2. f_equal. now apply IH.
Qed.

Lemma list_le_trans (x y z : list string) :
  list_ltb y x = false -> list_ltb z y = false -> list_ltb z x = false.
Proof.
  intros Hyx Hzy. destruct (list_ltb z x) eqn:E; [|reflexivity].
  destruct (list_ltb x y) eqn:Exy.
  - now rewrite (list_ltb_trans _ _ _ E Exy) in Hzy.
  - rewrite (list_ltb_total _ _ Exy Hyx) in E. congruence.
Qed.

(** ** Doubles that are numbers *)

(** The rank of a number: its class, then exponent and mantissa, so that
    [SFcompare] is the lexicographic comparison of the ranks. *)
Definition rank (a : double) : Z * Z * Z :=
  match a with
  | S754_nan => (0, 0, 0)%Z
  | S754_zero _ => (0, 0, 0)%Z
  | S754_infinity true => (-2, 0, 0)%Z
  | S754_infinity false => (2, 0, 0)%Z
  | S754_finite true m e => (-1, - e, - Zpos m)%Z
  | S754_finite false m e => (1, e, Zpos m)%Z
  end.

Definition rank_lt (r s : Z * Z * Z) : Prop :=
  let '(a, b, c) := r in
  let '(a', b', c') := s in
  (a < a' \/ (a = a' /\ (b < b' \/ (b = b' /\ c < c'))))%Z.

Lemma dlt_rank (a b : double) :
  is_nan a = false -> is_nan b = false ->
  (dlt a b = true <-> rank_lt (rank a) (rank b)).
Proof.
  unfold dlt, SFltb.
  destruct a as [sa|sa| |sa ma ea], b as [sb|sb| |sb mb eb];
    try discriminate; intros _ _;
    try destruct sa; try destruct sb; cbn [SFcompare rank rank_lt];
    try (split; [discriminate | lia]); try (split; [lia | reflexivity]).
  - change (Pos.compare_cont Eq ma mb) with (Pos.compare ma mb).
    destruct (Z.compare_spec ea eb), (Pos.compare_spec ma mb); cbn [CompOpp];
      split; try discriminate; try reflexivity; lia.
  - change (Pos.compare_cont Eq ma mb) with (Pos.compare ma mb).
    destruct (Z.compare_spec ea eb), (Pos.compare_spec ma mb);
      split; try discriminate; try reflexivity; lia.
Qed.

Lemma rank_lt_asym (r s : Z * Z * Z) : rank_lt r s -> ~ rank_lt s r.
Proof. destruct r as [[a b] c], s as [[a' b'] c']. cbn. lia. Qed.

Lemma rank_le_trans (r s t : Z * Z * Z) :
  ~ rank_lt s r -> ~ rank_lt t s -> ~ rank_lt t r.
Proof.
  destruct r as [[a b] c], s as [[a' b'] c'], t as [[a'' b''] c'']. cbn. lia.
Qed.

Lemma dlt_false_rank (a b : double) :
  is_nan a = false -> is_nan b = false ->
  (dlt a b = false <-> ~ rank_lt (rank a) (rank b)).
Proof.
  intros Ha Hb. rewrite <- (dlt_rank a b Ha Hb).
  destruct (dlt a b); split; congruence.
Qed.

Lemma dlt_asym (a b : double) : dlt a b = true -> dlt b a = false.
Proof.
  unfold dlt, SFltb. rewrite (SFcompare_antisym b a).
  destruct (SFcompare a b) as [[]|]; cbn; congruence.
Qed.

Lemma dle_trans (x y z : double) :
  is_nan x = false -> is_nan y = false -> is_nan z = false ->
  dlt y x = false -> dlt z y = false -> dlt z x = false.
Proof.
  intros Hx Hy Hz. rewrite !dlt_false_rank by assumption.
  apply rank_le_trans.
Qed.

(** ** Groups *)

Definition is_number (g : ProteinGroup) : Prop := is_nan (probability g) = false.

Lemma ProteinGroup_lt_asym (x y : ProteinGroup) :
  ProteinGroup_lt x y = true -> ProteinGroup_lt y x = false.
Proof.
  unfold ProteinGroup_lt.
  destruct (dlt (probability x) (probability y)) eqn:Exy.
  - intros _. now rewrite (dlt_asym _ _ Exy).
  - destruct (dlt (probability y) (probability x)); [discriminate|].
    intros H. destruct (list_ltb (accessions y) (accessions x)) eqn:E;
      [|reflexivity].
    pose proof (list_ltb_trans _ _ _ H E) as Hxx.
    now rewrite list_ltb_irrefl in Hxx.
Qed.

Lemma ProteinGroup_le_trans (x y z : ProteinGroup) :
  is_number x -> is_number y -> is_number z ->
  ProteinGroup_lt y x = false -> ProteinGroup_lt z y = false ->
  ProteinGroup_lt z x = false.
Proof.
  unfold is_number, ProteinGroup_lt. intros Hx Hy Hz.
  destruct (dlt (probability y) (probability x)) eqn:Eyx; [discriminate|].
  destruct (dlt (probability z) (probability y)) eqn:Ezy; [discriminate|].
  rewrite (dle_trans _ _ _ Hx Hy Hz Eyx Ezy).
  destruct (dlt (probability x) (probability y)) eqn:Exy.
  - intros _ _. destruct (dlt (probability x) (probability z)) eqn:Exz;
      [reflexivity|].
    exfalso. rewrite (dle_trans _ _ _ Hy Hz Hx Ezy Exz) in Exy. discriminate.
  - intros Hl1. destruct (dlt (probability y) (probability z)) eqn:Eyz.
    + intros _. destruct (dlt (probability x) (probability z)) eqn:Exz;
        [reflexivity|].
      exfalso. rewrite (dle_trans _ _ _ Hz Hx Hy Exz Eyx) in Eyz. discriminate.
    + intros Hl2. destruct (dlt (probability x) (probability z)); [reflexivity|].
      exact (list_le_trans _ _ _ Hl1 Hl2).
Qed.

Lemma sort_groups_sorted (l : list ProteinGroup) :
  Forall is_number l ->
  StronglySorted (not_after ProteinGroup_lt) (sort ProteinGroup_lt l).
Proof.
  apply (sort_sorted ProteinGroup_lt is_number).
  - intros x y _ _. apply ProteinGroup_lt_asym.
  - apply ProteinGroup_le_trans.
Qed.

(** [a] before [b] in the natural order of groups, or equal to it: the
    probability of [a] is smaller, or the two compare equal and the
    accessions of [b] are not before those of [a]. *)
Definition group_le (a b : ProteinGroup) : Prop :=
  dlt (probability a) (probability b) = true
  \/ (deq (probability a) (probability b) = true
      /\ list_ltb (accessions b) (accessions a) = false).

Lemma not_after_group_le (a b : ProteinGroup) :
  is_number a -> is_number b ->
  not_after ProteinGroup_lt a b -> group_le a b.
Proof.
  unfold is_number, not_after, ProteinGroup_lt, group_le, dlt, deq, SFltb, SFeqb.
  intros Ha Hb.
  destruct (SFcompare_some _ _ Ha Hb) as [c Hc].
  rewrite (SFcompare_antisym (probability b) (probability a)), Hc.
  destruct c; cbn [option_map CompOpp]; intros H; try discriminate; auto.
Qed.

(** The example of C5: a line with probability zero between two others. *)
Lemma zero_groups_witness :
  let Ext := Stub.externals [] None in
  let sa := sanitize Stub.two_runs in
  let lines := split_lines Stub.output_text in
  (exists r,
      parse_output sa false lines = Normal r
      /\ zero_proteins r = N.of_nat (zero_count lines)
      /\ forall g, In g (parsed_groups r) -> deq (probability g) d0 = false)
  /\ (exists r,
        parse_output sa true lines = Normal r
        /\ zero_proteins r = N.of_nat (zero_count lines)
        /\ forall text p rest,
             In text lines -> line_parts text = Some (p, rest) ->
             deq p d0 = true -> accession_tokens text <> [] ->
             In {| probability := p;
                   accessions :=
                     sort String.ltb
                          (flat_map (original sa) (accession_tokens text)) |}
                (parsed_groups r)).
Proof.
  intros Ext sa lines.
  apply (@zero_groups_dropped_or_kept Ext sa lines); vm_compute; reflexivity.
Defined.

(* ===================================================================== *)
(** * The groups attached to a run *)

Definition str_le (a b : string) : Prop := String.ltb b a = false.

Lemma StronglySorted_weaken {A} (R R' : A -> A -> Prop) (P : A -> Prop)
    (l : list A) :
  (forall a b, P a -> P b -> R a b -> R' a b) ->
  Forall P l -> StronglySorted R l -> StronglySorted R' l.
Proof.
  intros HR HP Hs. induction Hs as [|a l Hs IH Ha]; constructor.
  - inversion HP; subst. now apply IH.
  - inversion HP as [|? ? Pa Pl]; subst.
    rewrite Forall_forall in Ha, Pl |- *. intros b Hb.
    apply HR; auto.
Qed.

Section Attached.
Context `{Ext : Externals}.
Variable sa : StringBimap.

(** The probability that line 484 reads from the line is a number. *)
Definition number_line (text : string) : bool :=
  negb (is_nan (fst (extract_double (istringstream text) d0))).

Definition well_formed_group (g : ProteinGroup) : Prop :=
  is_number g /\ StronglySorted str_le (accessions g).

Lemma parse_line_groups (keep_zero_group : bool) (text : string)
    (acc r : Parsed) :
  number_line text = true ->
  parse_line sa keep_zero_group text acc = Normal r ->
  Forall well_formed_group (parsed_groups acc) ->
  Forall well_formed_group (parsed_groups r).
Proof.
  unfold number_line, parse_line. intros Hnum.
  destruct (extract_double (istringstream text) d0) as [p line].
  cbn [fst] in Hnum. apply negb_true_iff in Hnum.
  destruct (read_accessions _ _ _ _ _ _ _ _) as [[zero accs]| | |];
    cbn [obind]; try discriminate.
  destruct (negb (is_nil accs)); intros H Hacc; injection H as <-;
    cbn [parsed_groups]; [|exact Hacc].
  apply Forall_app. split; [exact Hacc|].
  constructor; [|constructor]. split; [exact Hnum|].
  apply sort_strings_sorted.
Qed.

Lemma parse_lines_groups (keep_zero_group : bool) (lines : list string) :
  forall acc r,
    forallb number_line lines = true ->
    parse_lines sa keep_zero_group lines acc = Normal r ->
    Forall well_formed_group (parsed_groups acc) ->
    Forall well_formed_group (parsed_groups r).
Proof.
  induction lines as [|text lines IH]; intros acc r Hnum; cbn [parse_lines].
  - intros H. now injection H as <-.
  - cbn [forallb] in Hnum. apply andb_true_iff in Hnum.
    destruct Hnum as [Hn1 Hn].
    destruct (parse_line sa keep_zero_group text acc) as [acc1| | |] eqn:E;
      cbn [obind]; try discriminate.
    intros H Hacc. apply (IH acc1 r Hn H).
    exact (parse_line_groups _ _ _ _ Hn1 E Hacc).
Qed.

Lemma parse_output_sorted (keep_zero_group : bool) (lines : list string)
    (r : Parsed) :
  forallb number_line lines = true ->
  parse_output sa keep_zero_group lines = Normal r ->
  StronglySorted group_le (parsed_groups r)
  /\ Forall (fun g => StronglySorted str_le (accessions g)) (parsed_groups r).
Proof.
  unfold parse_output. intros Hnum.
  destruct (parse_lines sa keep_zero_group lines _) as [r0| | |] eqn:E;
    cbn [obind]; try discriminate.
  intros H. injection H as <-. cbn [parsed_groups].
  pose proof (parse_lines_groups _ _ _ _ Hnum E (Forall_nil _)) as Hwf.
  assert (Hwf' : Forall well_formed_group
                   (sort ProteinGroup_lt (parsed_groups r0))).
  { rewrite Forall_forall in Hwf |- *. intros g Hg. apply Hwf.
    exact (Permutation_in _ (Permutation_sym (sort_perm _ _)) Hg). }
  split.
  - apply (StronglySorted_weaken (not_after ProteinGroup_lt) group_le is_number).
    + apply not_after_group_le.
    + eapply Forall_impl; [|exact Hwf']. now intros g [Hg _].
    + apply sort_groups_sorted.
      eapply Forall_impl; [|exact Hwf]. now intros g [Hg _].
  - eapply Forall_impl; [|exact Hwf']. now intros g [_ Hg].
Qed.

(** C6.  When the output of the engine has been read and the call returns
    [true], the groups attached to the run are in ascending order of
    probability, groups of equal probability in the lexicographic order of
    their accession lists, and the accessions of each group are in
    lexicographic order.  The probabilities read from the lines are numbers
    (no NaN), for which the comparison is an order. *)
Theorem attached_groups_are_sorted (opts : Options)
    (protein protein' : ProteinIdentification) (sh sh' : Shared)
    (choose_params : bool) (temp_dir : string) (keep_zero_group : bool)
    (counter : Size) (std_out std_err : string) (w w' : list Event) :
  forallb number_line (split_lines std_out) = true ->
  read_results sa opts protein sh choose_params temp_dir keep_zero_group
               counter std_out std_err w
  = (Normal (true, protein', sh'), w') ->
  StronglySorted group_le (groups protein')
  /\ Forall (fun g => StronglySorted str_le (accessions g)) (groups protein').
Proof.
  intros Hnum H. unfold read_results in H.
  apply bind_normal_inv in H. destruct H as ([sh1|] & w1 & _ & H).
  2:{ unfold ret in H. discriminate. }
  unfold bind at 1, emit in H.
  apply bind_normal_inv in H. destruct H as ([] & w2 & _ & H).
  apply bind_normal_inv in H. destruct H as (parsed & w3 & Hparse & H).
  unfold bind, emit, ret in H. injection H as <- _ _.
  cbn [with_meta with_groups groups].
  unfold lift in Hparse. injection Hparse as Hparse _.
  exact (parse_output_sorted _ _ _ Hnum Hparse).
Qed.

End Attached.

(** The example of C6: three groups, read in another order. *)
Lemma attached_groups_witness :
  let Ext := Stub.externals [] None in
  let res :=
    @read_results Ext (sanitize Stub.two_runs) (Stub.options false Stub.half)
      (Stub.run "run1" []) 
      {| peptides_ := []; fido_params_ := [];
         prob_protein_ := Stub.half; prob_peptide_ := Stub.half;
         prob_spurious_ := Stub.half |}
      false "/tmp/fido/" true 0%N Stub.output_text EmptyString [] in
  let attached := match fst res with
                  | Normal (_, p, _) => groups p
                  | _ => []
                  end in
  List.map accessions attached = [["D1"; "D2"]; ["P1"]; ["P1"; "P2"]]
  /\ StronglySorted group_le attached
  /\ Forall (fun g => StronglySorted str_le (accessions g)) attached.
Proof.
  intros Ext res attached. split; [reflexivity|].
  refine (@attached_groups_are_sorted Ext (sanitize Stub.two_runs)
            (Stub.options false Stub.half) (Stub.run "run1" [])
            (match fst res with Normal (_, p, _) => p | _ => Stub.run "run1" [] end)
            {| peptides_ := []; fido_params_ := [];
               prob_protein_ := Stub.half; prob_peptide_ := Stub.half;
               prob_spurious_ := Stub.half |}
            (match fst res with
             | Normal (_, _, s) => s
             | _ => {| peptides_ := []; fido_params_ := [];
                       prob_protein_ := d0; prob_peptide_ := d0;
                       prob_spurious_ := d0 |}
             end)
            false "/tmp/fido/" true 0%N Stub.output_text EmptyString []
            (snd res) _ _).
  - vm_compute. reflexivity.
  - vm_compute. reflexivity.
Defined.

(* ===================================================================== *)
(** * What the tool does to its environment *)

(** [only P m]: every event that [m] appends satisfies [P], however [m]
    ends. *)
Definition only {A} (P : Event -> bool) (m : M A) : Prop :=
  post m (fun _ evs => all_events P evs).

(** [P] holds of every event of which [Q] holds. *)
Definition allows (P Q : Event -> bool) : Prop :=
  forall e, Q e = true -> P e = true.

(** The file [path] is opened, written or closed. *)
Definition on_file (path : string) (e : Event) : bool :=
  match e with
  | Open p | Close p | Put (File p) _ => String.eqb p path
  | _ => false
  end.

Lemma only_ret {A} (P : Event -> bool) (a : A) : only P (ret a).
Proof. now apply post_ret. Qed.

Lemma only_throw {A} (P : Event -> bool) (e : Exception) : only P (@throw A e).
Proof. now apply post_throw. Qed.

Lemma only_end {A} (P : Event -> bool) : only P (@end_dereferenced A).
Proof. now apply post_end. Qed.

Lemma only_lift {A} (P : Event -> bool) (o : Outcome A) : only P (lift o).
Proof. now apply post_lift. Qed.

Lemma only_history (P : Event -> bool) : only P history.
Proof. intros w. exists []. cbn. now rewrite app_nil_r. Qed.

Lemma only_emit (P : Event -> bool) (e : Event) : P e = true -> only P (emit e).
Proof. intros H. apply post_emit. now apply all_events_cons. Qed.

Lemma only_bind {A B} (P : Event -> bool) (m : M A) (k : A -> M B) :
  only P m -> (forall a, only P (k a)) -> only P (bind m k).
Proof.
  intros Hm Hk. eapply post_bind; [exact Hm | |].
  - intros a evs1 H1. eapply post_weaken; [apply Hk|].
    intros o evs2 H2. apply all_events_app. now split.
  - intros o evs1 _ H1. exact H1.
Qed.

Lemma only_when (P : Event -> bool) (b : bool) (m : M unit) :
  only P m -> only P (when b m).
Proof. destruct b; cbn; [auto | intros _; apply only_ret]. Qed.

Lemma only_scope {A} (P : Event -> bool) (path : string) (m : M A) :
  P (Close path) = true -> only P m -> only P (ofstream_scope path m).
Proof.
  intros Hc H. eapply post_scope; [exact H | auto |].
  intros e evs Hall. apply all_events_app. split; [exact Hall|].
  now apply all_events_cons.
Qed.

Lemma only_weaken {A} (P Q : Event -> bool) (m : M A) :
  allows Q P -> only P m -> only Q m.
Proof.
  intros HPQ H. eapply post_weaken; [exact H|].
  intros o evs. apply all_events_weaken, HPQ.
Qed.

Ltac allowed :=
  match goal with
  | H : allows ?P _ |- ?P _ = true =>
      apply H; cbn; first [reflexivity | apply String.eqb_refl]
  | H : forall x, allows ?P (@?Q x) |- ?P _ = true =>
      eapply H; cbn; apply String.eqb_refl
  | H : forall x, ?P (@?e x) = true |- ?P _ = true => apply H
  | |- _ = true => reflexivity
  end.

Ltac only_step :=
  first [ apply only_ret | apply only_throw | apply only_end
        | apply only_lift | apply only_history
        | apply only_emit; allowed
        | apply only_when
        | apply only_scope; [allowed|]
        | apply only_bind; [|intros ?]
        | match goal with
          | |- only _ (match ?x with _ => _ end) => destruct x
          end ].

(** ** The writers *)

Section OnlyWriters.
Variable P : Event -> bool.
Variable sa : StringBimap.
Variable path : string.
Hypothesis logs : allows P is_log.
Hypothesis file : allows P (on_file path).

Lemma resolve_score_only (prob_param : string) (pep : PeptideIdentification)
    (hit : PeptideHit) (warned_once : bool) :
  only P (resolve_score prob_param pep hit warned_once).
Proof.
  unfold resolve_score, DataValue_to_double. repeat only_step.
Qed.

Lemma write_accessions_only (accs : list string) :
  only P (write_accessions sa path accs).
Proof.
  induction accs as [|acc rest IH]; cbn [write_accessions];
    repeat first [ exact IH | only_step ].
Qed.

Lemma write_graph_loop_only (prob_param identifier : string)
    (peps : list PeptideIdentification) :
  forall warned_once,
    only P (write_graph_loop sa path prob_param identifier peps warned_once).
Proof.
  induction peps as [|pep rest IH]; intros warned; cbn [write_graph_loop].
  - apply only_ret.
  - repeat first [ apply IH | apply write_accessions_only
                 | apply resolve_score_only | only_step ].
Qed.

Lemma writePSMGraph_only (peps : list PeptideIdentification)
    (prob_param identifier : string) :
  only P (writePSMGraph_ sa peps path prob_param identifier).
Proof.
  unfold writePSMGraph_.
  repeat first [ apply write_graph_loop_only | only_step ].
Qed.

Lemma write_set_only (elts : list string) :
  forall first, only P (write_set path first elts).
Proof.
  induction elts as [|e rest IH]; intros first; cbn [write_set];
    repeat first [ apply IH | only_step ].
Qed.

Lemma write_text_file_only (text : string) : only P (write_text_file path text).
Proof. unfold write_text_file. repeat only_step. Qed.

End OnlyWriters.

Section OnlyRuns.
Context `{Ext : Externals}.
Variable P : Event -> bool.
Variable sa : StringBimap.
Variable opts : Options.
Variables exe temp_dir : string.
Hypothesis logs : allows P is_log.
Hypothesis files : forall x, allows P (on_file (temp_dir ++ x)).
Hypothesis starts : forall args, P (Start exe args) = true.

Lemma gather_target_decoy_only (hs : list ProteinHit) :
  forall targets decoys, only P (gather_target_decoy sa hs targets decoys).
Proof.
  induction hs as [|h hs IH]; intros targets decoys;
    cbn [gather_target_decoy]; repeat first [ apply IH | only_step ].
Qed.

Lemma writeProteinLists_only (protein : ProteinIdentification) (x : string) :
  only P (writeProteinLists_ sa protein (temp_dir ++ x)).
Proof.
  unfold writeProteinLists_.
  repeat first [ apply gather_target_decoy_only
               | (apply write_set_only; solve [assumption | apply files])
               | only_step ].
Qed.

Lemma generate_files_only (protein : ProteinIdentification) (sh : Shared)
    (choose_params : bool) (counter : Size) :
  only P (generate_files sa opts protein sh choose_params temp_dir counter).
Proof.
  unfold generate_files.
  repeat first [ (apply writePSMGraph_only; solve [assumption | apply files])
               | apply writeProteinLists_only
               | only_step ].
Qed.

Lemma parse_params_output_only (num params_output : string) (sh : Shared) :
  only P (parse_params_output opts temp_dir num params_output sh).
Proof.
  unfold parse_params_output.
  repeat first [ (apply write_text_file_only; solve [assumption | apply files]) | only_step ].
Qed.

Lemma read_results_only (protein : ProteinIdentification) (sh : Shared)
    (choose_params keep_zero_group : bool) (counter : Size)
    (std_out std_err : string) :
  only P (read_results sa opts protein sh choose_params temp_dir
                       keep_zero_group counter std_out std_err).
Proof.
  unfold read_results.
  repeat first [ apply parse_params_output_only
               | (apply write_text_file_only; solve [assumption | apply files]) | only_step ].
Qed.

Lemma runFido_only (protein : ProteinIdentification) (sh : Shared)
    (choose_params keep_zero_group : bool) (counter : Size) :
  only P (runFido_ sa opts protein sh choose_params exe temp_dir
                   keep_zero_group counter).
Proof.
  unfold runFido_, report_failure.
  repeat first [ apply generate_files_only | apply read_results_only
               | only_step ].
Qed.

Lemma separate_runs_loop_only (proteins : list ProteinIdentification) :
  forall counter sh fido_success,
    only P (separate_runs_loop sa opts exe temp_dir proteins counter sh
                               fido_success).
Proof.
  induction proteins as [|prot rest IH]; intros counter sh flag;
    cbn [separate_runs_loop];
    repeat first [ apply IH | apply runFido_only | only_step ].
Qed.

Lemma write_scores_only (accs : list string) (p : double) :
  forall hs, only P (write_scores hs accs p).
Proof.
  induction accs as [|acc rest IH]; intros hs; cbn [write_scores];
    repeat first [ apply IH | only_step ].
Qed.

Lemma write_group_scores_only (gs : list ProteinGroup) :
  forall hs, only P (write_group_scores hs gs).
Proof.
  induction gs as [|g rest IH]; intros hs; cbn [write_group_scores];
    repeat first [ apply IH | apply write_scores_only | only_step ].
Qed.

End OnlyRuns.

Lemma prefix_append (d x : string) : String.prefix d (d ++ x) = true.
Proof.
  induction d as [|c d IH]; cbn; [now destruct x|].
  destruct (ascii_dec c c); [exact IH | contradiction].
Qed.

Section Environment.
Context `{Ext : Externals}.

(** The directory line 585 names. *)
Definition temp_dir_of : string :=
  QDir_toNativeSeparators
    (File_getTempDirectory ++ "/" ++ File_getUniqueName ++ "/").

(** Lines 626-697: the runs are handed to [runFido_]. *)
Definition process_runs (opts : Options)
    (proteins : list ProteinIdentification) (sh : Shared)
  : M (bool * list ProteinIdentification * Shared) :=
  let sa := sanitize proteins in
  let exe := executable opts in
  let choose_params := choose_params_of opts in
  if opt_separate_runs opts then
    separate_runs_loop sa opts exe temp_dir_of proteins 1%N sh false
  else
    match proteins with
    | _ :: _ :: _ =>
        let all_proteins := merged_run proteins in
        let sh := with_peptides sh
          (List.map (fun pep => setIdentifier pep EmptyString)
                    (peptides_ sh)) in
        r <- runFido_ sa opts all_proteins sh choose_params exe
                      temp_dir_of (opt_keep_zero_group opts) 0%N ;;
        let '(fido_success, all_proteins, sh) := r in
        hs <- write_group_scores (hits all_proteins)
                                 (groups all_proteins) ;;
        ret (fido_success, [with_hits all_proteins hs], sh)
    | prot :: rest =>
        r <- runFido_ sa opts prot sh choose_params exe temp_dir_of
                      (opt_keep_zero_group opts) 0%N ;;
        let '(fido_success, prot, sh) := r in
        ret (fido_success, prot :: rest, sh)
    | [] => end_dereferenced
    end.

(** Lines 702-718. *)
Definition clean_up (opts : Options) : M unit :=
  if (1 <? debug_level_ opts)%Z then
    emit (Put LOG_DEBUG
              [Str "Keeping temporary files at '"; Str temp_dir_of;
               Str "'. Set debug level to 0 or 1 to remove them."; Endl])
  else
    emit (Put LOG_INFO [Str "Removing temporary files..."; Endl]) ;;;
    emit (RemoveDir temp_dir_of) ;;;
    when (debug_level_ opts =? 1)%Z
      (emit (Put LOG_DEBUG
                 [Str ("Set debug level to 2 or higher to keep temporary "
                       ++ "files at '" ++ temp_dir_of ++ "'."); Endl])).

Definition initial_shared (opts : Options)
    (peptides : list PeptideIdentification) : Shared :=
  {| peptides_ := peptides;
     fido_params_ := initial_fido_params opts;
     prob_protein_ := opt_prob_protein opts;
     prob_peptide_ := opt_prob_peptide opts;
     prob_spurious_ := opt_prob_spurious opts |}.

Definition empty_input_line (opts : Options) : Event :=
  Put LOG_ERROR
      [Str "Error: Input file '"; Str (opt_in opts);
       Str "' should contain both protein and peptide data."; Endl].

(** [main_] in its parts. *)
Lemma main_unfold (opts : Options) (proteins : list ProteinIdentification)
    (peptides : list PeptideIdentification) :
  main_ opts proteins peptides =
  (emit (Put LOG_INFO [Str "Reading input data..."; Endl]) ;;;
   emit (Load (opt_in opts)) ;;;
   if is_nil proteins || is_nil peptides then
     emit (empty_input_line opts) ;;; ret INPUT_FILE_EMPTY
   else
     emit (Mkpath temp_dir_of) ;;;
     r <- process_runs opts proteins (initial_shared opts peptides) ;;
     let '(fido_success, proteins, sh) := r in
     emit (Store (opt_out opts) proteins (peptides_ sh)) ;;;
     clean_up opts ;;;
     ret (if fido_success then EXECUTION_OK else EXTERNAL_PROGRAM_ERROR)).
Proof. reflexivity. Qed.

Lemma process_runs_only (P : Event -> bool) (opts : Options)
    (proteins : list ProteinIdentification) (sh : Shared) :
  allows P is_log ->
  (forall x, allows P (on_file (temp_dir_of ++ x))) ->
  (forall args, P (Start (executable opts) args) = true) ->
  only P (process_runs opts proteins sh).
Proof.
  intros logs files starts. unfold process_runs.
  destruct (opt_separate_runs opts).
  - now apply separate_runs_loop_only.
  - destruct proteins as [|p1 [|p2 rest]];
      repeat first [ (apply runFido_only; assumption)
                   | apply write_group_scores_only | only_step ].
Qed.

(** ** The events of a run of the tool *)

(** What the tool is expected to do: log; load its input; make and remove
    its temporary directory; open, write and close files below that
    directory; start the engine; store its output. *)
Definition expected (opts : Options) (e : Event) : bool :=
  match e with
  | Open p | Close p | Put (File p) _ => String.prefix temp_dir_of p
  | Put _ _ => true
  | Load p => String.eqb p (opt_in opts)
  | Mkpath p | RemoveDir p => String.eqb p temp_dir_of
  | Start exe _ => String.eqb exe (executable opts)
  | Store out _ _ => String.eqb out (opt_out opts)
  end.

Lemma expected_logs (opts : Options) : allows (expected opts) is_log.
Proof. intros [| [] | | | | | |]; cbn; congruence. Qed.

Lemma expected_files (opts : Options) (x : string) :
  allows (expected opts) (on_file (temp_dir_of ++ x)).
Proof.
  intros [p | [| | | |p] items | p | | | | |]; cbn; try congruence;
    intros H; apply String.eqb_eq in H; subst p; apply prefix_append.
Qed.

(** X1.  Whatever the input and however the call ends, [main_] does nothing
    but this: it logs, loads the input file, makes the temporary directory,
    opens, writes and closes files below that directory, starts the one
    executable chosen from the options, stores to the output file and removes
    the temporary directory.  It touches no other file, directory or
    program. *)
Theorem main_touches_only_its_own_files (opts : Options)
    (proteins : list ProteinIdentification)
    (peptides : list PeptideIdentification) (w : list Event) :
  exists evs,
    snd (main_ opts proteins peptides w) = (w ++ evs)%list
    /\ all_events (expected opts) evs.
Proof.
  assert (H : only (expected opts) (main_ opts proteins peptides)).
  { pose proof (expected_logs opts) as logs.
    pose proof (expected_files opts) as files.
    rewrite main_unfold.
    apply only_bind; [only_step|]. intros _.
    apply only_bind; [apply only_emit; cbn; apply String.eqb_refl|]. intros _.
    destruct (is_nil proteins || is_nil peptides).
    { unfold empty_input_line. repeat only_step. }
    apply only_bind; [apply only_emit; cbn; apply String.eqb_refl|]. intros _.
    apply only_bind.
    { apply process_runs_only; [assumption | assumption |].
      intros args. cbn. apply String.eqb_refl. }
    intros [[flag proteins'] sh].
    apply only_bind; [apply only_emit; cbn; apply String.eqb_refl|]. intros _.
    apply only_bind; [|intros; apply only_ret].
    unfold clean_up. destruct (1 <? debug_level_ opts)%Z; [only_step|].
    apply only_bind; [only_step|]. intros _.
    apply only_bind; [apply only_emit; cbn; apply String.eqb_refl|]. intros _.
    repeat only_step. }
  exact (H w).
Qed.

(** ** Storing and cleaning up *)

Definition is_store (e : Event) : bool :=
  match e with Store _ _ _ => true | _ => false end.

Definition is_remove (e : Event) : bool :=
  match e with RemoveDir _ => true | _ => false end.

Definition is_mkpath (e : Event) : bool :=
  match e with Mkpath _ => true | _ => false end.

(** Neither a store, nor the making or removing of a directory. *)
Definition working (e : Event) : bool :=
  negb (is_store e || is_remove e || is_mkpath e).

Definition count (P : Event -> bool) (evs : list Event) : nat :=
  List.length (filter P evs).

Lemma count_app (P : Event -> bool) (e1 e2 : list Event) :
  count P (e1 ++ e2) = (count P e1 + count P e2)%nat.
Proof. unfold count. now rewrite filter_app, length_app. Qed.

Lemma count_none (P Q : Event -> bool) (evs : list Event) :
  (forall e, Q e = true -> P e = false) ->
  all_events Q evs -> count P evs = 0%nat.
Proof.
  intros HPQ. unfold count. induction evs as [|e evs IH]; [reflexivity|].
  intros H. apply all_events_cons in H. destruct H as [He Hevs].
  cbn [filter]. rewrite (HPQ e He). now apply IH.
Qed.

Lemma working_logs : allows working is_log.
Proof. intros [| [] | | | | | |]; cbn; congruence. Qed.

Lemma working_files (path : string) : allows working (on_file path).
Proof. intros [| [] | | | | | |]; cbn; congruence. Qed.

Lemma process_runs_working (opts : Options)
    (proteins : list ProteinIdentification) (sh : Shared) :
  only working (process_runs opts proteins sh).
Proof.
  apply process_runs_only;
    [apply working_logs | intros; apply working_files | reflexivity].
Qed.

Lemma clean_up_post (opts : Options) :
  post (clean_up opts)
       (fun o evs =>
          o = Normal tt
          /\ count is_store evs = 0%nat /\ count is_mkpath evs = 0%nat
          /\ count is_remove evs
             = (if (1 <? debug_level_ opts)%Z then 0 else 1)%nat).
Proof.
  unfold clean_up. destruct (1 <? debug_level_ opts)%Z.
  - apply post_emit. repeat split.
  - apply post_emit_then, post_emit_then.
    destruct (debug_level_ opts =? 1)%Z; cbn [when];
      [apply post_emit | apply post_ret]; repeat split.
Qed.

(** The call has gone through to its end: it returns a code other than
    [INPUT_FILE_EMPTY]. *)
Definition finished (o : Outcome ExitCodes) : bool :=
  match o with
  | Normal EXECUTION_OK | Normal EXTERNAL_PROGRAM_ERROR => true
  | _ => false
  end.

(** X2.  The output is stored exactly when [main_] goes through to its end,
    with [EXECUTION_OK] or with [EXTERNAL_PROGRAM_ERROR]: also a run whose
    engine failed is stored.  The temporary directory is made whenever the
    input holds proteins and peptides; it is removed only when [main_] goes
    through to its end and the debug level is below 2.  So a call that ends
    with an exception stores nothing and leaves the directory behind. *)
Theorem output_stored_when_main_finishes (opts : Options)
    (proteins : list ProteinIdentification)
    (peptides : list PeptideIdentification) (w : list Event) :
  let r := main_ opts proteins peptides w in
  exists evs,
    snd r = (w ++ evs)%list
    /\ count is_store evs = (if finished (fst r) then 1 else 0)%nat
    /\ count is_mkpath evs
       = (if is_nil proteins || is_nil peptides then 0 else 1)%nat
    /\ count is_remove evs
       = (if finished (fst r) && negb (1 <? debug_level_ opts)%Z
          then 1 else 0)%nat.
Proof.
  cbv zeta.
  assert (H : post (main_ opts proteins peptides)
                (fun o evs =>
                   count is_store evs = (if finished o then 1 else 0)%nat
                   /\ count is_mkpath evs
                      = (if is_nil proteins || is_nil peptides
                         then 0 else 1)%nat
                   /\ count is_remove evs
                      = (if finished o && negb (1 <? debug_level_ opts)%Z
                         then 1 else 0)%nat)).
  { rewrite main_unfold. apply post_emit_then, post_emit_then.
    destruct (is_nil proteins || is_nil peptides).
    { apply post_emit_then, post_ret. repeat split. }
    apply post_emit_then.
    eapply post_bind; [apply process_runs_working | |].
    - intros [[flag proteins'] sh] evs1 H1.
      assert (Hs : count is_store evs1 = 0%nat)
        by (apply (count_none _ working); [now intros [] | exact H1]).
      assert (Hm : count is_mkpath evs1 = 0%nat)
        by (apply (count_none _ working); [now intros [] | exact H1]).
      assert (Hr : count is_remove evs1 = 0%nat)
        by (apply (count_none _ working); [now intros [] | exact H1]).
      apply post_emit_then.
      eapply post_bind; [apply clean_up_post | |].
      + intros [] evs2 (_ & Hs2 & Hm2 & Hr2). apply post_ret.
        change (?a :: ?b :: ?c :: evs1 ++ ?d :: evs2 ++ [])%list
          with ([a; b; c] ++ evs1 ++ [d] ++ evs2 ++ [])%list.
        rewrite !count_app, Hs, Hm, Hr, Hs2, Hm2, Hr2.
        destruct flag, (1 <? debug_level_ opts)%Z; repeat split.
      + intros o evs2 Hn (-> & _). discriminate.
    - intros o evs1 Hn H1.
      assert (Hs : count is_store evs1 = 0%nat)
        by (apply (count_none _ working); [now intros [] | exact H1]).
      assert (Hm : count is_mkpath evs1 = 0%nat)
        by (apply (count_none _ working); [now intros [] | exact H1]).
      assert (Hr : count is_remove evs1 = 0%nat)
        by (apply (count_none _ working); [now intros [] | exact H1]).
      change (?a :: ?b :: ?c :: evs1)%list with ([a; b; c] ++ evs1)%list.
      rewrite !count_app, Hs, Hm, Hr.
      destruct o; try discriminate; repeat split. }
  exact (H w).
Qed.

(** X3.  [main_] returns [INPUT_FILE_EMPTY] exactly when the input holds no
    protein identification run or no peptide identification.  Then it has
    logged the error and done nothing else after loading: no directory is
    made, no file written, no process started, nothing stored. *)
Theorem empty_input_is_reported (opts : Options)
    (proteins : list ProteinIdentification)
    (peptides : list PeptideIdentification) (w : list Event) :
  (fst (main_ opts proteins peptides w) = Normal INPUT_FILE_EMPTY
   <-> is_nil proteins || is_nil peptides = true)
  /\ (is_nil proteins || is_nil peptides = true ->
      snd (main_ opts proteins peptides w)
      = (w ++ [Put LOG_INFO [Str "Reading input data..."; Endl];
               Load (opt_in opts); empty_input_line opts])%list).
Proof.
  split.
  - split.
    + intros H. destruct (is_nil proteins || is_nil peptides) eqn:E;
        [reflexivity|]. exfalso.
      rewrite main_unfold in H. unfold bind at 1, emit in H.
      unfold bind at 1, emit in H. rewrite E in H.
      unfold bind at 1, emit in H. rewrite bind_unfold in H.
      destruct (fst (process_runs _ _ _ _)) as [[[flag ps] sh]|e| |];
        cbn [fail_as fst] in H; try discriminate.
      unfold bind at 1, emit in H. rewrite bind_unfold in H.
      destruct (fst (clean_up opts _)); cbn [fail_as fst ret] in H;
        try discriminate.
      destruct flag; discriminate.
    + intros E. rewrite main_unfold. unfold bind, emit, ret. now rewrite E.
  - intros E. rewrite main_unfold. unfold bind, emit, ret. rewrite E.
    cbn [snd]. now rewrite <- !app_assoc.
Qed.

End Environment.

(* ===================================================================== *)
(** * The PSM graph file *)

Lemma write_accessions_run (sa : StringBimap) (path : string)
    (accs : list string) (w : list Event) :
  forallb (registered sa) accs = true ->
  write_accessions sa path accs w
  = (Normal tt,
     (w ++ flat_map
             (fun acc =>
                if str_empty acc then []
                else match map.get (left sa) acc with
                     | Some tok => [Put (File path) [Str "r "; Str tok; Endl]]
                     | None => []
                     end) accs)%list).
Proof.
  revert w. induction accs as [|acc rest IH]; intros w H;
    cbn [write_accessions flat_map].
  - unfold ret. now rewrite app_nil_r.
  - cbn [forallb] in H. apply andb_true_iff in H. destruct H as [Hacc Hrest].
    unfold registered in Hacc. destruct (str_empty acc); [now apply IH|].
    destruct (map.get (left sa) acc) as [tok|]; [|discriminate Hacc].
    unfold bind at 1, emit. rewrite (IH _ Hrest), <- app_assoc. reflexivity.
Qed.

Section GraphWriter.
Variable sa : StringBimap.
Variables path prob_param identifier : string.

(** Lines 248-253: the identification passes the filter of line 248, so
    that line 253 sorts its hits. *)
Definition selected (pep : PeptideIdentification) : bool :=
  negb ((negb (str_empty identifier)
         && negb (String.eqb (pi_identifier pep) identifier))
        || is_nil (pi_hits pep)).

Definition sorted_if_selected (pep : PeptideIdentification)
  : PeptideIdentification :=
  if selected pep then PeptideIdentification_sort pep else pep.

(** The hit has a value of the alternate score field. *)
Definition has_alternate (hit : PeptideHit) : bool :=
  negb (str_empty prob_param) && metaValueExists (ph_meta hit) prob_param.

Definition error_probability_type (pep : PeptideIdentification) : bool :=
  String.eqb (toLower (pi_score_type pep)) "posterior error probability"
  || hasPrefix (toLower (pi_score_type pep)) "consensus_".

(** The probability that lines 260-291 take for a hit, when they take one:
    the number in the alternate score field when the hit has that field;
    else the score when higher scores are better; else one minus the score
    when the score type is that of an error probability. *)
Definition probability_of (pep : PeptideIdentification) (hit : PeptideHit)
  : option double :=
  if has_alternate hit then
    match getMetaValue (ph_meta hit) prob_param with
    | DOUBLE_VALUE d => Some d
    | _ => None
    end
  else if pi_higher_score_better pep then Some (ph_score hit)
  else if error_probability_type pep then Some (dsub d1 (ph_score hit))
  else None.

(** The hit is encoded without an error. *)
Definition suitable (pep : PeptideIdentification) (hit : PeptideHit) : bool :=
  match probability_of pep hit with
  | Some s => passes_range_check s && hit_registered sa hit
  | None => false
  end.

(** The lines of the graph file for one identification: "e" with the
    peptide, "r" with the token of each accession that is not empty, in the
    order of the set of accessions, and "p" with the probability. *)
Definition r_line (acc : string) : list Event :=
  if str_empty acc then []
  else match map.get (left sa) acc with
       | Some tok => [Put (File path) [Str "r "; Str tok; Endl]]
       | None => []
       end.

Definition block (pep : PeptideIdentification) : list Event :=
  match encoded_hit identifier pep with
  | Some hit =>
      match probability_of pep hit with
      | Some s =>
          (Put (File path) [Str "e "; Str (ph_sequence hit); Endl]
           :: flat_map r_line (set_elements (extractProteinAccessions hit))
           ++ [Put (File path) [Str "p "; Dbl s; Endl]])%list
      | None => []
      end
  | None => []
  end.

Definition cons_outcome (pep : PeptideIdentification)
    (o : Outcome (list PeptideIdentification))
  : Outcome (list PeptideIdentification) :=
  match o with
  | Normal rest => Normal (pep :: rest)
  | o => fail_as o
  end.

Lemma resolve_probability (pep : PeptideIdentification) (hit : PeptideHit)
    (s : double) (warned_once : bool) :
  probability_of pep hit = Some s ->
  post (resolve_score prob_param pep hit warned_once)
       (fun o evs => (exists warned', o = Normal (s, EmptyString, warned'))
                     /\ all_events is_warning evs).
Proof.
  unfold probability_of, has_alternate, error_probability_type, resolve_score.
  destruct (str_empty prob_param); cbn [negb andb orb].
  - destruct (pi_higher_score_better pep); cbn [negb].
    + intros H. injection H as <-. apply post_ret. split; [eauto | reflexivity].
    + destruct (String.eqb _ _ || hasPrefix _ _); [|discriminate].
      intros H. injection H as <-.
      destruct warned_once; cbn [negb when].
      * eapply post_bind with (Q1 := fun o evs => o = Normal tt /\ evs = []).
        -- now apply post_ret.
        -- intros [] evs1 [_ ->]. apply post_ret. split; [eauto | reflexivity].
        -- intros o evs1 Hn [-> _]. discriminate.
      * apply post_emit_then, post_ret. split; [eauto | reflexivity].
  - destruct (metaValueExists (ph_meta hit) prob_param); cbn [negb].
    + unfold DataValue_to_double.
      destruct (getMetaValue (ph_meta hit) prob_param) as [|x|d];
        try discriminate.
      intros H. injection H as <-.
      eapply post_bind with (Q1 := fun o evs => o = Normal d /\ evs = []).
      * now apply post_ret.
      * intros d' evs1 [H ->]. injection H as <-.
        apply post_ret. split; [eauto | reflexivity].
      * intros o evs1 Hn [-> _]. discriminate.
    + destruct (pi_higher_score_better pep); cbn [negb].
      * intros H. injection H as <-. apply post_ret.
        split; [eauto | reflexivity].
      * destruct (String.eqb _ _ || hasPrefix _ _); [|discriminate].
        intros H. injection H as <-.
        destruct warned_once; cbn [negb when].
        -- eapply post_bind with (Q1 := fun o evs => o = Normal tt /\ evs = []).
           ++ now apply post_ret.
           ++ intros [] evs1 [_ ->]. apply post_ret.
              split; [eauto | reflexivity].
           ++ intros o evs1 Hn [-> _]. discriminate.
        -- apply post_emit_then, post_ret. split; [eauto | reflexivity].
Qed.

(** The head of a non-empty vector of hits stays one after sorting. *)
Lemma sorted_hits_nonempty (pep : PeptideIdentification) :
  is_nil (pi_hits pep) = false ->
  exists hit hs, pi_hits (PeptideIdentification_sort pep) = hit :: hs.
Proof.
  intros Hnil.
  destruct (pi_hits (PeptideIdentification_sort pep)) as [|hit hs] eqn:Ehits;
    [|eauto].
  exfalso. destruct (pi_hits pep) as [|h0 l0] eqn:E0; [discriminate|].
  assert (Hin : In h0 (pi_hits (PeptideIdentification_sort pep))).
  { apply sorted_hits_In. rewrite E0. now left. }
  rewrite Ehits in Hin. destruct Hin.
Qed.

Lemma filter_warnings (pre : list Event) :
  all_events is_warning pre -> filter (on_file path) pre = [].
Proof.
  induction pre as [|e pre IH]; [reflexivity|].
  intros H. apply all_events_cons in H. destruct H as [He Hpre].
  cbn [filter]. destruct e as [| [] | | | | | |]; try discriminate He;
    cbn [on_file]; now apply IH.
Qed.

Lemma r_lines_on_file (accs : list string) :
  all_events (on_file path) (flat_map r_line accs).
Proof.
  apply all_events_In. intros e He. apply in_flat_map in He.
  destruct He as (acc & _ & He). unfold r_line in He.
  destruct (str_empty acc); [destruct He|].
  destruct (map.get (left sa) acc); [|destruct He].
  destruct He as [<- | []]. cbn. apply String.eqb_refl.
Qed.

Lemma block_on_file (pep : PeptideIdentification) :
  all_events (on_file path) (block pep).
Proof.
  unfold block.
  destruct (encoded_hit identifier pep) as [hit|]; [|reflexivity].
  destruct (probability_of pep hit) as [s|]; [|reflexivity].
  apply all_events_cons. split; [cbn; apply String.eqb_refl|].
  apply all_events_app. split; [apply r_lines_on_file|].
  apply all_events_cons. split; [cbn; apply String.eqb_refl | reflexivity].
Qed.

Lemma filter_all (P : Event -> bool) (evs : list Event) :
  all_events P evs -> filter P evs = evs.
Proof.
  induction evs as [|e evs IH]; [reflexivity|].
  intros H. apply all_events_cons in H. destruct H as [He Hevs].
  cbn [filter]. rewrite He. f_equal. now apply IH.
Qed.

(** One round of the loop of lines 245-323, for an identification that is
    skipped or whose hit is suitable. *)
Lemma write_graph_loop_step (pep : PeptideIdentification)
    (rest : list PeptideIdentification) (warned_once : bool)
    (Q : Outcome (list PeptideIdentification) -> list Event -> Prop) :
  match encoded_hit identifier pep with
  | Some hit => suitable pep hit = true
  | None => True
  end ->
  (forall warned' pre,
     all_events is_warning pre ->
     post (write_graph_loop sa path prob_param identifier rest warned')
          (fun o evs =>
             Q (cons_outcome (sorted_if_selected pep) o)
               (pre ++ block pep ++ evs)%list)) ->
  post (write_graph_loop sa path prob_param identifier (pep :: rest)
                         warned_once) Q.
Proof.
  intros Hsuit Hrest. cbn [write_graph_loop].
  assert (Hskip : forall pep',
    pep' = sorted_if_selected pep -> block pep = [] ->
    post (rest' <- write_graph_loop sa path prob_param identifier rest
                                    warned_once ;;
          ret (pep' :: rest')) Q).
  { intros pep' -> Hblock. specialize (Hrest warned_once [] eq_refl).
    rewrite Hblock in Hrest. cbn [app] in Hrest.
    eapply post_bind; [exact Hrest | |].
    - intros rest' evs1 H1. apply post_ret. now rewrite app_nil_r.
    - intros [a|e| |] evs1 Hn H1; try discriminate; exact H1. }
  unfold block, sorted_if_selected, selected in *. unfold encoded_hit in *.
  destruct ((negb (str_empty identifier)
             && negb (String.eqb (pi_identifier pep) identifier))
            || is_nil (pi_hits pep)) eqn:Efilter; cbn [negb] in *.
  { now apply Hskip. }
  apply orb_false_iff in Efilter. destruct Efilter as [_ Hnil].
  destruct (sorted_hits_nonempty pep Hnil) as (hit & hs & Ehits).
  rewrite Ehits in *.
  destruct (str_empty (ph_sequence hit)
            || is_nil (set_elements (extractProteinAccessions hit))).
  { now apply Hskip. }
  clear Hskip. unfold suitable in Hsuit.
  destruct (probability_of pep hit) as [s|] eqn:Eprob; [|discriminate Hsuit].
  apply andb_true_iff in Hsuit. destruct Hsuit as [Hrange Hreg].
  eapply post_bind;
    [apply (resolve_probability (PeptideIdentification_sort pep) hit s
                                warned_once Eprob) | |].
  2:{ intros o evs1 Hn [[warned' ->] _]. discriminate. }
  intros r evs1 [[warned' Hr] Hwarn]. injection Hr as ->. cbv beta iota.
  rewrite (check_range_passes _ _ Hrange). cbn [str_empty negb].
  apply post_emit_then.
  intros w.
  set (w2 := ((w ++ flat_map r_line
                      (set_elements (extractProteinAccessions hit)))
                ++ [Put (File path) [Str "p "; Dbl s; Endl]])%list).
  match goal with
  | |- exists evs, snd (?m w) = _ /\ _ =>
      assert (Hm : m w
                   = (cons_outcome (PeptideIdentification_sort pep)
                        (fst (write_graph_loop sa path prob_param identifier
                                               rest warned' w2)),
                      snd (write_graph_loop sa path prob_param identifier
                                            rest warned' w2)))
  end.
  { unfold bind at 1.
    rewrite (write_accessions_run sa path _ _ (extract_registered sa hit Hreg)).
    fold r_line. unfold bind at 1, emit. rewrite bind_unfold. fold w2.
    destruct (fst (write_graph_loop sa path prob_param identifier rest
                                    warned' w2)); reflexivity. }
  rewrite Hm. cbn [fst snd].
  destruct (Hrest warned' evs1 Hwarn w2) as (evs3 & E3 & q3).
  exists (flat_map r_line (set_elements (extractProteinAccessions hit))
          ++ Put (File path) [Str "p "; Dbl s; Endl] :: evs3)%list.
  split; [rewrite E3; unfold w2; rewrite <- !app_assoc; reflexivity|].
  cbn [app] in q3. rewrite <- app_assoc in q3. exact q3.
Qed.

(** The layout of the graph of a batch whose encoded hits are suitable. *)
Lemma write_graph_loop_layout (peps : list PeptideIdentification) :
  for_encoded_hits identifier suitable peps = true ->
  forall warned_once,
    post (write_graph_loop sa path prob_param identifier peps warned_once)
         (fun o evs =>
            o = Normal (List.map sorted_if_selected peps)
            /\ filter (on_file path) evs = flat_map block peps
            /\ all_events (fun e => on_file path e || is_warning e) evs).
Proof.
  induction peps as [|pep rest IH]; intros Hok warned.
  - cbn [write_graph_loop]. apply post_ret. repeat split.
  - unfold for_encoded_hits in Hok. cbn [forallb] in Hok.
    apply andb_true_iff in Hok. destruct Hok as [Hok1 Hok].
    apply write_graph_loop_step.
    + destruct (encoded_hit identifier pep); [exact Hok1 | exact I].
    + intros warned' pre Hpre. eapply post_weaken; [apply (IH Hok)|].
      intros o evs (-> & Hfile & Hall). cbn [cons_outcome List.map flat_map].
      split; [reflexivity|]. split.
      * rewrite !filter_app, Hfile, (filter_warnings _ Hpre),
          (filter_all _ _ (block_on_file pep)). reflexivity.
      * apply all_events_app. split.
        -- eapply all_events_weaken; [|exact Hpre].
           intros e He. rewrite He. apply orb_true_r.
        -- apply all_events_app. split; [|exact Hall].
           eapply all_events_weaken; [|apply block_on_file].
           intros e He. now rewrite He.
Qed.

(** X4.  The layout of the graph file.  Every hit that is encoded is
    suitable: it has a probability (the number in the alternate score field
    when the hit has that field, whatever the score type; else its score,
    converted when it is an error probability), the probability passes the
    comparisons with 0 and 1, and the accessions are registered.  Then the
    call returns; between the opening and the closing of the file it writes,
    for each such hit in the order of the identifications, an "e" line with
    the peptide, an "r" line for each non-empty accession and a "p" line with
    the probability, and nothing else to the file.  The identifications come
    back with the hits sorted where the filter of line 248 let them pass. *)
Theorem graph_file_layout (peps : list PeptideIdentification)
    (w : list Event) :
  for_encoded_hits identifier suitable peps = true ->
  exists evs,
    writePSMGraph_ sa peps path prob_param identifier w
    = (Normal (List.map sorted_if_selected peps), (w ++ evs)%list)
    /\ filter (on_file path) evs
       = (Open path :: flat_map block peps ++ [Close path])%list
    /\ all_events (fun e => on_file path e || is_warning e) evs.
Proof.
  intros Hok.
  assert (H : post (writePSMGraph_ sa peps path prob_param identifier)
                (fun o evs =>
                   o = Normal (List.map sorted_if_selected peps)
                   /\ filter (on_file path) evs
                      = (Open path :: flat_map block peps ++ [Close path])%list
                   /\ all_events (fun e => on_file path e || is_warning e)
                                 evs)).
  { unfold writePSMGraph_. apply post_emit_then.
    eapply post_bind;
      [apply post_scope_returns;
       [apply (write_graph_loop_layout peps Hok false)
       | intros o evs1 (-> & _); reflexivity]
      | |].
    - intros peps' evs1 (Ho & Hfile & Hall). injection Ho as ->.
      apply post_emit_then, post_ret. split; [reflexivity|]. split.
      + cbn [filter on_file]. rewrite String.eqb_refl, filter_app, Hfile.
        cbn [filter on_file]. now rewrite String.eqb_refl.
      + apply all_events_cons. split; [cbn; now rewrite String.eqb_refl|].
        apply all_events_app. split; [exact Hall|].
        apply all_events_cons. split; [cbn; now rewrite String.eqb_refl|].
        reflexivity.
    - intros o evs1 Hn (-> & _). discriminate. }
  destruct (post_run _ _ w H) as (o & evs & Hrun & -> & Hfile & Hall).
  exists evs. auto.
Qed.

(** Scores for which lower is better, of a type that is no error
    probability, on a hit without the alternate score field. *)
Definition lower_is_better (pep : PeptideIdentification) (hit : PeptideHit)
  : bool :=
  negb (has_alternate hit) && negb (pi_higher_score_better pep)
  && negb (error_probability_type pep).

Lemma resolve_lower_is_better (pep : PeptideIdentification) (hit : PeptideHit)
    (warned_once : bool) (w : list Event) :
  lower_is_better pep hit = true ->
  resolve_score prob_param pep hit warned_once w
  = (Normal (ph_score hit, "lower scores are better", warned_once), w).
Proof.
  unfold lower_is_better, has_alternate, error_probability_type, resolve_score.
  intros H. apply andb_true_iff in H. destruct H as [H Htype].
  apply andb_true_iff in H. destruct H as [Halt Hlow].
  apply negb_true_iff in Htype. rewrite Hlow, Htype.
  destruct (str_empty prob_param); cbn [negb andb orb] in *; [reflexivity|].
  rewrite Halt. reflexivity.
Qed.

(** What the range check of lines 293-300 leaves of the reason. *)
Definition rejection (hit : PeptideHit) : string :=
  unsuitable_msg (check_range (ph_score hit) "lower scores are better").

Lemma check_range_not_empty (score : double) :
  str_empty (check_range score "lower scores are better") = false.
Proof.
  unfold check_range. destruct (dlt score d0); [reflexivity|].
  destruct (dgt score d1); reflexivity.
Qed.

Lemma write_graph_loop_rejects (before : list PeptideIdentification)
    (pep : PeptideIdentification) (hit : PeptideHit)
    (after : list PeptideIdentification) :
  for_encoded_hits identifier suitable before = true ->
  encoded_hit identifier pep = Some hit ->
  lower_is_better pep hit = true ->
  forall warned_once,
    post (write_graph_loop sa path prob_param identifier
                           (before ++ pep :: after) warned_once)
         (fun o evs =>
            o = Thrown (MissingInformation (rejection hit))
            /\ exists evs0,
                 evs = (evs0 ++ [Put LOG_ERROR [Str (rejection hit); Endl]])%list
                 /\ filter (on_file path) evs0 = flat_map block before).
Proof.
  intros Hok Henc Hlow.
  induction before as [|p0 before IH]; intros warned.
  - cbn [app write_graph_loop]. unfold encoded_hit in Henc.
    destruct ((negb (str_empty identifier)
               && negb (String.eqb (pi_identifier pep) identifier))
              || is_nil (pi_hits pep)); [discriminate|].
    destruct (pi_hits (PeptideIdentification_sort pep)) as [|h hs];
      [discriminate|].
    destruct (str_empty (ph_sequence h)
              || is_nil (set_elements (extractProteinAccessions h)));
      [discriminate|].
    injection Henc as ->.
    intros w.
    match goal with
    | |- exists evs, snd (?m w) = _ /\ _ =>
        assert (Hm : m w
                     = (Thrown (MissingInformation (rejection hit)),
                        (w ++ [Put LOG_ERROR [Str (rejection hit); Endl]])%list))
    end.
    { unfold bind at 1.
      rewrite (resolve_lower_is_better (PeptideIdentification_sort pep) hit
                                       warned w Hlow).
      cbv beta iota. rewrite check_range_not_empty. reflexivity. }
    rewrite Hm. cbn [fst snd].
    eexists. split; [reflexivity|]. split; [reflexivity|].
    exists []. split; reflexivity.
  - unfold for_encoded_hits in Hok. cbn [forallb] in Hok.
    apply andb_true_iff in Hok. destruct Hok as [Hok1 Hok].
    cbn [app]. apply write_graph_loop_step.
    + destruct (encoded_hit identifier p0); [exact Hok1 | exact I].
    + intros warned' pre Hpre. eapply post_weaken; [apply (IH Hok)|].
      intros o evs (-> & evs0 & -> & Hfile). cbn [cons_outcome fail_as].
      split; [reflexivity|].
      exists (pre ++ block p0 ++ evs0)%list. split.
      * now rewrite <- !app_assoc.
      * cbn [flat_map].
        rewrite !filter_app, Hfile, (filter_warnings _ Hpre),
          (filter_all _ _ (block_on_file p0)). reflexivity.
Qed.

(** X5.  Scores for which lower is better are refused unless their type is
    that of an error probability.  The hits encoded before are suitable; the
    next hit to encode has no alternate score field, its identification says
    that lower scores are better, and the score type is neither "posterior
    error probability" nor begins with "consensus_".  Then the call logs the
    error and throws [MissingInformation], also for a score within [0, 1];
    the message names "lower scores are better", or the bound when the score
    is below 0 or above 1.  The file holds the lines of the hits before; it
    is closed after the error has been logged, when the exception leaves the
    scope of the stream. *)
Theorem lower_is_better_scores_are_refused
    (before : list PeptideIdentification) (pep : PeptideIdentification)
    (hit : PeptideHit) (after : list PeptideIdentification) (w : list Event) :
  for_encoded_hits identifier suitable before = true ->
  encoded_hit identifier pep = Some hit ->
  lower_is_better pep hit = true ->
  exists evs,
    writePSMGraph_ sa (before ++ pep :: after) path prob_param identifier w
    = (Thrown (MissingInformation (rejection hit)),
       (w ++ Open path :: evs
          ++ [Put LOG_ERROR [Str (rejection hit); Endl]; Close path])%list)
    /\ filter (on_file path) evs = flat_map block before
    /\ (passes_range_check (ph_score hit) = true ->
        rejection hit = unsuitable_msg "lower scores are better").
Proof.
  intros Hok Henc Hlow.
  assert (H : post (writePSMGraph_ sa (before ++ pep :: after) path prob_param
                                   identifier)
                (fun o evs =>
                   o = Thrown (MissingInformation (rejection hit))
                   /\ exists evs0,
                        evs = (Open path :: evs0
                               ++ [Put LOG_ERROR [Str (rejection hit); Endl];
                                   Close path])%list
                        /\ filter (on_file path) evs0 = flat_map block before)).
  { unfold writePSMGraph_. apply post_emit_then.
    eapply post_bind with
      (Q1 := fun o evs =>
               o = Thrown (MissingInformation (rejection hit))
               /\ exists evs0,
                    evs = (evs0 ++ [Put LOG_ERROR [Str (rejection hit); Endl];
                                    Close path])%list
                    /\ filter (on_file path) evs0 = flat_map block before).
    - eapply post_scope;
        [apply (write_graph_loop_rejects before pep hit after Hok Henc Hlow
                                         false)
        | |].
      + intros o evs1 Hn (-> & _). discriminate Hn.
      + intros e evs1 (He & evs0 & -> & Hfile). split; [exact He|].
        exists evs0. split; [now rewrite <- app_assoc | exact Hfile].
    - intros peps' evs1 (Ho & _). discriminate.
    - intros o evs1 Hn (-> & evs0 & -> & Hfile). cbn [fail_as].
      split; [reflexivity|]. exists evs0. now split. }
  destruct (post_run _ _ w H) as (o & evs & Hrun & -> & evs0 & -> & Hfile).
  exists evs0. split; [exact Hrun|]. split; [exact Hfile|].
  intros Hrange. unfold rejection. now rewrite (check_range_passes _ _ Hrange).
Qed.

(** What the call returns, when it returns: the identifications, with the
    hits sorted where line 253 ran. *)
Lemma write_graph_loop_returns (peps : list PeptideIdentification) :
  forall warned_once w peps' w',
    write_graph_loop sa path prob_param identifier peps warned_once w
    = (Normal peps', w') ->
    peps' = List.map sorted_if_selected peps.
Proof.
  induction peps as [|pep rest IH]; intros warned w peps' w' H;
    cbn [write_graph_loop] in H.
  - unfold ret in H. now injection H as <- _.
  - assert (Hskip : forall pep' w0,
      (rest' <- write_graph_loop sa path prob_param identifier rest warned ;;
       ret (pep' :: rest')) w0 = (Normal peps', w') ->
      peps' = pep' :: List.map sorted_if_selected rest).
    { intros pep' w0 H0. apply bind_normal_inv in H0.
      destruct H0 as (rest' & w1 & Hrest & H0). unfold ret in H0.
      injection H0 as <- _. f_equal. exact (IH _ _ _ _ Hrest). }
    cbn [List.map]. unfold sorted_if_selected at 1, selected.
    destruct ((negb (str_empty identifier)
               && negb (String.eqb (pi_identifier pep) identifier))
              || is_nil (pi_hits pep)); cbn [negb].
    { exact (Hskip _ _ H). }
    destruct (pi_hits (PeptideIdentification_sort pep)) as [|hit hs];
      [discriminate H|].
    destruct (str_empty (ph_sequence hit)
              || is_nil (set_elements (extractProteinAccessions hit))).
    { exact (Hskip _ _ H). }
    apply bind_normal_inv in H.
    destruct H as ([[score reason] warned'] & w1 & _ & H).
    destruct (negb (str_empty (check_range score reason))).
    { unfold bind, emit, throw in H. discriminate. }
    unfold bind at 1, emit in H.
    apply bind_normal_inv in H. destruct H as ([] & w2 & _ & H).
    unfold bind at 1, emit in H.
    apply bind_normal_inv in H. destruct H as (rest' & w3 & Hrest & H).
    unfold ret in H. injection H as <- _. f_equal.
    exact (IH _ _ _ _ Hrest).
Qed.

Lemma writePSMGraph_returns (peps peps' : list PeptideIdentification)
    (w w' : list Event) :
  writePSMGraph_ sa peps path prob_param identifier w = (Normal peps', w') ->
  peps' = List.map sorted_if_selected peps.
Proof.
  unfold writePSMGraph_. unfold bind at 1, emit. intros H.
  apply bind_normal_inv in H. destruct H as (peps1 & w1 & Hloop & H).
  unfold bind, emit, ret in H. injection H as <- _.
  apply scope_normal in Hloop.
  exact (write_graph_loop_returns _ _ _ _ _ Hloop).
Qed.

End GraphWriter.

(** The example of X4: a hit with a posterior probability, and a hit with
    an error probability that carries the alternate score field, whose value
    is written as it is. *)
Definition rescored_peptide : PeptideIdentification :=
  {| pi_identifier := "run1";
     pi_score_type := "Posterior Error Probability";
     pi_higher_score_better := false;
     pi_hits := [{| ph_sequence := "CCK"; ph_score := Stub.half;
                    ph_meta := [("Posterior Probability_score",
                                 DOUBLE_VALUE Stub.quarter)];
                    ph_evidences := ["D1"; "P1"; "D1"] |}] |}.

Lemma graph_file_layout_witness :
  let sa := sanitize Stub.two_runs in
  let peps := [Stub.peptide "run1" "AAK" Stub.half ["P1"];
               Stub.peptide "run2" "EEK" Stub.half ["P2"];
               rescored_peptide] in
  flat_map (block sa "graph.txt" "Posterior Probability_score" "run1") peps
  = [Put (File "graph.txt") [Str "e "; Str "AAK"; Endl];
     Put (File "graph.txt") [Str "r "; Str "P1_3"; Endl];
     Put (File "graph.txt") [Str "p "; Dbl Stub.half; Endl];
     Put (File "graph.txt") [Str "e "; Str "CCK"; Endl];
     Put (File "graph.txt") [Str "r "; Str "D1_1"; Endl];
     Put (File "graph.txt") [Str "r "; Str "P1_3"; Endl];
     Put (File "graph.txt") [Str "p "; Dbl Stub.quarter; Endl]]
  /\ exists evs,
       writePSMGraph_ sa peps "graph.txt" "Posterior Probability_score" "run1"
                      []
       = (Normal (List.map (sorted_if_selected "run1") peps), ([] ++ evs)%list)
       /\ filter (on_file "graph.txt") evs
          = (Open "graph.txt"
             :: flat_map (block sa "graph.txt" "Posterior Probability_score"
                                "run1") peps
             ++ [Close "graph.txt"])%list
       /\ all_events (fun e => on_file "graph.txt" e || is_warning e) evs.
Proof.
  split; [reflexivity|].
  apply graph_file_layout. vm_compute. reflexivity.
Defined.

(** The example of X5: an e-value after a suitable hit. *)
Definition evalue_peptide : PeptideIdentification :=
  {| pi_identifier := "run1"; pi_score_type := "E-Value";
     pi_higher_score_better := false;
     pi_hits := [{| ph_sequence := "EEK"; ph_score := Stub.quarter;
                    ph_meta := []; ph_evidences := ["P1"] |}] |}.

Lemma lower_is_better_witness :
  let sa := sanitize Stub.two_runs in
  let hit := {| ph_sequence := "EEK"; ph_score := Stub.quarter;
                ph_meta := []; ph_evidences := ["P1"] |} in
  exists evs,
    writePSMGraph_ sa ([Stub.peptide "run1" "AAK" Stub.half ["P1"]]
                       ++ evalue_peptide :: Stub.one_peptide)
                   "graph.txt" "Posterior Probability_score" "run1" []
    = (Thrown (MissingInformation (rejection hit)),
       ([] ++ Open "graph.txt" :: evs
           ++ [Put LOG_ERROR [Str (rejection hit); Endl];
               Close "graph.txt"])%list)
    /\ filter (on_file "graph.txt") evs
       = flat_map (block sa "graph.txt" "Posterior Probability_score" "run1")
                  [Stub.peptide "run1" "AAK" Stub.half ["P1"]]
    /\ (passes_range_check (ph_score hit) = true ->
        rejection hit = unsuitable_msg "lower scores are better").
Proof.
  intros sa hit.
  apply (lower_is_better_scores_are_refused sa "graph.txt"
           "Posterior Probability_score" "run1"
           [Stub.peptide "run1" "AAK" Stub.half ["P1"]] evalue_peptide hit
           Stub.one_peptide []);
    vm_compute; reflexivity.
Defined.

(* ===================================================================== *)
(** * What a call of [runFido_] hands back *)

(** The standard error of the parameter search opens with the report of an
    exception (lines 446-452). *)
Definition reports_exception (std_err : string) : bool :=
  match filter (fun l => negb (str_empty l)) (split_lines std_err) with
  | first :: _ => hasPrefix first "caught an exception"
  | [] => false
  end.

Definition same_but_probabilities (sh sh' : Shared) : Prop :=
  peptides_ sh' = peptides_ sh /\ fido_params_ sh' = fido_params_ sh.

(** The summary line 514-519 logs. *)
Definition summary_line (keep_zero_group : bool) (parsed : Parsed) : Event :=
  let zero := zero_proteins parsed in
  Put LOG_INFO
      [Str "Inferred "; Num (protein_counter parsed);
       Str " proteins in ";
       Num (N.of_nat (List.length (parsed_groups parsed)));
       Str " groups (";
       Str (if keep_zero_group && negb (zero =? 0)%N
            then "including " else EmptyString);
       Num zero;
       Str " proteins with probability zero";
       Str (if keep_zero_group || (zero =? 0)%N
            then ")." else " not included).");
       Endl].

(** The run with the groups and the three meta values of lines 510-513. *)
Definition annotated (protein : ProteinIdentification)
    (gs : list ProteinGroup) (sh : Shared) : ProteinIdentification :=
  with_meta
    (with_meta
       (with_meta (with_groups protein gs)
                  "Fido_prob_protein" (prob_protein_ sh))
       "Fido_prob_peptide" (prob_peptide_ sh))
    "Fido_prob_spurious" (prob_spurious_ sh).

Section Results.
Context `{Ext : Externals}.
Variable sa : StringBimap.
Variable opts : Options.

Lemma read_probabilities_same (text : string) (sh : Shared) :
  same_but_probabilities sh (read_probabilities text sh).
Proof.
  unfold read_probabilities.
  destruct (extract_double (istringstream text) (prob_protein_ sh)) as [a s1].
  destruct (extract_double s1 (prob_peptide_ sh)) as [b s2].
  destruct (extract_double s2 (prob_spurious_ sh)) as [c s3].
  split; reflexivity.
Qed.

Lemma write_text_file_run (path text : string) (w : list Event) :
  write_text_file path text w
  = (Normal tt,
     (w ++ [Open path; Put (File path) [Str text]; Close path])%list).
Proof.
  unfold write_text_file, bind, emit. now rewrite <- !app_assoc.
Qed.

Lemma parse_params_output_inv (temp_dir num std_err : string) (sh : Shared)
    (w w' : list Event) (r : option Shared) :
  parse_params_output opts temp_dir num std_err sh w = (Normal r, w') ->
  match r with
  | None => reports_exception std_err = true
  | Some sh' => reports_exception std_err = false
                /\ same_but_probabilities sh sh'
  end.
Proof.
  unfold parse_params_output, reports_exception.
  unfold bind at 1, emit. intros H.
  apply bind_normal_inv in H. destruct H as ([] & w1 & _ & H).
  destruct (filter (fun l => negb (str_empty l)) (split_lines std_err))
    as [|first lines].
  { unfold ret in H. injection H as <- _. repeat split. }
  destruct (hasPrefix first "caught an exception").
  { unfold bind, emit, ret in H. now injection H as <- _. }
  apply bind_normal_inv in H. destruct H as ([] & w2 & _ & H).
  destruct (hasPrefix (last (first :: lines) EmptyString)
                      "Using best gamma, alpha, beta =").
  - unfold bind at 1, emit in H.
    destruct (suffix "="%char (last (first :: lines) EmptyString)).
    + unfold ret in H. injection H as <- _.
      split; [reflexivity | apply read_probabilities_same].
    + discriminate H.
  - unfold ret in H. injection H as <- _. repeat split.
Qed.

(** What [read_results] returns: [false] with the run untouched, or [true]
    with the run annotated and the summary logged last. *)
Lemma read_results_inv (protein protein' : ProteinIdentification)
    (sh sh' : Shared) (choose_params : bool) (temp_dir : string)
    (keep_zero_group : bool) (counter : Size) (std_out std_err : string)
    (w w' : list Event) (flag : bool) :
  read_results sa opts protein sh choose_params temp_dir keep_zero_group
               counter std_out std_err w
  = (Normal (flag, protein', sh'), w') ->
  flag = negb (choose_params && reports_exception std_err)
  /\ same_but_probabilities sh sh'
  /\ (choose_params = false -> sh' = sh)
  /\ (flag = false -> protein' = protein /\ sh' = sh)
  /\ (flag = true ->
      exists parsed pre,
        parse_output sa keep_zero_group (split_lines std_out) = Normal parsed
        /\ protein' = annotated protein (parsed_groups parsed) sh'
        /\ w' = (pre ++ [summary_line keep_zero_group parsed])%list).
Proof.
  unfold read_results. intros H.
  apply bind_normal_inv in H. destruct H as (r & w1 & Hparams & H).
  assert (Hr : match r with
               | None => choose_params = true
                         /\ reports_exception std_err = true
               | Some sh1 => choose_params && reports_exception std_err = false
                             /\ same_but_probabilities sh sh1
                             /\ (choose_params = false -> sh1 = sh)
               end).
  { destruct choose_params.
    - apply parse_params_output_inv in Hparams.
      destruct r as [sh1|]; [|now split].
      destruct Hparams as [He Hs]. repeat split; try apply Hs; try exact He.
      discriminate.
    - unfold ret in Hparams. injection Hparams as <- _. repeat split. }
  destruct r as [sh1|].
  - destruct Hr as (Hflag & Hsame & Hdirect).
    unfold bind at 1, emit in H.
    apply bind_normal_inv in H. destruct H as ([] & w2 & _ & H).
    apply bind_normal_inv in H. destruct H as (parsed & w3 & Hparse & H).
    unfold lift in Hparse. injection Hparse as Hparse _.
    unfold bind, emit, ret in H. injection H as <- <- <- <-.
    rewrite Hflag. repeat split; try apply Hsame; try exact Hdirect;
      try discriminate.
    intros _. exists parsed. eexists. split; [exact Hparse|].
    split; reflexivity.
  - destruct Hr as [-> He]. unfold ret in H. injection H as <- <- <- _.
    rewrite He. repeat split; discriminate.
Qed.

(** What [generate_files] returns: the identifications with the hits sorted
    where the writer used them, and the place holders replaced. *)
Lemma generate_files_inv (protein : ProteinIdentification) (sh sh' : Shared)
    (choose_params : bool) (temp_dir : string) (counter : Size)
    (w w' : list Event) :
  generate_files sa opts protein sh choose_params temp_dir counter w
  = (Normal sh', w') ->
  let graph := temp_dir ++ "fido_input_graph" ++ num_of counter ++ ".txt" in
  let list_ := temp_dir ++ "fido_input_proteins" ++ num_of counter ++ ".txt" in
  peptides_ sh'
  = List.map (sorted_if_selected (identifier protein)) (peptides_ sh)
  /\ fido_params_ sh'
     = (if choose_params
        then replaceInStrings "INPUT_PROTEINS" list_
               (replaceInStrings "INPUT_GRAPH" graph (fido_params_ sh))
        else replaceInStrings "INPUT_GRAPH" graph (fido_params_ sh))
  /\ prob_protein_ sh' = prob_protein_ sh
  /\ prob_peptide_ sh' = prob_peptide_ sh
  /\ prob_spurious_ sh' = prob_spurious_ sh.
Proof.
  unfold generate_files. unfold bind at 1, emit. intros H.
  apply bind_normal_inv in H. destruct H as (peps & w1 & Hgraph & H).
  apply writePSMGraph_returns in Hgraph. cbn [with_fido_params peptides_] in *.
  destruct choose_params.
  - apply bind_normal_inv in H. destruct H as ([] & w2 & _ & H).
    unfold bind, emit, ret in H. injection H as <- _.
    cbn. now rewrite Hgraph.
  - unfold bind, emit, ret in H. injection H as <- _.
    cbn. now rewrite Hgraph.
Qed.

(** [runFido_] in its parts. *)
Lemma runFido_inv (protein protein' : ProteinIdentification) (sh sh' : Shared)
    (choose_params : bool) (exe temp_dir : string) (keep_zero_group : bool)
    (counter : Size) (w w' : list Event) (flag : bool) :
  runFido_ sa opts protein sh choose_params exe temp_dir keep_zero_group
           counter w
  = (Normal (flag, protein', sh'), w') ->
  exists sh1 w1,
    generate_files sa opts protein sh choose_params temp_dir counter w
    = (Normal sh1, w1)
    /\ match QProcess_run exe (fido_params_ sh1)
                          (w1 ++ [Start exe (fido_params_ sh1)])%list with
       | None => flag = false /\ protein' = protein /\ sh' = sh1
       | Some (std_out, std_err) =>
           read_results sa opts protein sh1 choose_params temp_dir
                        keep_zero_group counter std_out std_err
                        (w1 ++ [Start exe (fido_params_ sh1)])%list
           = (Normal (flag, protein', sh'), w')
       end.
Proof.
  unfold runFido_. intros H.
  apply bind_normal_inv in H. destruct H as (sh1 & w1 & Hgen & H).
  exists sh1, w1. split; [exact Hgen|].
  unfold bind at 1, emit in H. unfold bind at 1, history in H.
  destruct (QProcess_run exe (fido_params_ sh1)
              (w1 ++ [Start exe (fido_params_ sh1)])%list)
    as [[std_out std_err]|].
  - exact H.
  - unfold report_failure, bind, emit, ret in H. injection H as <- <- <- _.
    repeat split.
Qed.

(** X6.  The flag that [runFido_] returns.  It is [false] in two cases
    only: the engine did not finish, or the parameter search was run and the
    first non-empty line of its standard error begins with "caught an
    exception".  A call that returns [false] hands the run back as it got it:
    no groups and no meta values are attached, whatever the standard output
    holds. *)
Theorem runFido_flag (protein protein' : ProteinIdentification)
    (sh sh' : Shared) (choose_params : bool) (exe temp_dir : string)
    (keep_zero_group : bool) (counter : Size) (w w' : list Event)
    (flag : bool) :
  runFido_ sa opts protein sh choose_params exe temp_dir keep_zero_group
           counter w
  = (Normal (flag, protein', sh'), w') ->
  exists sh1 w1,
    generate_files sa opts protein sh choose_params temp_dir counter w
    = (Normal sh1, w1)
    /\ flag
       = match QProcess_run exe (fido_params_ sh1)
                            (w1 ++ [Start exe (fido_params_ sh1)])%list with
         | None => false
         | Some (_, std_err) =>
             negb (choose_params && reports_exception std_err)
         end
    /\ (flag = false -> protein' = protein /\ sh' = sh1).
Proof.
  intros H. apply runFido_inv in H. destruct H as (sh1 & w1 & Hgen & H).
  exists sh1, w1. split; [exact Hgen|].
  destruct (QProcess_run exe (fido_params_ sh1)
              (w1 ++ [Start exe (fido_params_ sh1)])%list)
    as [[std_out std_err]|].
  - apply read_results_inv in H. destruct H as (Hflag & _ & _ & Hfalse & _).
    split; [exact Hflag | exact Hfalse].
  - destruct H as (-> & -> & ->). repeat split.
Qed.

(** ** The meta values of a run *)

Lemma get_set_meta (m : MetaInfo) (name name' : string) (v : DataValue) :
  getMetaValue (setMetaValue m name v) name'
  = if String.eqb name name' then v else getMetaValue m name'.
Proof.
  unfold getMetaValue, setMetaValue, has_name. cbn [find fst].
  destruct (String.eqb name name') eqn:E; [reflexivity|].
  induction m as [|[k x] m IH]; [reflexivity|].
  cbn [filter fst negb find].
  destruct (String.eqb_spec k name) as [->|Hk]; cbn [negb find fst].
  - rewrite E. exact IH.
  - destruct (String.eqb k name'); [reflexivity | exact IH].
Qed.

Definition is_parameter_name (name : string) : bool :=
  String.eqb name "Fido_prob_protein" || String.eqb name "Fido_prob_peptide"
  || String.eqb name "Fido_prob_spurious".

(** X7.  A call of [runFido_] that returns [true] has recorded, as the
    meta values "Fido_prob_protein", "Fido_prob_peptide" and
    "Fido_prob_spurious" of the run, the three probabilities it hands back to
    its caller; in a run without parameter search these are the values the
    caller passed.  The other meta values of the run, its identifier and its
    hits are as before. *)
Theorem parameters_are_recorded (protein protein' : ProteinIdentification)
    (sh sh' : Shared) (choose_params : bool) (exe temp_dir : string)
    (keep_zero_group : bool) (counter : Size) (w w' : list Event) :
  runFido_ sa opts protein sh choose_params exe temp_dir keep_zero_group
           counter w
  = (Normal (true, protein', sh'), w') ->
  getMetaValue (meta protein') "Fido_prob_protein"
  = DOUBLE_VALUE (prob_protein_ sh')
  /\ getMetaValue (meta protein') "Fido_prob_peptide"
     = DOUBLE_VALUE (prob_peptide_ sh')
  /\ getMetaValue (meta protein') "Fido_prob_spurious"
     = DOUBLE_VALUE (prob_spurious_ sh')
  /\ (choose_params = false ->
      prob_protein_ sh' = prob_protein_ sh
      /\ prob_peptide_ sh' = prob_peptide_ sh
      /\ prob_spurious_ sh' = prob_spurious_ sh)
  /\ (forall name, is_parameter_name name = false ->
        getMetaValue (meta protein') name = getMetaValue (meta protein) name)
  /\ identifier protein' = identifier protein
  /\ hits protein' = hits protein.
Proof.
  intros H. apply runFido_inv in H. destruct H as (sh1 & w1 & Hgen & H).
  apply generate_files_inv in Hgen.
  destruct Hgen as (_ & _ & Hp1 & Hp2 & Hp3).
  destruct (QProcess_run exe (fido_params_ sh1)
              (w1 ++ [Start exe (fido_params_ sh1)])%list)
    as [[std_out std_err]|]; [|destruct H as (H & _); discriminate H].
  apply read_results_inv in H.
  destruct H as (_ & _ & Hdirect & _ & Htrue).
  destruct (Htrue eq_refl) as (parsed & pre & _ & -> & _).
  unfold annotated. cbn [with_meta with_groups meta identifier hits].
  rewrite !get_set_meta. cbn [String.eqb Ascii.eqb Bool.eqb].
  split; [reflexivity|]. split; [reflexivity|]. split; [reflexivity|].
  split; [|split; [|split; reflexivity]].
  - intros Hc. rewrite (Hdirect Hc). auto.
  - intros name Hname. unfold is_parameter_name in Hname.
    apply orb_false_iff in Hname. destruct Hname as [Hname H3].
    apply orb_false_iff in Hname. destruct Hname as [H1 H2].
    rewrite !get_set_meta.
    rewrite (String.eqb_sym "Fido_prob_spurious"), H3.
    rewrite (String.eqb_sym "Fido_prob_peptide"), H2.
    rewrite (String.eqb_sym "Fido_prob_protein"), H1. reflexivity.
Qed.

End Results.

(** The example of X6: the engine does not finish. *)
Lemma runFido_flag_witness :
  let Ext := Stub.externals [1%nat] None in
  let sa := sanitize Stub.two_runs in
  let opts := Stub.options false d0 in
  let protein := Stub.run "run1" [Stub.protein_hit "P1" "target";
                                  Stub.protein_hit "D1" "decoy"] in
  let sh := {| peptides_ := Stub.one_peptide;
               fido_params_ := ["INPUT_GRAPH"; "INPUT_PROTEINS"];
               prob_protein_ := d0; prob_peptide_ := d0;
               prob_spurious_ := d0 |} in
  let r := @runFido_ Ext sa opts protein sh true "FidoChooseParameters"
                     "/tmp/fido/" false 0%N [] in
  fst (fst (returned (true, protein, sh) r)) = false
  /\ exists sh1 w1,
       @generate_files Ext sa opts protein sh true "/tmp/fido/" 0%N []
       = (Normal sh1, w1)
       /\ false
          = match @QProcess_run Ext "FidoChooseParameters" (fido_params_ sh1)
                    (w1 ++ [Start "FidoChooseParameters" (fido_params_ sh1)])
                    %list with
            | None => false
            | Some (_, std_err) => negb (true && reports_exception std_err)
            end
       /\ (false = false ->
           snd (fst (returned (true, protein, sh) r)) = protein
           /\ snd (returned (true, protein, sh) r) = sh1).
Proof.
  intros Ext sa opts protein sh r. split; [reflexivity|].
  apply (@runFido_flag Ext sa opts protein
           (snd (fst (returned (true, protein, sh) r)))
           sh (snd (returned (true, protein, sh) r)) true
           "FidoChooseParameters" "/tmp/fido/" false 0%N [] (snd r) false).
  vm_compute. reflexivity.
Defined.

(** The example of X7: the parameter search prints its best parameters. *)
Lemma parameters_are_recorded_witness :
  let Ext := Stub.externals [] None in
  let sa := sanitize Stub.two_runs in
  let opts := Stub.options false d0 in
  let protein := Stub.run "run1" [Stub.protein_hit "P1" "target";
                                  Stub.protein_hit "D1" "decoy"] in
  let sh := {| peptides_ := Stub.one_peptide;
               fido_params_ := ["INPUT_GRAPH"; "INPUT_PROTEINS"];
               prob_protein_ := d0; prob_peptide_ := d0;
               prob_spurious_ := d0 |} in
  let r := @runFido_ Ext sa opts protein sh true "FidoChooseParameters"
                     "/tmp/fido/" false 0%N [] in
  let protein' := snd (fst (returned (false, protein, sh) r)) in
  let sh' := snd (returned (false, protein, sh) r) in
  prob_protein_ sh' = Stub.half
  /\ getMetaValue (meta protein') "Fido_prob_protein"
     = DOUBLE_VALUE (prob_protein_ sh')
  /\ getMetaValue (meta protein') "Fido_prob_peptide"
     = DOUBLE_VALUE (prob_peptide_ sh')
  /\ getMetaValue (meta protein') "Fido_prob_spurious"
     = DOUBLE_VALUE (prob_spurious_ sh')
  /\ (true = false ->
      prob_protein_ sh' = prob_protein_ sh
      /\ prob_peptide_ sh' = prob_peptide_ sh
      /\ prob_spurious_ sh' = prob_spurious_ sh)
  /\ (forall name, is_parameter_name name = false ->
        getMetaValue (meta protein') name = getMetaValue (meta protein) name)
  /\ identifier protein' = identifier protein
  /\ hits protein' = hits protein.
Proof.
  intros Ext sa opts protein sh r protein' sh'. split; [reflexivity|].
  apply (@parameters_are_recorded Ext sa opts protein protein' sh sh' true
           "FidoChooseParameters" "/tmp/fido/" false 0%N [] (snd r)).
  vm_compute. reflexivity.
Defined.

(* ===================================================================== *)
(** * The summary of the groups *)

(** The number of accessions in the groups. *)
Definition total (gs : list ProteinGroup) : nat :=
  List.length (flat_map accessions gs).

Lemma Size_add_of_nat (n k : nat) :
  Size_add (Size_of_nat n) (N.of_nat k) = Size_of_nat (n + k).
Proof.
  unfold Size_add, Size_of_nat.
  rewrite N.Div0.add_mod_idemp_l. f_equal. lia.
Qed.

Lemma total_app (g1 g2 : list ProteinGroup) :
  total (g1 ++ g2) = (total g1 + total g2)%nat.
Proof. unfold total. now rewrite flat_map_app, length_app. Qed.

Lemma total_perm (g1 g2 : list ProteinGroup) :
  Permutation g1 g2 -> total g1 = total g2.
Proof.
  intros H. unfold total. apply Permutation_length.
  now apply Permutation_flat_map.
Qed.

Section Summary.
Context `{Ext : Externals}.
Variable sa : StringBimap.

Lemma parse_line_counter (keep_zero_group : bool) (text : string)
    (acc r : Parsed) :
  parse_line sa keep_zero_group text acc = Normal r ->
  protein_counter acc = Size_of_nat (total (parsed_groups acc)) ->
  protein_counter r = Size_of_nat (total (parsed_groups r)).
Proof.
  unfold parse_line.
  destruct (extract_double (istringstream text) d0) as [p line].
  destruct (read_accessions _ _ _ _ _ _ _ _) as [[zero accs]| | |];
    cbn [obind]; try discriminate.
  destruct (negb (is_nil accs)); intros H Hacc; injection H as <-;
    cbn [parsed_groups protein_counter]; [|exact Hacc].
  rewrite Hacc, Size_add_of_nat, total_app. f_equal. f_equal.
  unfold total. cbn [flat_map accessions]. rewrite app_nil_r.
  apply Permutation_length, sort_perm.
Qed.

Lemma parse_lines_counter (keep_zero_group : bool) (lines : list string) :
  forall acc r,
    parse_lines sa keep_zero_group lines acc = Normal r ->
    protein_counter acc = Size_of_nat (total (parsed_groups acc)) ->
    protein_counter r = Size_of_nat (total (parsed_groups r)).
Proof.
  induction lines as [|text lines IH]; intros acc r; cbn [parse_lines].
  - intros H. now injection H as <-.
  - destruct (parse_line sa keep_zero_group text acc) as [acc1| | |] eqn:E;
      cbn [obind]; try discriminate.
    intros H Hacc. apply (IH acc1 r H).
    exact (parse_line_counter _ _ _ _ E Hacc).
Qed.

Lemma parse_output_counter (keep_zero_group : bool) (lines : list string)
    (r : Parsed) :
  parse_output sa keep_zero_group lines = Normal r ->
  protein_counter r = Size_of_nat (total (parsed_groups r)).
Proof.
  unfold parse_output.
  destruct (parse_lines sa keep_zero_group lines _) as [r0| | |] eqn:E;
    cbn [obind]; try discriminate.
  intros H. injection H as <-. cbn [parsed_groups protein_counter].
  rewrite (parse_lines_counter _ _ _ _ E eq_refl).
  f_equal. apply total_perm, sort_perm.
Qed.

(** X8.  The last thing a call of [runFido_] that returns [true] does is to
    log the summary.  The two numbers of the summary are those of the groups
    it has attached to the run: the first is the number of accessions in all
    the groups (as a 64-bit count), the second the number of groups. *)
Theorem summary_counts_attached_groups (opts : Options)
    (protein protein' : ProteinIdentification) (sh sh' : Shared)
    (choose_params : bool) (exe temp_dir : string) (keep_zero_group : bool)
    (counter : Size) (w w' : list Event) :
  runFido_ sa opts protein sh choose_params exe temp_dir keep_zero_group
           counter w
  = (Normal (true, protein', sh'), w') ->
  exists pre tail,
    w' = (pre ++ [Put LOG_INFO
                      (Str "Inferred "
                       :: Num (Size_of_nat (total (groups protein')))
                       :: Str " proteins in "
                       :: Num (N.of_nat (List.length (groups protein')))
                       :: Str " groups (" :: tail)])%list.
Proof.
  intros H. apply runFido_inv in H. destruct H as (sh1 & w1 & _ & H).
  destruct (QProcess_run exe (fido_params_ sh1)
              (w1 ++ [Start exe (fido_params_ sh1)])%list)
    as [[std_out std_err]|]; [|destruct H as (H & _); discriminate H].
  apply read_results_inv in H. destruct H as (_ & _ & _ & _ & Htrue).
  destruct (Htrue eq_refl) as (parsed & pre & Hparse & -> & ->).
  exists pre. eexists. unfold summary_line, annotated.
  cbn [with_meta with_groups groups].
  rewrite (parse_output_counter _ _ _ Hparse). reflexivity.
Qed.

End Summary.

(** The example of X8: one group with one protein. *)
Lemma summary_counts_witness :
  let Ext := Stub.externals [] None in
  let sa := sanitize Stub.two_runs in
  let opts := Stub.options false d0 in
  let protein := Stub.run "run1" [Stub.protein_hit "P1" "target";
                                  Stub.protein_hit "D1" "decoy"] in
  let sh := {| peptides_ := Stub.one_peptide;
               fido_params_ := ["INPUT_GRAPH"; "INPUT_PROTEINS"];
               prob_protein_ := d0; prob_peptide_ := d0;
               prob_spurious_ := d0 |} in
  let r := @runFido_ Ext sa opts protein sh true "FidoChooseParameters"
                     "/tmp/fido/" false 0%N [] in
  let protein' := snd (fst (returned (false, protein, sh) r)) in
  total (groups protein') = 1%nat
  /\ exists pre tail,
       snd r
       = (pre ++ [Put LOG_INFO
                      (Str "Inferred "
                       :: Num (Size_of_nat (total (groups protein')))
                       :: Str " proteins in "
                       :: Num (N.of_nat (List.length (groups protein')))
                       :: Str " groups (" :: tail)])%list.
Proof.
  intros Ext sa opts protein sh r protein'. split; [reflexivity|].
  apply (@summary_counts_attached_groups Ext sa opts protein protein' sh
           (snd (returned (false, protein, sh) r)) true
           "FidoChooseParameters" "/tmp/fido/" false 0%N [] (snd r)).
  vm_compute. reflexivity.
Defined.

(* ===================================================================== *)
(** * What is stored *)

(** The identification with its hits in another order. *)
Definition kept_peptide (p p' : PeptideIdentification) : Prop :=
  pi_identifier p' = pi_identifier p
  /\ pi_score_type p' = pi_score_type p
  /\ pi_higher_score_better p' = pi_higher_score_better p
  /\ Permutation (pi_hits p) (pi_hits p').

(** The run with other groups and meta values. *)
Definition kept_run (p p' : ProteinIdentification) : Prop :=
  identifier p' = identifier p
  /\ search_engine p' = search_engine p
  /\ score_type p' = score_type p
  /\ higher_score_better p' = higher_score_better p
  /\ hits p' = hits p.

Lemma kept_peptide_refl (p : PeptideIdentification) : kept_peptide p p.
Proof. repeat split. apply Permutation_refl. Qed.

Lemma kept_peptide_trans (p q r : PeptideIdentification) :
  kept_peptide p q -> kept_peptide q r -> kept_peptide p r.
Proof.
  intros (H1 & H2 & H3 & H4) (K1 & K2 & K3 & K4).
  repeat split; try congruence. now rewrite H4.
Qed.

Lemma kept_peptides_trans (l1 l2 l3 : list PeptideIdentification) :
  Forall2 kept_peptide l1 l2 -> Forall2 kept_peptide l2 l3 ->
  Forall2 kept_peptide l1 l3.
Proof.
  intros H. revert l3. induction H as [|p q l1 l2 Hpq H IH]; intros l3 K;
    inversion K; subst; constructor.
  - eapply kept_peptide_trans; eassumption.
  - now apply IH.
Qed.

Lemma kept_sorted_if_selected (identifier : string)
    (peps : list PeptideIdentification) :
  Forall2 kept_peptide peps (List.map (sorted_if_selected identifier) peps).
Proof.
  induction peps as [|p peps IH]; constructor; [|exact IH].
  unfold sorted_if_selected. destruct (selected identifier p);
    [|apply kept_peptide_refl].
  repeat split. cbn [PeptideIdentification_sort pi_hits]. apply sort_perm.
Qed.

Lemma kept_run_refl (p : ProteinIdentification) : kept_run p p.
Proof. repeat split. Qed.

Section Stored.
Context `{Ext : Externals}.

Lemma runFido_keeps (sa : StringBimap) (opts : Options)
    (protein protein' : ProteinIdentification) (sh sh' : Shared)
    (choose_params : bool) (exe temp_dir : string) (keep_zero_group : bool)
    (counter : Size) (w w' : list Event) (flag : bool) :
  runFido_ sa opts protein sh choose_params exe temp_dir keep_zero_group
           counter w
  = (Normal (flag, protein', sh'), w') ->
  kept_run protein protein'
  /\ peptides_ sh'
     = List.map (sorted_if_selected (identifier protein)) (peptides_ sh).
Proof.
  intros H. apply runFido_inv in H. destruct H as (sh1 & w1 & Hgen & H).
  apply generate_files_inv in Hgen. destruct Hgen as (Hpeps & _).
  destruct (QProcess_run exe (fido_params_ sh1)
              (w1 ++ [Start exe (fido_params_ sh1)])%list)
    as [[std_out std_err]|].
  - apply read_results_inv in H.
    destruct H as (_ & [Hsame _] & _ & Hfalse & Htrue).
    split; [|now rewrite Hsame].
    destruct flag.
    + destruct (Htrue eq_refl) as (parsed & pre & _ & -> & _).
      repeat split.
    + destruct (Hfalse eq_refl) as [-> _]. apply kept_run_refl.
  - destruct H as (_ & -> & ->). split; [apply kept_run_refl | exact Hpeps].
Qed.

Lemma separate_runs_loop_keeps (sa : StringBimap) (opts : Options)
    (exe temp_dir : string) (proteins : list ProteinIdentification) :
  forall counter sh flag w flag' proteins' sh' w',
    separate_runs_loop sa opts exe temp_dir proteins counter sh flag w
    = (Normal (flag', proteins', sh'), w') ->
    Forall2 kept_run proteins proteins'
    /\ Forall2 kept_peptide (peptides_ sh) (peptides_ sh').
Proof.
  induction proteins as [|prot rest IH];
    intros counter sh flag w flag' proteins' sh' w' H;
    cbn [separate_runs_loop] in H.
  - unfold ret in H. injection H as <- <- <- _.
    split; [constructor|]. clear. induction (peptides_ sh); constructor;
      [apply kept_peptide_refl | assumption].
  - unfold bind at 1, emit in H.
    apply bind_normal_inv in H. destruct H as ([[f1 p1] sh1] & w1 & Hrun & H).
    apply bind_normal_inv in H.
    destruct H as ([[f2 ps2] sh2] & w2 & Hloop & H).
    unfold ret in H. injection H as <- <- <- <-.
    apply runFido_keeps in Hrun. destruct Hrun as [Hp1 Hpeps1].
    destruct (IH _ _ _ _ _ _ _ _ Hloop) as [Hps Hpeps2].
    split; [now constructor|].
    eapply kept_peptides_trans; [|exact Hpeps2].
    rewrite Hpeps1. apply kept_sorted_if_selected.
Qed.

(** The runs are pooled: lines 641-690. *)
Definition merging (opts : Options) (proteins : list ProteinIdentification)
  : bool :=
  negb (opt_separate_runs opts) && (1 <? List.length proteins)%nat.

(** The identification as it is stored: with an empty identifier when the
    runs are pooled. *)
Definition stored_as (blank : bool) (p p' : PeptideIdentification) : Prop :=
  kept_peptide (if blank then setIdentifier p EmptyString else p) p'.

Lemma process_runs_keeps (opts : Options)
    (proteins proteins' : list ProteinIdentification) (sh sh' : Shared)
    (w w' : list Event) (flag : bool) :
  process_runs opts proteins sh w = (Normal (flag, proteins', sh'), w') ->
  Forall2 (stored_as (merging opts proteins)) (peptides_ sh) (peptides_ sh')
  /\ (merging opts proteins = false -> Forall2 kept_run proteins proteins').
Proof.
  unfold process_runs, merging. destruct (opt_separate_runs opts);
    cbn [negb andb].
  - intros H. apply separate_runs_loop_keeps in H. destruct H as [Hps Hpeps].
    split; [exact Hpeps | intros _; exact Hps].
  - destruct proteins as [|p1 [|p2 rest]].
    + discriminate.
    + intros H. apply bind_normal_inv in H.
      destruct H as ([[f1 p1'] sh1] & w1 & Hrun & H).
      unfold ret in H. injection H as <- <- <- _.
      apply runFido_keeps in Hrun. destruct Hrun as [Hp1 Hpeps].
      cbn [List.length Nat.ltb Nat.leb]. split.
      * rewrite Hpeps. apply kept_sorted_if_selected.
      * intros _. constructor; [exact Hp1 | constructor].
    + intros H. apply bind_normal_inv in H.
      destruct H as ([[f1 all'] sh1] & w1 & Hrun & H).
      apply bind_normal_inv in H. destruct H as (hs & w2 & _ & H).
      unfold ret in H. injection H as <- <- <- _.
      apply runFido_keeps in Hrun. destruct Hrun as [_ Hpeps].
      cbn [with_peptides peptides_] in Hpeps.
      split; [|discriminate].
      rewrite Hpeps. clear.
      induction (peptides_ sh) as [|p ps IH]; constructor; [|exact IH].
      unfold stored_as. cbn [List.length Nat.ltb Nat.leb].
      unfold sorted_if_selected.
      destruct (selected _ (setIdentifier p EmptyString));
        [|apply kept_peptide_refl].
      repeat split. cbn [PeptideIdentification_sort pi_hits setIdentifier].
      apply sort_perm.
Qed.

(** X9.  What [main_] stores, when it goes through to its end.  The
    peptide identifications are those of the input, one for one and in their
    order: score type and orientation are the same, the identifier is the
    same (or empty, when several runs are pooled), and the hits are the same
    up to their order; no hit is lost or changed.  When the runs are not
    pooled, the stored runs are those of the input with their identifier,
    search engine, score type and hits unchanged: only groups and meta values
    are added. *)
Theorem stored_data_keeps_hits (opts : Options)
    (proteins : list ProteinIdentification)
    (peptides : list PeptideIdentification) (w w' : list Event)
    (code : ExitCodes) :
  main_ opts proteins peptides w = (Normal code, w') ->
  code <> INPUT_FILE_EMPTY ->
  exists pre proteins' peptides' post,
    w' = (pre ++ Store (opt_out opts) proteins' peptides' :: post)%list
    /\ Forall2 (stored_as (merging opts proteins)) peptides peptides'
    /\ (merging opts proteins = false -> Forall2 kept_run proteins proteins').
Proof.
  rewrite main_unfold. unfold bind at 1, emit. unfold bind at 1, emit.
  destruct (is_nil proteins || is_nil peptides).
  { unfold bind, emit, ret. intros H Hcode. injection H as <- _.
    contradiction. }
  unfold bind at 1, emit. intros H _.
  apply bind_normal_inv in H.
  destruct H as ([[flag proteins'] sh'] & w1 & Hruns & H).
  unfold bind at 1, emit in H.
  apply bind_normal_inv in H. destruct H as ([] & w2 & Hclean & H).
  destruct (clean_up_post opts (w1 ++ [Store (opt_out opts) proteins'
                                             (peptides_ sh')])%list)
    as (evs & Hevs & _).
  rewrite Hclean in Hevs. cbn [snd] in Hevs.
  unfold ret in H. injection H as _ <-.
  apply process_runs_keeps in Hruns. destruct Hruns as [Hpeps Hps].
  exists w1, proteins', (peptides_ sh'), evs.
  split; [now rewrite Hevs, <- app_assoc|]. split; [exact Hpeps | exact Hps].
Qed.

End Stored.

(** The example of X9: two runs, processed one after the other. *)
Lemma stored_data_witness :
  let Ext := Stub.externals [] None in
  let opts := Stub.options true d0 in
  let r := @main_ Ext opts Stub.two_runs Stub.two_peptides [] in
  exists pre proteins' peptides' post,
    snd r = (pre ++ Store (opt_out opts) proteins' peptides' :: post)%list
    /\ Forall2 (stored_as (merging opts Stub.two_runs)) Stub.two_peptides
               peptides'
    /\ (merging opts Stub.two_runs = false ->
        Forall2 kept_run Stub.two_runs proteins').
Proof.
  intros Ext opts r.
  apply (@stored_data_keeps_hits Ext opts Stub.two_runs Stub.two_peptides []
           (snd r) EXECUTION_OK).
  - vm_compute. reflexivity.
  - discriminate.
Defined.

(* ===================================================================== *)
(** * The protein list file *)

(** The items put on the file [path], in their order. *)
Definition written (path : string) (evs : list Event) : list Item :=
  flat_map (fun e => match e with
                     | Put (File p) items =>
                         if String.eqb p path then items else []
                     | _ => []
                     end) evs.

Lemma written_app (path : string) (e1 e2 : list Event) :
  written path (e1 ++ e2) = (written path e1 ++ written path e2)%list.
Proof. apply flat_map_app. Qed.

(** The events of lines 379-383: the elements with " , " between them. *)
Fixpoint set_events (path : string) (first : bool) (elts : list string)
  : list Event :=
  match elts with
  | [] => []
  | e :: rest =>
      ((if first then [] else [Put (File path) [Str " , "]])
       ++ Put (File path) [Str e] :: set_events path false rest)%list
  end.

Lemma write_set_run (path : string) (elts : list string) :
  forall first w,
    write_set path first elts w
    = (Normal tt, (w ++ set_events path first elts)%list).
Proof.
  induction elts as [|e rest IH]; intros first w; cbn [write_set set_events].
  - unfold ret. now rewrite app_nil_r.
  - destruct first; cbn [negb when]; unfold bind at 1.
    + unfold ret at 1. unfold bind at 1, emit. rewrite IH.
      now rewrite <- app_assoc.
    + unfold emit at 1. unfold bind at 1, emit. rewrite IH.
      now rewrite <- !app_assoc.
Qed.

(** The elements as they are written, " , " between them. *)
Definition separated (elts : list string) : list Item :=
  match elts with
  | [] => []
  | e :: rest => Str e :: flat_map (fun x => [Str " , "; Str x]) rest
  end.

Lemma written_set_events (path : string) (elts : list string) :
  written path (set_events path true elts) = separated elts.
Proof.
  assert (H : forall l, written path (set_events path false l)
                        = flat_map (fun x => [Str " , "; Str x]) l).
  { induction l as [|x l IH]; [reflexivity|].
    cbn [set_events app]. unfold written in *. cbn [flat_map].
    rewrite String.eqb_refl, IH. reflexivity. }
  destruct elts as [|e rest]; [reflexivity|].
  cbn [set_events app separated]. unfold written at 1. cbn [flat_map].
  rewrite String.eqb_refl. cbn [app]. f_equal. apply H.
Qed.

Lemma set_events_on_file (path : string) (elts : list string) :
  forall first, all_events (on_file path) (set_events path first elts).
Proof.
  induction elts as [|e rest IH]; intros first; [reflexivity|].
  cbn [set_events]. apply all_events_app. split.
  - destruct first; [reflexivity|].
    apply all_events_cons. split; [cbn; apply String.eqb_refl | reflexivity].
  - apply all_events_cons. split; [cbn; apply String.eqb_refl | apply IH].
Qed.

Section ProteinListFile.
Context `{Ext : Externals}.
Variable sa : StringBimap.

(** The tokens of the hits with the given label, in the order of the hits. *)
Definition tokens_of (label : string) (hs : list ProteinHit) : list string :=
  flat_map (fun h => if String.eqb (target_decoy_of h) label
                     then match map.get (left sa) (accession h) with
                          | Some tok => [tok]
                          | None => []
                          end
                     else []) hs.

(** The set lines 333-357 gather for the label: sorted, each token once. *)
Definition listed (label : string) (protein : ProteinIdentification)
  : list string :=
  set_elements (fold_left set_insert (tokens_of label (hits protein)) set_empty).

Lemma gather_target_decoy_run (hs : list ProteinHit) :
  hits_registered sa hs = true -> forallb labelled hs = true ->
  forall targets decoys w,
    gather_target_decoy sa hs targets decoys w
    = (Normal (fold_left set_insert (tokens_of "target" hs) targets,
               fold_left set_insert (tokens_of "decoy" hs) decoys), w).
Proof.
  induction hs as [|h hs IH]; intros Hreg Hlab targets decoys w;
    cbn [gather_target_decoy tokens_of flat_map fold_left]; [reflexivity|].
  unfold hits_registered in Hreg. cbn [forallb] in Hreg, Hlab.
  apply andb_true_iff in Hreg, Hlab.
  destruct Hreg as [Hh Hhs], Hlab as [Lh Lhs].
  fold (target_decoy_of h). fold (tokens_of "target" hs).
  fold (tokens_of "decoy" hs).
  destruct (map.get (left sa) (accession h)) as [tok|]; [|discriminate Hh].
  unfold labelled in Lh.
  destruct (String.eqb (target_decoy_of h) "target") eqn:E1.
  - apply String.eqb_eq in E1. rewrite E1. cbn [String.eqb Ascii.eqb Bool.eqb].
    rewrite fold_left_app. cbn [fold_left app]. now apply IH.
  - destruct (String.eqb (target_decoy_of h) "decoy") eqn:E2;
      [|discriminate Lh].
    rewrite fold_left_app. cbn [fold_left app]. now apply IH.
Qed.

Lemma listed_spec (label : string) (protein : ProteinIdentification)
    (tok : string) :
  In tok (listed label protein)
  <-> exists h, In h (hits protein) /\ target_decoy_of h = label
                /\ map.get (left sa) (accession h) = Some tok.
Proof.
  unfold listed. rewrite fold_set_insert_In. unfold tokens_of.
  rewrite in_flat_map. split.
  - intros [(h & Hin & Htok) | H]; [|destruct (set_empty_In _ H)].
    destruct (String.eqb_spec (target_decoy_of h) label) as [Hl|];
      [|destruct Htok].
    destruct (map.get (left sa) (accession h)) as [t|] eqn:E; [|destruct Htok].
    destruct Htok as [<- | []]. eauto.
  - intros (h & Hin & Hl & Hget). left. exists h. split; [exact Hin|].
    rewrite Hl, String.eqb_refl, Hget. now left.
Qed.

(** X10.  The layout of the protein list file.  Every protein hit of the
    run is labelled "target" or "decoy" and its accession is registered, and
    there is at least one hit of either kind.  Then the call returns, having
    written between the opening and the closing of the file: "{ ", the
    tokens of the targets with " , " between them, " }", a newline, "{ ", the
    tokens of the decoys in the same way, " }" and the end of the line.
    Each list is in ascending order and holds the token of every hit with
    the label, once. *)
Theorem protein_list_layout (protein : ProteinIdentification)
    (path : string) (w : list Event) :
  hits_registered sa (hits protein) = true ->
  forallb labelled (hits protein) = true ->
  is_nil (listed "target" protein) = false ->
  is_nil (listed "decoy" protein) = false ->
  exists body,
    writeProteinLists_ sa protein path w
    = (Normal tt, (w ++ Open path :: body ++ [Close path])%list)
    /\ all_events (on_file path) body
    /\ written path body
       = ([Str "{ "] ++ separated (listed "target" protein)
          ++ [Str (" }" ++ nl ++ "{ ")] ++ separated (listed "decoy" protein)
          ++ [Str " }"; Endl])%list
    /\ StronglySorted str_lt (listed "target" protein)
    /\ StronglySorted str_lt (listed "decoy" protein)
    /\ (forall label tok,
          In tok (listed label protein)
          <-> exists h, In h (hits protein) /\ target_decoy_of h = label
                        /\ map.get (left sa) (accession h) = Some tok).
Proof.
  intros Hreg Hlab Ht Hd.
  exists ([Put (File path) [Str "{ "]]
          ++ set_events path true (listed "target" protein)
          ++ [Put (File path) [Str (" }" ++ nl ++ "{ ")]]
          ++ set_events path true (listed "decoy" protein)
          ++ [Put (File path) [Str " }"; Endl]])%list.
  split; [|split; [|split; [|split; [|split]]]].
  - unfold writeProteinLists_. unfold bind at 1.
    rewrite (gather_target_decoy_run _ Hreg Hlab).
    fold (listed "target" protein). fold (listed "decoy" protein).
    rewrite Ht, Hd.
    unfold bind at 1, emit. unfold bind at 1, emit.
    unfold bind at 1. rewrite write_set_run.
    unfold bind at 1, emit.
    unfold bind at 1. rewrite write_set_run.
    unfold bind, emit. f_equal.
    repeat (cbn [app]; rewrite <- ?app_assoc). reflexivity.
  - apply all_events_cons. split; [cbn; apply String.eqb_refl|].
    apply all_events_app. split; [apply set_events_on_file|].
    apply all_events_cons. split; [cbn; apply String.eqb_refl|].
    apply all_events_app. split; [apply set_events_on_file|].
    apply all_events_cons. split; [cbn; apply String.eqb_refl | reflexivity].
  - rewrite !written_app, !written_set_events. unfold written.
    cbn [flat_map]. rewrite String.eqb_refl. reflexivity.
  - apply set_elements_sorted.
  - apply set_elements_sorted.
  - intros label tok. apply listed_spec.
Qed.

(** X11.  Fido needs targets and decoys.  Every protein hit of the run is
    labelled and registered.  If no hit is labelled "target" (so also for a
    run without hits), the call logs the error and throws
    [MissingInformation] with the message on targets; if there is a target
    but no hit labelled "decoy", it does the same with the message on decoys.
    In both cases the file has not been opened. *)
Theorem protein_list_needs_targets_and_decoys
    (protein : ProteinIdentification) (path : string) (w : list Event) :
  hits_registered sa (hits protein) = true ->
  forallb labelled (hits protein) = true ->
  let is_target h := String.eqb (target_decoy_of h) "target" in
  let is_decoy h := String.eqb (target_decoy_of h) "decoy" in
  (existsb is_target (hits protein) = false ->
   writeProteinLists_ sa protein path w
   = (Thrown (MissingInformation no_targets_msg),
      (w ++ [Put LOG_ERROR [Str no_targets_msg; Endl]])%list))
  /\ (existsb is_target (hits protein) = true ->
      existsb is_decoy (hits protein) = false ->
      writeProteinLists_ sa protein path w
      = (Thrown (MissingInformation no_decoys_msg),
         (w ++ [Put LOG_ERROR [Str no_decoys_msg; Endl]])%list)).
Proof.
  intros Hreg Hlab is_target is_decoy.
  assert (Hnil : forall label,
            is_nil (listed label protein)
            = negb (existsb (fun h => String.eqb (target_decoy_of h) label)
                            (hits protein))).
  { intros label.
    destruct (existsb _ (hits protein)) eqn:E; cbn [negb].
    - apply existsb_exists in E. destruct E as (h & Hin & Hl).
      apply String.eqb_eq in Hl.
      unfold hits_registered in Hreg. rewrite forallb_forall in Hreg.
      specialize (Hreg h Hin).
      destruct (map.get (left sa) (accession h)) as [tok|] eqn:Eg;
        [|discriminate Hreg].
      assert (Hin' : In tok (listed label protein))
        by (apply listed_spec; eauto).
      destruct (listed label protein); [destruct Hin' | reflexivity].
    - destruct (listed label protein) as [|tok l] eqn:El; [reflexivity|].
      assert (Hin : In tok (listed label protein))
        by (rewrite El; now left).
      apply listed_spec in Hin. destruct Hin as (h & Hin & Hl & _).
      assert (Hex : existsb (fun h => String.eqb (target_decoy_of h) label)
                            (hits protein) = true).
      { apply existsb_exists. exists h. split; [exact Hin|].
        now apply String.eqb_eq. }
      rewrite E in Hex. discriminate. }
  split.
  - intros Ht. unfold writeProteinLists_. unfold bind at 1.
    rewrite (gather_target_decoy_run _ Hreg Hlab).
    fold (listed "target" protein). rewrite (Hnil "target").
    fold is_target. rewrite Ht. reflexivity.
  - intros Ht Hd. unfold writeProteinLists_. unfold bind at 1.
    rewrite (gather_target_decoy_run _ Hreg Hlab).
    fold (listed "target" protein). fold (listed "decoy" protein).
    rewrite (Hnil "target"), (Hnil "decoy").
    fold is_target. fold is_decoy. rewrite Ht, Hd. reflexivity.
Qed.

End ProteinListFile.

(** The example of X10: the hits of the two runs in one run. *)
Lemma protein_list_witness :
  let Ext := Stub.externals [] None in
  let sa := sanitize Stub.two_runs in
  let protein := Stub.run "all" (flat_map hits Stub.two_runs) in
  listed sa "target" protein = ["P1_3"; "P2_4"]
  /\ listed sa "decoy" protein = ["D1_1"; "D2_2"]
  /\ exists body,
       @writeProteinLists_ Ext sa protein "list.txt" []
       = (Normal tt, ([] ++ Open "list.txt" :: body ++ [Close "list.txt"])%list)
       /\ all_events (on_file "list.txt") body
       /\ written "list.txt" body
          = ([Str "{ "] ++ separated (listed sa "target" protein)
             ++ [Str (" }" ++ nl ++ "{ ")]
             ++ separated (listed sa "decoy" protein)
             ++ [Str " }"; Endl])%list
       /\ StronglySorted str_lt (listed sa "target" protein)
       /\ StronglySorted str_lt (listed sa "decoy" protein)
       /\ (forall label tok,
             In tok (listed sa label protein)
             <-> exists h, In h (hits protein) /\ target_decoy_of h = label
                           /\ map.get (left sa) (accession h) = Some tok).
Proof.
  intros Ext sa protein. split; [reflexivity|]. split; [reflexivity|].
  apply (@protein_list_layout Ext sa protein "list.txt" []);
    vm_compute; reflexivity.
Defined.

(** The example of X11: a run with targets only. *)
Lemma protein_list_errors_witness :
  let Ext := Stub.externals [] None in
  let sa := sanitize Stub.two_runs in
  let protein := Stub.run "run1" [Stub.protein_hit "P1" "target";
                                  Stub.protein_hit "P2" "target"] in
  @writeProteinLists_ Ext sa protein "list.txt" []
  = (Thrown (MissingInformation no_decoys_msg),
     ([] ++ [Put LOG_ERROR [Str no_decoys_msg; Endl]])%list).
Proof.
  intros Ext sa protein.
  apply (@protein_list_needs_targets_and_decoys Ext sa protein "list.txt" []);
    vm_compute; reflexivity.
Defined.

(* ===================================================================== *)
(** * The scores of the pooled run *)

(** The group lists the accession. *)
Definition lists (acc : string) (g : ProteinGroup) : bool :=
  existsb (String.eqb acc) (accessions g).

(** The probability of the last group that lists the accession. *)
Definition last_probability (gs : list ProteinGroup) (acc : string)
  : option double :=
  option_map probability (find (lists acc) (rev gs)).

(** The hit with the probability of the last group that lists it as its
    score, or as it is when no group lists it. *)
Definition rescored (gs : list ProteinGroup) (h : ProteinHit) : ProteinHit :=
  match last_probability gs (accession h) with
  | Some p => setScore h p
  | None => h
  end.

Lemma find_app {A} (f : A -> bool) (l1 l2 : list A) :
  find f (l1 ++ l2)
  = match find f l1 with Some x => Some x | None => find f l2 end.
Proof.
  induction l1 as [|x l1 IH]; cbn [app find]; [reflexivity|].
  destruct (f x); [reflexivity | exact IH].
Qed.

Lemma findHit_setScore_unique (hs : list ProteinHit) (acc : string)
    (s : double) :
  NoDup (List.map accession hs) -> In acc (List.map accession hs) ->
  findHit_setScore hs acc s
  = Some (List.map (fun h => if String.eqb (accession h) acc
                             then setScore h s else h) hs).
Proof.
  induction hs as [|h r IH]; intros Hnd Hin; [destruct Hin|].
  cbn [List.map findHit_setScore] in *.
  inversion Hnd as [|? ? Hnotin Hnd']; subst.
  destruct (String.eqb_spec (accession h) acc) as [Heq|Hne].
  - f_equal. f_equal. rewrite <- (map_id r) at 1. apply map_ext_in.
    intros h' Hh'. destruct (String.eqb_spec (accession h') acc) as [E|];
      [|reflexivity].
    exfalso. apply Hnotin. rewrite Heq, <- E. now apply in_map.
  - destruct Hin as [Hin | Hin]; [contradiction|].
    now rewrite (IH Hnd' Hin).
Qed.

Lemma write_scores_run (accs : list string) (p : double) :
  forall hs w,
    NoDup (List.map accession hs) ->
    Forall (fun a => In a (List.map accession hs)) accs ->
    write_scores hs accs p w
    = (Normal (List.map (fun h => if existsb (String.eqb (accession h)) accs
                                  then setScore h p else h) hs), w).
Proof.
  induction accs as [|acc rest IH]; intros hs w Hnd Hall;
    cbn [write_scores existsb].
  - unfold ret. now rewrite map_id.
  - inversion Hall as [|? ? Hacc Hrest]; subst.
    rewrite (findHit_setScore_unique hs acc p Hnd Hacc).
    assert (Hsame : List.map accession
                      (List.map (fun h => if String.eqb (accession h) acc
                                          then setScore h p else h) hs)
                    = List.map accession hs).
    { rewrite map_map. apply map_ext. intros h.
      destruct (String.eqb (accession h) acc); reflexivity. }
    rewrite IH; [| now rewrite Hsame | now rewrite Hsame].
    rewrite map_map. f_equal. f_equal. apply map_ext. intros h.
    destruct (String.eqb (accession h) acc); cbn [orb setScore accession];
      [|reflexivity].
    destruct (existsb _ rest); reflexivity.
Qed.

Lemma rescored_cons (g : ProteinGroup) (gs : list ProteinGroup)
    (h : ProteinHit) :
  rescored gs (if lists (accession h) g then setScore h (probability g) else h)
  = rescored (g :: gs) h.
Proof.
  unfold rescored, last_probability. cbn [rev]. rewrite find_app.
  replace (accession (if lists (accession h) g
                      then setScore h (probability g) else h))
    with (accession h) by (destruct (lists (accession h) g); reflexivity).
  destruct (find (lists (accession h)) (rev gs)) as [g'|];
    cbn [option_map find].
  - destruct (lists (accession h) g); reflexivity.
  - destruct (lists (accession h) g); reflexivity.
Qed.

Lemma write_group_scores_run (gs : list ProteinGroup) :
  forall hs w,
    NoDup (List.map accession hs) ->
    Forall (fun g => Forall (fun a => In a (List.map accession hs))
                            (accessions g)) gs ->
    write_group_scores hs gs w = (Normal (List.map (rescored gs) hs), w).
Proof.
  induction gs as [|g rest IH]; intros hs w Hnd Hall;
    cbn [write_group_scores].
  - unfold ret. f_equal. f_equal. rewrite <- (map_id hs) at 1.
    apply map_ext. reflexivity.
  - inversion Hall as [|? ? Hg Hrest]; subst.
    unfold bind. rewrite (write_scores_run _ _ _ _ Hnd Hg).
    assert (Hsame : List.map accession
                      (List.map (fun h => if existsb (String.eqb (accession h))
                                                     (accessions g)
                                          then setScore h (probability g)
                                          else h) hs)
                    = List.map accession hs).
    { rewrite map_map. apply map_ext. intros h.
      destruct (existsb _ (accessions g)); reflexivity. }
    rewrite IH; [| now rewrite Hsame | now rewrite Hsame].
    rewrite map_map. f_equal. f_equal. apply map_ext. intros h.
    apply (rescored_cons g rest h).
Qed.

(** ** The accessions of the groups *)

Section GroupAccessions.
Context `{Ext : Externals}.
Variable sa : StringBimap.

(** The accession stands behind a token of the bimap. *)
Definition desanitized (a : string) : Prop :=
  exists tok, map.get (right sa) tok = Some a.

Lemma read_accessions_desanitized (fuel : nat) :
  forall keep_zero_group p line accession zero g zero' g',
    read_accessions sa fuel keep_zero_group p line accession zero g
    = Normal (zero', g') ->
    Forall desanitized g -> Forall desanitized g'.
Proof.
  induction fuel as [|fuel IH];
    intros keep p line accession zero g zero' g'; cbn [read_accessions].
  - destruct (negb (to_bool line)); [|discriminate].
    intros H. now injection H as _ <-.
  - destruct (negb (to_bool line)).
    { intros H. now injection H as _ <-. }
    destruct (extract_string line accession) as [a line'].
    unfold use_accession.
    destruct (1 <? String.length a)%nat; cbn [obind].
    + destruct (deq p d0 && negb keep); cbn [obind].
      * apply IH.
      * destruct (map.get (right sa) a) as [o|] eqn:E; cbn [obind];
          [|discriminate].
        intros H Hg. apply (IH _ _ _ _ _ _ _ _ H).
        apply Forall_app. split; [exact Hg|].
        constructor; [now exists a | constructor].
    + apply IH.
Qed.

Lemma parse_line_desanitized (keep_zero_group : bool) (text : string)
    (acc r : Parsed) :
  parse_line sa keep_zero_group text acc = Normal r ->
  Forall (fun g => Forall desanitized (accessions g)) (parsed_groups acc) ->
  Forall (fun g => Forall desanitized (accessions g)) (parsed_groups r).
Proof.
  unfold parse_line.
  destruct (extract_double (istringstream text) d0) as [p line].
  destruct (read_accessions _ _ _ _ _ _ _ _) as [[zero accs]| | |] eqn:E;
    cbn [obind]; try discriminate.
  apply read_accessions_desanitized in E; [|constructor].
  destruct (negb (is_nil accs)); intros H Hacc; injection H as <-;
    cbn [parsed_groups]; [|exact Hacc].
  apply Forall_app. split; [exact Hacc|].
  constructor; [|constructor]. cbn [accessions].
  rewrite Forall_forall in E |- *.
  intros a Ha. apply E.
  exact (Permutation_in _ (Permutation_sym (sort_perm _ _)) Ha).
Qed.

Lemma parse_lines_desanitized (keep_zero_group : bool) (lines : list string) :
  forall acc r,
    parse_lines sa keep_zero_group lines acc = Normal r ->
    Forall (fun g => Forall desanitized (accessions g)) (parsed_groups acc) ->
    Forall (fun g => Forall desanitized (accessions g)) (parsed_groups r).
Proof.
  induction lines as [|text lines IH]; intros acc r; cbn [parse_lines].
  - intros H. now injection H as <-.
  - destruct (parse_line sa keep_zero_group text acc) as [acc1| | |] eqn:E1;
      cbn [obind]; try discriminate.
    intros H Hacc. apply (IH acc1 r H).
    exact (parse_line_desanitized _ _ _ _ E1 Hacc).
Qed.

Lemma parse_output_desanitized (keep_zero_group : bool) (lines : list string)
    (r : Parsed) :
  parse_output sa keep_zero_group lines = Normal r ->
  Forall (fun g => Forall desanitized (accessions g)) (parsed_groups r).
Proof.
  unfold parse_output.
  destruct (parse_lines sa keep_zero_group lines _) as [r0| | |] eqn:E;
    cbn [obind]; try discriminate.
  intros H. injection H as <-. cbn [parsed_groups].
  pose proof (parse_lines_desanitized _ _ _ _ E (Forall_nil _)) as H0.
  rewrite Forall_forall in H0 |- *. intros g Hg. apply H0.
  exact (Permutation_in _ (Permutation_sym (sort_perm _ _)) Hg).
Qed.

End GroupAccessions.

(** The left keys of the bimap are accessions of protein hits. *)
Lemma sanitize_loop_left (accs : list string) :
  forall c sa a tok,
    map.get (left (sanitize_loop accs c sa)) a = Some tok ->
    In a accs \/ map.get (left sa) a = Some tok.
Proof.
  induction accs as [|it rest IH]; intros c sa a tok; cbn [sanitize_loop].
  - now right.
  - intros H. apply IH in H. destruct H as [H | H]; [left; now right|].
    unfold bimap_insert in H.
    destruct (map.get (left sa) it); [now right|].
    destruct (map.get (right sa) _); [now right|].
    cbn [left] in H. rewrite get_put in H.
    destruct (String.eqb_spec it a) as [->|]; [left; now left | now right].
Qed.

Lemma desanitized_is_hit (proteins : list ProteinIdentification) (a : string) :
  desanitized (sanitize proteins) a ->
  In a (List.map accession (hits (merged_run proteins))).
Proof.
  intros [tok H]. apply (sanitize_ok proteins) in H.
  apply sanitize_loop_left in H. destruct H as [H | H].
  - apply collect_accessions_In in H. destruct H as (h & Hin & <-).
    destruct (find (has_accession (accession h)) (flat_map hits proteins))
      as [h0|] eqn:E.
    + pose proof (find_some _ _ E) as [_ Hacc].
      apply String.eqb_eq in Hacc. rewrite <- Hacc.
      apply in_map. apply pooled_merge_hits_first. now rewrite Hacc.
    + exfalso. apply (find_none _ _ E) in Hin.
      unfold has_accession in Hin. now rewrite String.eqb_refl in Hin.
  - cbn [bimap_empty left] in H. rewrite map.get_empty in H. discriminate.
Qed.

Section MergedScores.
Context `{Ext : Externals}.

(** X12.  The scores of the pooled run.  After [runFido_] has returned for
    the run that pools the hits of all runs, lines 678-687 find every
    accession of every group among the hits of that run, so that no iterator
    at [end()] is dereferenced; and they leave the hits in their order, each
    with the probability of the last group that lists its accession as its
    score, or with the score it had when no group lists it. *)
Theorem pooled_scores_are_group_probabilities
    (opts : Options) (proteins : list ProteinIdentification) (sh sh' : Shared)
    (choose_params : bool) (exe temp_dir : string) (keep_zero_group : bool)
    (counter : Size) (w w' : list Event) (flag : bool)
    (all' : ProteinIdentification) :
  runFido_ (sanitize proteins) opts (merged_run proteins) sh choose_params
           exe temp_dir keep_zero_group counter w
  = (Normal (flag, all', sh'), w') ->
  write_group_scores (hits all') (groups all') w'
  = (Normal (List.map (rescored (groups all')) (hits (merged_run proteins))),
     w').
Proof.
  intros H. apply runFido_inv in H. destruct H as (sh1 & w1 & _ & H).
  assert (Hnd : NoDup (List.map accession (hits (merged_run proteins)))).
  { rewrite merged_accessions. apply StronglySorted_lt_NoDup, entries_sorted. }
  assert (Hcase : all' = merged_run proteins
                  \/ exists parsed sh2,
                       parse_output (sanitize proteins) keep_zero_group
                                    parsed = Normal sh2
                       /\ all' = annotated (merged_run proteins)
                                           (parsed_groups sh2) sh').
  { destruct (QProcess_run exe (fido_params_ sh1)
                (w1 ++ [Start exe (fido_params_ sh1)])%list)
      as [[std_out std_err]|].
    - apply read_results_inv in H. destruct H as (_ & _ & _ & Hfalse & Htrue).
      destruct flag.
      + destruct (Htrue eq_refl) as (parsed & pre & Hparse & -> & _).
        right. eauto.
      + left. now destruct (Hfalse eq_refl).
    - left. now destruct H as (_ & -> & _). }
  destruct Hcase as [-> | (lines & parsed & Hparse & ->)].
  - apply write_group_scores_run; [exact Hnd | constructor].
  - unfold annotated. cbn [with_meta with_groups hits groups].
    apply write_group_scores_run; [exact Hnd|].
    apply parse_output_desanitized in Hparse.
    eapply Forall_impl; [|exact Hparse]. intros g Hg.
    eapply Forall_impl; [|exact Hg]. intros a.
    apply desanitized_is_hit.
Qed.

End MergedScores.

(** The example of X12: the two runs are pooled; each of their four
    proteins is in a group of its own with probability 0.5. *)
Lemma pooled_scores_witness :
  let Ext := Stub.externals [] None in
  let opts := Stub.options false d0 in
  let sh := {| peptides_ := List.map (fun pep => setIdentifier pep EmptyString)
                                     Stub.two_peptides;
               fido_params_ := ["INPUT_GRAPH"; "INPUT_PROTEINS"];
               prob_protein_ := d0; prob_peptide_ := d0;
               prob_spurious_ := d0 |} in
  let r := @runFido_ Ext (sanitize Stub.two_runs) opts
                     (merged_run Stub.two_runs) sh true "FidoChooseParameters"
                     "/tmp/fido/" false 0%N [] in
  let all' := snd (fst (returned (false, merged_run Stub.two_runs, sh) r)) in
  List.map (fun h => (accession h, pr_score h))
           (List.map (rescored (groups all')) (hits (merged_run Stub.two_runs)))
  = [("D1", d0); ("D2", d0); ("P1", Stub.half); ("P2", Stub.half)]
  /\ write_group_scores (hits all') (groups all') (snd r)
     = (Normal (List.map (rescored (groups all'))
                         (hits (merged_run Stub.two_runs))), snd r).
Proof.
  intros Ext opts sh r all'. split; [reflexivity|].
  apply (@pooled_scores_are_group_probabilities Ext opts Stub.two_runs sh
           (snd (returned (false, merged_run Stub.two_runs, sh) r)) true
           "FidoChooseParameters" "/tmp/fido/" false 0%N [] (snd r) true all').
  vm_compute. reflexivity.
Defined.

(* ===================================================================== *)
(** * Tokens on their way through the engine *)

(** ** The shape of a token *)

Lemma String_of_Size_not_empty (n : Size) :
  str_empty (String_of_Size n) = false.
Proof.
  unfold String_of_Size.
  assert (H : N.to_uint n <> Decimal.Nil).
  { destruct n as [|p]; [discriminate|].
    apply DecimalPos.Unsigned.to_uint_nonnil. }
  destruct (N.to_uint n); try reflexivity. contradiction.
Qed.

Lemma no_char_of_app (cs a b : string) :
  no_char_of cs (a ++ b) = no_char_of cs a && no_char_of cs b.
Proof.
  induction a as [|c a IH]; cbn [append no_char_of]; [reflexivity|].
  now rewrite IH, andb_assoc.
Qed.

Lemma digit_is_valid (c : ascii) :
  is_digit c = true -> mem_char c invalid_chars = false.
Proof.
  destruct c as [[] [] [] [] [] [] [] []]; cbv; intros H;
    first [discriminate H | reflexivity].
Qed.

Lemma digits_are_valid (d : string) :
  all_digits d = true -> no_char_of invalid_chars d = true.
Proof.
  induction d as [|c d IH]; [reflexivity|]. cbn [all_digits no_char_of].
  intros H. apply andb_true_iff in H. destruct H as [Hc Hd].
  now rewrite (IH Hd), (digit_is_valid _ Hc).
Qed.

Lemma token_is_long (p d : string) :
  str_empty d = false ->
  (1 <? String.length (p ++ "_" ++ d))%nat = true.
Proof.
  intros Hd. destruct d as [|c d]; [discriminate|].
  induction p as [|x p IH]; [reflexivity|].
  cbn [append String.length] in *. apply Nat.ltb_lt. apply Nat.ltb_lt in IH.
  lia.
Qed.

(** The left values of the bimap are tokens of their keys. *)
Lemma sanitize_loop_tokens (accs : list string) :
  forall c sa,
    (forall a t, map.get (left sa) a = Some t -> exists k, t = token a k) ->
    forall a t, map.get (left (sanitize_loop accs c sa)) a = Some t ->
                exists k, t = token a k.
Proof.
  induction accs as [|it rest IH]; intros c sa Hsa; cbn [sanitize_loop].
  - exact Hsa.
  - apply IH. intros a t. fold (token it c). unfold bimap_insert.
    destruct (map.get (left sa) it); [apply Hsa|].
    destruct (map.get (right sa) (token it c)); [apply Hsa|].
    cbn [left]. rewrite get_put.
    destruct (String.eqb_spec it a) as [->|]; [|apply Hsa].
    intros H. injection H as <-. eauto.
Qed.

(** A registered token is made of its accession and a counter. *)
Lemma registered_token (proteins : list ProteinIdentification)
    (a tok : string) :
  map.get (left (sanitize proteins)) a = Some tok ->
  exists k, tok = token a k.
Proof.
  apply sanitize_loop_tokens. intros x t Hx. cbn [bimap_empty left] in Hx.
  rewrite map.get_empty in Hx. discriminate.
Qed.

(** A registered token is longer than one character and stands for its
    accession only. *)
Lemma registered_token_is_read (proteins : list ProteinIdentification)
    (a tok : string) :
  map.get (left (sanitize proteins)) a = Some tok ->
  is_accession_token tok = true
  /\ map.get (right (sanitize proteins)) tok = Some a.
Proof.
  intros H. split; [|now apply (sanitize_ok proteins)].
  destruct (registered_token _ _ _ H) as [k ->].
  unfold is_accession_token, token.
  apply token_is_long, String_of_Size_not_empty.
Qed.

(** X13.  The tokens that stand for the accessions.  A token registered
    for an accession is the prefix of the accession before its first space,
    tab, comma or brace, an underscore and a decimal counter.  It holds none
    of these five characters, it is longer than one character, so that the
    reader of the engine's output (line 490) takes it for an accession and
    not for a brace or a comma, and the bimap maps it back to the
    accession. *)
Theorem tokens_are_read_as_accessions
    (proteins : list ProteinIdentification) (a tok : string) :
  map.get (left (sanitize proteins)) a = Some tok ->
  (exists k, tok = substr0 a (find_first_of invalid_chars a) ++ "_"
                   ++ String_of_Size k)
  /\ no_char_of invalid_chars tok = true
  /\ is_accession_token tok = true
  /\ map.get (right (sanitize proteins)) tok = Some a.
Proof.
  intros H. pose proof (registered_token_is_read _ _ _ H) as Hread.
  destruct (registered_token _ _ _ H) as [k ->].
  split; [now exists k|]. split; [|exact Hread].
  unfold token. rewrite !no_char_of_app.
  destruct (valid_prefix_spec invalid_chars a) as (rest & _ & Hno & _).
  rewrite Hno, (digits_are_valid _ (String_of_Size_digits k)). reflexivity.
Qed.

(** The example of X13: an accession with a space. *)
Lemma tokens_witness :
  let proteins := [Stub.run "run1" [Stub.protein_hit "sp|P1 human" "target"]] in
  map.get (left (sanitize proteins)) "sp|P1 human" = Some "sp|P1_1"
  /\ (exists k, "sp|P1_1"
                = substr0 "sp|P1 human"
                          (find_first_of invalid_chars "sp|P1 human")
                  ++ "_" ++ String_of_Size k)
  /\ no_char_of invalid_chars "sp|P1_1" = true
  /\ is_accession_token "sp|P1_1" = true
  /\ map.get (right (sanitize proteins)) "sp|P1_1" = Some "sp|P1 human".
Proof.
  intros proteins. split; [reflexivity|].
  apply (tokens_are_read_as_accessions proteins). reflexivity.
Defined.

(** ** A line of groups *)

Fixpoint no_space (s : string) : bool :=
  match s with
  | EmptyString => true
  | String c r => negb (isspace c) && no_space r
  end.

(** A token that the stream reads as one word. *)
Definition is_word (s : string) : bool := negb (str_empty s) && no_space s.

Lemma take_word_app (t r : string) :
  no_space t = true -> take_word (t ++ String " " r) = t.
Proof.
  induction t as [|c t IH]; cbn [append no_space take_word]; [reflexivity|].
  intros H. apply andb_true_iff in H. destruct H as [Hc Ht].
  apply negb_true_iff in Hc. now rewrite Hc, (IH Ht).
Qed.

Lemma drop_word_app (t r : string) :
  no_space t = true -> drop_word (t ++ String " " r) = String " " r.
Proof.
  induction t as [|c t IH]; cbn [append no_space drop_word]; [reflexivity|].
  intros H. apply andb_true_iff in H. destruct H as [Hc Ht].
  apply negb_true_iff in Hc. now rewrite Hc, (IH Ht).
Qed.

Lemma words_space (r : string) : words (String " " r) = words r.
Proof. reflexivity. Qed.

Lemma words_word (t r : string) :
  is_word t = true -> words (t ++ String " " r) = t :: words r.
Proof.
  unfold is_word. intros H. apply andb_true_iff in H. destruct H as [Hne Hns].
  destruct t as [|c t]; [discriminate|].
  assert (Hskip : skipws (String c t ++ String " " r)
                  = String c t ++ String " " r).
  { cbn [append skipws]. cbn [no_space] in Hns.
    apply andb_true_iff in Hns. destruct Hns as [Hc _].
    apply negb_true_iff in Hc. now rewrite Hc. }
  rewrite words_next; rewrite Hskip; [|reflexivity].
  now rewrite (take_word_app _ _ Hns), (drop_word_app _ _ Hns), words_space.
Qed.

(** What follows the probability on a line of the engine's output: the
    tokens of a group between braces, with " , " between them. *)
Definition group_text (toks : list string) : string :=
  " { " ++ String.concat " , " toks ++ " }".

(** The words of such a line. *)
Definition spaced (toks : list string) : list string :=
  match toks with
  | [] => []
  | t :: ts => t :: flat_map (fun x => [","; x]) ts
  end.

Lemma words_tokens (toks : list string) :
  toks <> [] -> forallb is_word toks = true ->
  words (String.concat " , " toks ++ " }") = (spaced toks ++ ["}"])%list.
Proof.
  intros Hne. induction toks as [|t ts IH]; [contradiction|].
  cbn [forallb]. intros H. apply andb_true_iff in H. destruct H as [Ht Hts].
  destruct ts as [|t2 ts].
  - cbn [String.concat spaced flat_map app].
    change (t ++ " }") with (t ++ String " " "}").
    now rewrite (words_word _ _ Ht).
  - change (String.concat " , " (t :: t2 :: ts))
      with (t ++ " , " ++ String.concat " , " (t2 :: ts)).
    rewrite !append_assoc.
    change (t ++ " , " ++ String.concat " , " (t2 :: ts) ++ " }")
      with (t ++ String " " ("," ++ String " "
                                 (String.concat " , " (t2 :: ts) ++ " }"))).
    rewrite (words_word _ _ Ht), (words_word "," _ eq_refl).
    rewrite IH by (discriminate || exact Hts). reflexivity.
Qed.

Lemma words_group_text (toks : list string) :
  toks <> [] -> forallb is_word toks = true ->
  words (group_text toks) = ("{" :: spaced toks ++ ["}"])%list.
Proof.
  intros Hne Hw. unfold group_text.
  change (" { " ++ String.concat " , " toks ++ " }")
    with (String " " ("{" ++ String " " (String.concat " , " toks ++ " }"))).
  rewrite words_space, (words_word "{" _ eq_refl).
  now rewrite (words_tokens _ Hne Hw).
Qed.

Lemma accession_tokens_spaced (toks : list string) :
  forallb is_accession_token toks = true ->
  filter is_accession_token ("{" :: spaced toks ++ ["}"]) = toks.
Proof.
  intros H. cbn [filter is_accession_token String.length Nat.ltb Nat.leb].
  rewrite filter_app. cbn [filter is_accession_token String.length Nat.ltb
                            Nat.leb]. rewrite app_nil_r.
  destruct toks as [|t ts]; [reflexivity|].
  cbn [forallb] in H. apply andb_true_iff in H. destruct H as [Ht Hts].
  cbn [spaced filter]. rewrite Ht. f_equal.
  induction ts as [|x ts IH]; [reflexivity|].
  cbn [forallb] in Hts. apply andb_true_iff in Hts. destruct Hts as [Hx Hts].
  cbn [flat_map app filter]. rewrite Hx.
  cbn [is_accession_token String.length Nat.ltb Nat.leb]. f_equal.
  now apply IH.
Qed.

Section GroupLine.
Context `{Ext : Externals}.

(** X14.  A line of the engine's output is read back as the group it
    stands for.  The line holds a probability and, between braces and with
    " , " between them, the tokens that are registered for the accessions of
    some protein hits; the tokens hold no white space.  The probability is
    not zero, or the zero group is kept.  Then the reader appends one group:
    that probability with the accessions of those hits, in ascending
    order. *)
Theorem group_line_is_read_back
    (proteins : list ProteinIdentification) (hs : list ProteinHit)
    (toks : list string) (text : string) (p : double)
    (keep_zero_group : bool) (acc : Parsed) :
  let sa := sanitize proteins in
  hs <> [] ->
  Forall2 (fun h tok => map.get (left sa) (accession h) = Some tok) hs toks ->
  forallb no_space toks = true ->
  line_parts text = Some (p, group_text toks) ->
  deq p d0 && negb keep_zero_group = false ->
  (zero_proteins acc < Size_modulus)%N ->
  exists r,
    parse_line sa keep_zero_group text acc = Normal r
    /\ parsed_groups r
       = (parsed_groups acc
          ++ [{| probability := p;
                 accessions := sort String.ltb (List.map accession hs) |}])
         %list.
Proof.
  intros sa Hne Htoks Hns Hparts Hkeep Hzero.
  assert (Hshape : forall h tok,
            map.get (left sa) (accession h) = Some tok ->
            is_accession_token tok = true
            /\ map.get (right sa) tok = Some (accession h)).
  { intros h tok H. now apply (registered_token_is_read proteins). }
  assert (Hne' : toks <> []).
  { destruct Htoks; [contradiction | discriminate]. }
  assert (Hacc : forallb is_accession_token toks = true).
  { clear - Htoks Hshape. induction Htoks as [|h tok hs toks H _ IH];
      [reflexivity|].
    cbn [forallb]. rewrite IH, andb_true_r. now apply (Hshape h). }
  assert (Hword : forallb is_word toks = true).
  { clear - Hacc Hns. induction toks as [|t ts IH]; [reflexivity|].
    cbn [forallb] in *. apply andb_true_iff in Hacc, Hns.
    destruct Hacc as [Ht Hts], Hns as [Nt Nts].
    rewrite (IH Nts Hts), andb_true_r. unfold is_word. rewrite Nt, andb_true_r.
    destruct t; [discriminate Ht | reflexivity]. }
  assert (Horig : flat_map (original sa) toks = List.map accession hs).
  { clear - Htoks Hshape. induction Htoks as [|h tok hs toks H _ IH];
      [reflexivity|].
    cbn [flat_map List.map]. rewrite IH. unfold original.
    destruct (Hshape h tok H) as [_ ->]. reflexivity. }
  assert (Hknown : forallb (known sa) toks = true).
  { clear - Htoks Hshape. induction Htoks as [|h tok hs toks H _ IH];
      [reflexivity|].
    cbn [forallb]. rewrite IH, andb_true_r. unfold known.
    destruct (Hshape h tok H) as [_ ->]. reflexivity. }
  assert (Htokens : accession_tokens text = toks).
  { unfold accession_tokens. rewrite Hparts.
    rewrite (words_group_text _ Hne' Hword).
    now apply accession_tokens_spaced. }
  destruct (parse_line_spec sa keep_zero_group text acc
              (N.to_nat (zero_proteins acc))) as [pc Hline].
  - unfold closed_line. rewrite Hparts, (words_group_text _ Hne' Hword).
    unfold closed.
    change ("{" :: spaced toks ++ ["}"])%list
      with (("{" :: spaced toks) ++ ["}"])%list.
    rewrite last_last. reflexivity.
  - unfold tokens_known. now rewrite Htokens.
  - unfold Size_of_nat. rewrite N2Nat.id. symmetry. now apply N.mod_small.
  - eexists. split; [exact Hline|]. cbn [parsed_groups]. f_equal.
    unfold group_of. rewrite Hparts, Hkeep, Htokens, Horig.
    destruct hs; [contradiction | reflexivity].
Qed.

(** A line from which no probability can be read gives no group. *)
Lemma parse_line_without_number (sa : StringBimap) (keep_zero_group : bool)
    (text : string) (acc : Parsed) :
  line_parts text = None ->
  parse_line sa keep_zero_group text acc = Normal acc.
Proof.
  intros H. unfold parse_line.
  pose proof (extract_double_none _ H) as Hfail.
  destruct (extract_double (istringstream text) d0) as [p line].
  cbn [snd] in Hfail. rewrite read_accessions_failed by exact Hfail.
  cbn [obind is_nil negb]. now destruct acc.
Qed.

(** X15.  Lines that do not begin with a number do not count.  A line of
    the engine's output that is empty or blank (as the one after the last
    newline), or on which no number can be read first, adds no group and no
    count, whatever else it holds: the result of reading the output is that
    of reading the other lines. *)
Theorem lines_without_number_are_ignored (sa : StringBimap)
    (keep_zero_group : bool) (lines : list string) :
  parse_output sa keep_zero_group lines
  = parse_output sa keep_zero_group
      (filter (fun text => is_some (line_parts text)) lines).
Proof.
  unfold parse_output. f_equal.
  generalize {| parsed_groups := []; protein_counter := 0%N;
                zero_proteins := 0%N |}.
  induction lines as [|text lines IH]; intros acc; [reflexivity|].
  cbn [parse_lines filter].
  destruct (line_parts text) as [[p rest]|] eqn:E; cbn [is_some].
  - cbn [parse_lines]. destruct (parse_line sa keep_zero_group text acc);
      cbn [obind]; [apply IH | reflexivity..].
  - rewrite (parse_line_without_number _ _ _ _ E). cbn [obind]. apply IH.
Qed.

End GroupLine.

(** The example of X14: the line of a group of two proteins. *)
Lemma group_line_witness :
  let Ext := Stub.externals [] None in
  let sa := sanitize Stub.two_runs in
  let acc := {| parsed_groups := []; protein_counter := 0%N;
                zero_proteins := 0%N |} in
  exists r,
    parse_line sa false "0.5 { P2_4 , P1_3 }" acc = Normal r
    /\ parsed_groups r
       = (parsed_groups acc
          ++ [{| probability := Stub.half;
                 accessions :=
                   sort String.ltb
                        (List.map accession [Stub.protein_hit "P2" "target";
                                             Stub.protein_hit "P1" "target"])
              |}])%list.
Proof.
  intros Ext sa acc.
  apply (@group_line_is_read_back Ext Stub.two_runs
           [Stub.protein_hit "P2" "target"; Stub.protein_hit "P1" "target"]
           ["P2_4"; "P1_3"] "0.5 { P2_4 , P1_3 }" Stub.half false acc).
  - discriminate.
  - repeat constructor.
  - reflexivity.
  - vm_compute. reflexivity.
  - reflexivity.
  - vm_compute. reflexivity.
Defined.

(* ===================================================================== *)
(** * The arguments of the engine *)

(** [b] occurs in [s]. *)
Fixpoint occurs (b s : string) : bool :=
  String.prefix b s
  || match s with
     | EmptyString => false
     | String _ r => occurs b r
     end.

Lemma replace_from_absent (b a s : string) :
  occurs b s = false -> replace_from b a s 0 = s.
Proof.
  induction s as [|c r IH]; [reflexivity|].
  cbn [occurs replace_from]. intros H. apply orb_false_iff in H.
  destruct H as [Hp Hr]. rewrite Hp. now rewrite (IH Hr).
Qed.

Lemma replace_absent (b a s : string) :
  occurs b s = false -> replace b a s = s.
Proof.
  intros H. unfold replace. destruct (str_empty b); [reflexivity|].
  now apply replace_from_absent.
Qed.

Lemma replace_graph (a : string) : replace "INPUT_GRAPH" a "INPUT_GRAPH" = a.
Proof. cbn. apply append_empty_r. Qed.

Lemma replace_proteins (a : string) :
  replace "INPUT_PROTEINS" a "INPUT_PROTEINS" = a.
Proof. cbn. apply append_empty_r. Qed.

(** A string without the letter "I" holds no place holder. *)
Fixpoint no_capital_i (s : string) : bool :=
  match s with
  | EmptyString => true
  | String c r => negb (Ascii.eqb c "I") && no_capital_i r
  end.

Lemma no_capital_i_absent (b s : string) :
  no_capital_i s = true -> occurs (String "I" b) s = false.
Proof.
  induction s as [|c r IH]; [reflexivity|].
  cbn [no_capital_i occurs String.prefix]. intros H.
  apply andb_true_iff in H. destruct H as [Hc Hr].
  rewrite (IH Hr), orb_false_r. apply negb_true_iff in Hc.
  destruct (ascii_dec "I" c) as [<-|]; [discriminate Hc | reflexivity].
Qed.

Lemma digits_no_capital_i (d : string) :
  all_digits d = true -> no_capital_i d = true.
Proof.
  induction d as [|c d IH]; [reflexivity|]. cbn [all_digits no_capital_i].
  intros H. apply andb_true_iff in H. destruct H as [Hc Hd].
  rewrite (IH Hd), andb_true_r.
  destruct c as [[] [] [] [] [] [] [] []]; cbv in Hc |- *;
    first [discriminate Hc | reflexivity].
Qed.

Lemma String_of_Int_no_capital_i (z : Z) :
  no_capital_i (String_of_Int z) = true.
Proof.
  unfold String_of_Int.
  destruct (Z.to_int z) as [d|d]; cbn [NilEmpty.string_of_int no_capital_i];
    rewrite ?andb_true_l; apply digits_no_capital_i, string_of_uint_digits.
Qed.

(** The argument is a place holder, or holds none. *)
Definition plain_or_place_holder (a : string) : Prop :=
  a = "INPUT_GRAPH" \/ a = "INPUT_PROTEINS"
  \/ (occurs "INPUT_GRAPH" a = false /\ occurs "INPUT_PROTEINS" a = false).

Lemma plain_without_i (s : string) :
  no_capital_i s = true -> plain_or_place_holder s.
Proof. intros H. right. right. split; now apply no_capital_i_absent. Qed.

(** The argument after the place holders have been replaced. *)
Definition substitute (graph list_ a : string) : string :=
  if String.eqb a "INPUT_GRAPH" then graph
  else if String.eqb a "INPUT_PROTEINS" then list_
  else a.

Lemma occurs_self (b : string) : occurs b b = true.
Proof.
  destruct b as [|c r]; [reflexivity|]. cbn [occurs].
  replace (String.prefix (String c r) (String c r)) with true; [reflexivity|].
  symmetry. rewrite <- (append_empty_r (String c r)) at 2. apply prefix_append.
Qed.

Lemma replace_place_holders (graph list_ : string) (l : list string) :
  Forall plain_or_place_holder l ->
  occurs "INPUT_PROTEINS" graph = false ->
  replaceInStrings "INPUT_PROTEINS" list_
    (replaceInStrings "INPUT_GRAPH" graph l)
  = List.map (substitute graph list_) l.
Proof.
  intros Hl Hg. unfold replaceInStrings. rewrite map_map.
  induction Hl as [|a l Ha Hl IH]; [reflexivity|].
  cbn [List.map]. rewrite IH. f_equal. unfold substitute.
  destruct Ha as [-> | [-> | [H1 H2]]].
  - rewrite replace_graph. now apply replace_absent.
  - rewrite (replace_absent "INPUT_GRAPH") by reflexivity.
    apply replace_proteins.
  - rewrite (replace_absent _ _ _ H1), (replace_absent _ _ _ H2).
    destruct (String.eqb_spec a "INPUT_GRAPH") as [->|].
    { rewrite occurs_self in H1. discriminate. }
    destruct (String.eqb_spec a "INPUT_PROTEINS") as [->|]; [|reflexivity].
    rewrite occurs_self in H2. discriminate.
Qed.

(** ** The arguments of the parameter search *)

Definition flags_of (opts : Options) : list string :=
  push_if (opt_group_level opts) "-g"
    (push_if (opt_all_PSMs opts) "-a"
       (push_if (opt_no_cleanup opts) "-p" [])).

Definition accuracy_of (opts : Options) : list string :=
  if String.eqb (opt_accuracy opts) "best" then ["-c 1"]
  else if String.eqb (opt_accuracy opts) "relaxed" then ["-c 2"]
  else if String.eqb (opt_accuracy opts) "sloppy" then ["-c 3"]
  else [].

(** The limits on the number of states: the limit for the precalculation
    when it is not zero, then the general limit, which is 18 when it is zero
    and the other is not. *)
Definition states_of (opts : Options) : list string :=
  let precalc := opt_log2_states_precalc opts in
  let states :=
    if negb (precalc =? 0)%Z && (opt_log2_states opts =? 0)%Z
    then 18%Z else opt_log2_states opts in
  ((if negb (precalc =? 0)%Z then [String_of_Int precalc] else [])
   ++ (if negb (states =? 0)%Z then [String_of_Int states] else []))%list.

Section EngineArguments.
Context `{Ext : Externals}.

(** Lines 594-622 with the parameter search, in one piece. *)
Lemma initial_fido_params_choose (opts : Options) :
  choose_params_of opts = true ->
  initial_fido_params opts
  = (flags_of opts ++ accuracy_of opts
     ++ ["INPUT_GRAPH"; "INPUT_PROTEINS"] ++ states_of opts)%list.
Proof.
  intros Hc. unfold initial_fido_params, accuracy_of, states_of.
  rewrite Hc. cbv zeta. fold (flags_of opts).
  destruct (opt_accuracy opts) as [|c r].
  - cbn [str_empty negb String.eqb].
    destruct (opt_log2_states_precalc opts =? 0)%Z;
      destruct (opt_log2_states opts =? 0)%Z eqn:E;
      cbn [negb andb]; rewrite ?E; cbn [negb Z.eqb app];
      rewrite <- ?app_assoc; reflexivity.
  - cbn [str_empty negb].
    destruct (String.eqb (String c r) "best"),
      (String.eqb (String c r) "relaxed"),
      (String.eqb (String c r) "sloppy");
      destruct (opt_log2_states_precalc opts =? 0)%Z;
      destruct (opt_log2_states opts =? 0)%Z eqn:E;
      cbn [negb andb]; rewrite ?E; cbn [negb Z.eqb app];
      rewrite <- ?app_assoc; reflexivity.
Qed.

Lemma initial_fido_params_plain (opts : Options) :
  choose_params_of opts = true ->
  Forall plain_or_place_holder (initial_fido_params opts).
Proof.
  intros Hc. rewrite (initial_fido_params_choose _ Hc).
  assert (Hflag : forall s l, no_capital_i s = true ->
                              Forall plain_or_place_holder l ->
                              Forall plain_or_place_holder (s :: l)).
  { intros s l Hs Hl. apply Forall_cons; [now apply plain_without_i | exact Hl]. }
  apply Forall_app; split;
    [|apply Forall_app; split; [|apply Forall_app; split]].
  - unfold flags_of, push_if.
    destruct (opt_group_level opts), (opt_all_PSMs opts),
      (opt_no_cleanup opts); cbn [app];
      repeat (apply Hflag; [reflexivity|]); apply Forall_nil.
  - unfold accuracy_of.
    destruct (String.eqb (opt_accuracy opts) "best");
      [apply Hflag; [reflexivity | apply Forall_nil]|].
    destruct (String.eqb (opt_accuracy opts) "relaxed");
      [apply Hflag; [reflexivity | apply Forall_nil]|].
    destruct (String.eqb (opt_accuracy opts) "sloppy");
      [apply Hflag; [reflexivity | apply Forall_nil] | apply Forall_nil].
  - apply Forall_cons; [now left|].
    apply Forall_cons; [right; now left | apply Forall_nil].
  - unfold states_of. cbv zeta. apply Forall_app. split.
    + destruct (negb (opt_log2_states_precalc opts =? 0)%Z);
        [|apply Forall_nil].
      apply Hflag; [apply String_of_Int_no_capital_i | apply Forall_nil].
    + match goal with
      | |- context [if negb (?z =? 0)%Z then _ else _] =>
          destruct (negb (z =? 0)%Z); [|apply Forall_nil]
      end.
      apply Hflag; [apply String_of_Int_no_capital_i | apply Forall_nil].
Qed.

(** X16.  The arguments of the first call with parameter search.  The
    shared argument list is the one lines 594-622 make, and the path of the
    graph file does not hold the text "INPUT_PROTEINS".  Then a call of
    [runFido_] that returns has started the engine with these arguments,
    each as it was, except that "INPUT_GRAPH" has become the path of the
    graph file and "INPUT_PROTEINS" the path of the protein list file, the
    two files that the call has just written. *)
Theorem first_call_names_its_own_files (sa : StringBimap) (opts : Options)
    (protein : ProteinIdentification) (sh : Shared) (exe temp_dir : string)
    (keep_zero_group : bool) (counter : Size) (w w' : list Event)
    (r : bool * ProteinIdentification * Shared) :
  let graph := temp_dir ++ "fido_input_graph" ++ num_of counter ++ ".txt" in
  let list_ := temp_dir ++ "fido_input_proteins" ++ num_of counter ++ ".txt" in
  choose_params_of opts = true ->
  fido_params_ sh = initial_fido_params opts ->
  occurs "INPUT_PROTEINS" graph = false ->
  runFido_ sa opts protein sh true exe temp_dir keep_zero_group counter w
  = (Normal r, w') ->
  exists pre post,
    w' = (w ++ pre
            ++ Start exe (List.map (substitute graph list_)
                                   (initial_fido_params opts)) :: post)%list
    /\ In (Open graph) pre /\ In (Close graph) pre
    /\ In (Open list_) pre /\ In (Close list_) pre
    /\ count_starts pre = 0%nat /\ count_starts post = 0%nat.
Proof.
  intros graph list_ Hc Hparams Hgraph H.
  destruct r as [[flag protein'] sh'].
  unfold runFido_ in H.
  apply bind_normal_inv in H. destruct H as (sh1 & w1 & Hgen & H).
  assert (Hargs : fido_params_ sh1
                  = List.map (substitute graph list_)
                             (initial_fido_params opts)).
  { pose proof (generate_files_inv _ _ _ _ _ _ _ _ _ _ Hgen)
      as (_ & Hp & _).
    rewrite Hp, Hparams.
    apply replace_place_holders;
      [now apply initial_fido_params_plain | exact Hgraph]. }
  assert (Hpre : exists pre,
            w1 = (w ++ pre)%list
            /\ In (Open graph) pre /\ In (Close graph) pre
            /\ In (Open list_) pre /\ In (Close list_) pre
            /\ count_starts pre = 0%nat).
  { destruct (quiet_run _ _ _ _ (generate_files_quiet _ _ _ _ _ _ _) Hgen)
      as (pre & Hw1 & Hq).
    exists pre. split; [exact Hw1|].
    assert (Hin : In (Open graph) pre /\ In (Close graph) pre
                  /\ In (Open list_) pre /\ In (Close list_) pre);
      [|tauto].
    unfold generate_files in Hgen. unfold bind at 1, emit in Hgen.
    apply bind_normal_inv in Hgen.
    destruct Hgen as (peps & w2 & Hg & Hgen).
    apply bind_normal_inv in Hgen. destruct Hgen as ([] & w3 & Hl & Hgen).
    unfold bind, emit, ret in Hgen. injection Hgen as _ Hw.
    fold graph in Hg. fold list_ in Hl.
    unfold writePSMGraph_ in Hg. unfold bind at 1, emit in Hg.
    apply bind_normal_inv in Hg. destruct Hg as (peps1 & w4 & Hloop & Hg).
    unfold bind, emit, ret in Hg. injection Hg as _ Hw2.
    apply scope_normal in Hloop.
    destruct (quiet_run _ _ _ _
                (write_graph_loop_quiet _ _ _ _ _ _) Hloop) as (e4 & -> & _).
    unfold writeProteinLists_ in Hl.
    apply bind_normal_inv in Hl. destruct Hl as ([ts ds] & w5 & Hgather & Hl).
    destruct (quiet_run _ _ _ _ (gather_target_decoy_quiet _ _ _ _) Hgather)
      as (e5 & -> & _).
    destruct (is_nil (set_elements ts));
      [unfold bind, emit, throw in Hl; discriminate Hl|].
    destruct (is_nil (set_elements ds));
      [unfold bind, emit, throw in Hl; discriminate Hl|].
    unfold bind at 1, emit in Hl. unfold bind at 1, emit in Hl.
    unfold bind at 1 in Hl. rewrite write_set_run in Hl.
    unfold bind at 1, emit in Hl.
    unfold bind at 1 in Hl. rewrite write_set_run in Hl.
    unfold bind, emit in Hl. injection Hl as Hw3.
    subst w2 w3. rewrite <- Hw in Hw1.
    rewrite <- !app_assoc in Hw1. apply app_inv_head in Hw1. subst pre.
    repeat split;
      solve [repeat first [left; reflexivity
                          | apply in_or_app;
                            first [left; left; reflexivity | right]]]. }
  destruct Hpre as (pre & -> & Hin1 & Hin2 & Hin3 & Hin4 & Hq).
  unfold bind at 1, emit in H. unfold bind at 1, history in H.
  assert (Hrest : exists post,
            w' = (((w ++ pre) ++ [Start exe (fido_params_ sh1)]) ++ post)%list
            /\ count_starts post = 0%nat).
  { destruct (QProcess_run exe (fido_params_ sh1)
                ((w ++ pre) ++ [Start exe (fido_params_ sh1)])%list)
      as [[std_out std_err]|].
    - exact (quiet_run _ _ _ _ (read_results_quiet _ _ _ _ _ _ _ _ _ _) H).
    - refine (quiet_run _ _ _ _ _ H). unfold report_failure.
      repeat quiet_step. }
  destruct Hrest as (post & -> & Hq2).
  exists pre, post. rewrite Hargs, <- !app_assoc. cbn [app]. tauto.
Qed.

End EngineArguments.

(** The example of X16: one run, all flags set. *)
Lemma first_call_witness :
  let Ext := Stub.externals [] None in
  let sa := sanitize Stub.two_runs in
  let opts := {| opt_in := "in.idXML"; opt_out := "out.idXML";
                 opt_exe := EmptyString; opt_prob_param := EmptyString;
                 opt_separate_runs := false; opt_keep_zero_group := false;
                 opt_no_cleanup := true; opt_all_PSMs := true;
                 opt_group_level := true; opt_accuracy := "relaxed";
                 opt_log2_states := 0; opt_log2_states_precalc := 12;
                 opt_prob_protein := d0; opt_prob_peptide := d0;
                 opt_prob_spurious := d0; debug_level_ := 0 |} in
  let protein := Stub.run "run1" [Stub.protein_hit "P1" "target";
                                  Stub.protein_hit "D1" "decoy"] in
  let sh := @initial_shared Ext opts Stub.one_peptide in
  let r := @runFido_ Ext sa opts protein sh true "FidoChooseParameters"
                     "/tmp/fido/" false 0%N [] in
  List.map (substitute "/tmp/fido/fido_input_graph.txt"
                       "/tmp/fido/fido_input_proteins.txt")
           (@initial_fido_params Ext opts)
  = ["-p"; "-a"; "-g"; "-c 2"; "/tmp/fido/fido_input_graph.txt";
     "/tmp/fido/fido_input_proteins.txt"; "12"; "18"]
  /\ exists pre post,
       snd r
       = ([] ++ pre
             ++ Start "FidoChooseParameters"
                  (List.map (substitute "/tmp/fido/fido_input_graph.txt"
                                        "/tmp/fido/fido_input_proteins.txt")
                            (@initial_fido_params Ext opts)) :: post)%list
       /\ In (Open "/tmp/fido/fido_input_graph.txt") pre
       /\ In (Close "/tmp/fido/fido_input_graph.txt") pre
       /\ In (Open "/tmp/fido/fido_input_proteins.txt") pre
       /\ In (Close "/tmp/fido/fido_input_proteins.txt") pre
       /\ count_starts pre = 0%nat /\ count_starts post = 0%nat.
Proof.
  intros Ext sa opts protein sh r. split; [reflexivity|].
  apply (@first_call_names_its_own_files Ext sa opts protein sh
           "FidoChooseParameters" "/tmp/fido/" false 0%N [] (snd r)
           (returned (false, protein, sh) r));
    vm_compute; reflexivity.
Defined.
